(** * SubScrubber: the decoding cascade and the sanitation pipeline

    A shallow embedding of [subscrub.py] ([try_decode], [sanitize] and
    [process_file]) together with the Python built-ins the functions call, and
    the properties of the natural-language specification stated and settled
    over that embedding.

    Data model.  A Python [str] is a sequence of Unicode code points: [text] is
    [list Z].  A [bytes] object is [list byte].  The change log is a Python
    [dict] used for its insertion order: an association list with the update
    discipline of [dict.__setitem__]. *)

From Stdlib.Strings Require Import String Ascii Byte.
From Stdlib Require Import ZArith List Bool Lia.
Import ListNotations.
Open Scope Z_scope.

(** A code point, and a Python [str]. *)
Abbreviation char := Z.
Abbreviation text := (list Z).

(** An ASCII literal of the source as a [text]. *)
Fixpoint str (s : string) : text :=
  match s with
  | EmptyString => []
  | String a r => Z.of_N (N_of_ascii a) :: str r
  end.

Fixpoint text_eqb (a b : text) : bool :=
  match a, b with
  | [], [] => true
  | x :: a', y :: b' => (x =? y) && text_eqb a' b'
  | _, _ => false
  end.

(** ** Python built-ins used by the program *)

Module Py.

(** [str.isspace] on one code point, which is also the class [\s] of [re] on
    [str] patterns (CPython's [_PyUnicode_IsWhitespace]). *)
Definition isspace (c : char) : bool :=
  ((0x09 <=? c) && (c <=? 0x0D)) || ((0x1C <=? c) && (c <=? 0x20))
  || (c =? 0x85) || (c =? 0xA0) || (c =? 0x1680)
  || ((0x2000 <=? c) && (c <=? 0x200A))
  || (c =? 0x2028) || (c =? 0x2029) || (c =? 0x202F) || (c =? 0x205F)
  || (c =? 0x3000).

(** The line boundaries of [str.splitlines] (CPython's
    [_PyUnicode_IsLinebreak]); CR LF is handled by [splitlines] itself. *)
Definition islinebreak (c : char) : bool :=
  ((0x0A <=? c) && (c <=? 0x0D)) || ((0x1C <=? c) && (c <=? 0x1E))
  || (c =? 0x85) || (c =? 0x2028) || (c =? 0x2029).

Fixpoint startswith (t prefix : text) {struct prefix} : bool :=
  match prefix, t with
  | [], _ => true
  | p :: prefix', c :: t' => (c =? p) && startswith t' prefix'
  | _ :: _, [] => false
  end.

(** [t.endswith(("\n", "\r"))]: the tuple form, with one-character suffixes. *)
Definition endswith_any (t : text) (suffixes : list char) : bool :=
  match rev t with
  | [] => false
  | c :: _ => existsb (Z.eqb c) suffixes
  end.

(** The left-to-right scan shared by [str.count], [str.replace] and [re.subn]
    for a pattern made of a non-empty literal followed by a lookahead.  A match
    at the current position emits [new] and skips the literal; [skip] counts
    the characters of a matched literal still to be passed over.  The result is
    the rewritten text and the number of matches. *)
Fixpoint scan (old : text) (ahead : text -> bool) (new : text)
    (skip : nat) (t : text) : text * Z :=
  match t with
  | [] => ([], 0)
  | c :: r =>
    match skip with
    | S k => scan old ahead new k r
    | O =>
      if startswith t old && ahead (skipn (length old) t)
      then let '(o, n) := scan old ahead new (length old - 1) r in
           (new ++ o, n + 1)
      else let '(o, n) := scan old ahead new 0 r in (c :: o, n)
    end
  end.

Definition always (_ : text) : bool := true.

(** [t.count(old)]: non-overlapping occurrences; the empty string occurs
    between all characters and at both ends. *)
Definition count (t old : text) : Z :=
  match old with
  | [] => Z.of_nat (length t) + 1
  | _ => snd (scan old always [] 0 t)
  end.

(** [t.replace(old, new)]. *)
Definition replace (t old new : text) : text :=
  match old with
  | [] => new ++ flat_map (fun c => c :: new) t
  | _ => fst (scan old always new 0 t)
  end.

(** [t.rstrip()]: trailing whitespace removed. *)
Fixpoint rstrip (t : text) : text :=
  match t with
  | [] => []
  | c :: r =>
    match rstrip r with
    | [] => if isspace c then [] else [c]
    | r' => c :: r'
    end
  end.

(** Puts a character in front of the first line of a list of lines; it opens
    a line where there is none. *)
Definition cons_line (c : char) (ls : list text) : list text :=
  match ls with
  | [] => [[c]]
  | l :: ls' => (c :: l) :: ls'
  end.

(** [t.splitlines()]: the lines without their terminators; CR LF is one
    terminator, and a terminator at the very end opens no further line. *)
Fixpoint splitlines (t : text) : list text :=
  match t with
  | [] => []
  | c :: r =>
    if c =? 0x0D then
      match r with
      | c' :: r' => if c' =? 0x0A then [] :: splitlines r' else [] :: splitlines r
      | [] => [[]]
      end
    else if islinebreak c then [] :: splitlines r
    else cons_line c (splitlines r)
  end.

(** [sep.join(lines)]. *)
Fixpoint join (sep : text) (ls : list text) : text :=
  match ls with
  | [] => []
  | [l] => l
  | l :: ls' => l ++ sep ++ join sep ls'
  end.

(** [hex(n)]: lower-case digits after [0x], a minus sign in front of it. *)
Definition hexdigit (d : Z) : char :=
  if d <? 10 then 0x30 + d else 0x61 + (d - 10).

Fixpoint hexdigits (fuel : nat) (n : Z) (acc : text) : text :=
  match fuel with
  | O => acc
  | S f =>
    let acc' := hexdigit (n mod 16) :: acc in
    if n <? 16 then acc' else hexdigits f (n / 16) acc'
  end.

Definition hex (n : Z) : text :=
  let m := Z.abs n in
  (if n <? 0 then str "-" else []) ++ str "0x"
  ++ hexdigits (S (Z.to_nat (Z.log2 m))) m [].

(** [str.isprintable] on one code point, decided for the Latin-1 range, where
    the controls, the no-break space and the soft hyphen are not printable;
    code points above it are taken as printable, which is what CPython answers
    for every character of the tables of the program. *)
Definition isprintable (c : char) : bool :=
  negb ((c <? 0x20) || ((0x7F <=? c) && (c <=? 0xA0)) || (c =? 0xAD)).

Definition repr_char (quote : char) (c : char) : text :=
  if (c =? quote) || (c =? 0x5C) then [0x5C; c]
  else if c =? 0x09 then str "\t"
  else if c =? 0x0A then str "\n"
  else if c =? 0x0D then str "\r"
  else if isprintable c then [c]
  else str "\x" ++ [hexdigit (c / 16); hexdigit (c mod 16)].

(** [repr(s)], the [!r] conversion of an f-string: single quotes, unless the
    string holds a single quote and no double quote. *)
Definition repr (s : text) : text :=
  let quote :=
    if existsb (Z.eqb 0x27) s && negb (existsb (Z.eqb 0x22) s)
    then 0x22 else 0x27 in
  quote :: flat_map (repr_char quote) s ++ [quote].

(** A [dict] in insertion order; [d[k] = v] overwrites in place or appends. *)
Definition dict := list (text * Z).

Fixpoint setitem (d : dict) (k : text) (v : Z) : dict :=
  match d with
  | [] => [(k, v)]
  | (k', v') :: d' =>
    if text_eqb k' k then (k', v) :: d' else (k', v') :: setitem d' k v
  end.

(** [d.get(k)]. *)
Fixpoint getitem (d : dict) (k : text) : option Z :=
  match d with
  | [] => None
  | (k', v) :: d' => if text_eqb k' k then Some v else getitem d' k
  end.

End Py.

(** ** The rule tables *)

Definition a_circ : char := 0xE2.     (* â *)
Definition euro : char := 0x20AC.     (* € *)
Definition A_circ : char := 0xC2.     (* Â *)
Definition dquote : char := 0x22.     (* the ASCII quotation mark *)
Definition LF : char := 0x0A.
Definition CR : char := 0x0D.

(** [MOJIBAKE_REMAP], in the order of the dictionary literal. *)
Definition MOJIBAKE_REMAP : list (text * text) :=
  [ ([a_circ; euro; 0x2122], str "'");
    ([a_circ; euro; 0x02DC], str "'");
    ([a_circ; euro; 0x0153], [dquote]);
    ([a_circ; euro; 0x009D], [dquote]);
    ([a_circ; euro; 0x201C], str "-");
    ([a_circ; euro; 0x201D], str "-");
    ([a_circ; euro; 0x00A6], str "...") ].

(** [SPACE_SUBS]; the keys are one-character strings, kept as code points. *)
Definition SPACE_SUBS : list (char * text) :=
  [ (0x00A0, str " "); (0x202F, str " "); (0x2007, str " ");
    (0x2008, str " "); (0x2009, str " "); (0x200A, str " ") ].

(** [REMOVE_CHARS], one-character strings kept as code points. *)
Definition REMOVE_CHARS : list char := [0x200B; 0x200C; 0x200D; 0xFEFF].

(** ** The two regular expressions of [sanitize] *)

(** The character class of the truncated-quote pattern:
    [)], [\]], [\}], the two ASCII quotes, [»] and [.,!?;:]. *)
Definition closing_class : list char :=
  [0x29; 0x5D; 0x7D; 0x22; 0x27; 0xBB; 0x2E; 0x2C; 0x21; 0x3F; 0x3B; 0x3A].

(** The lookahead of the truncated-quote pattern: [$] (the end of the text, or
    just before a newline that ends it), [\s], or the class. *)
Definition ahead_closing (rest : text) : bool :=
  match rest with
  | [] => true
  | c :: rest' =>
    ((c =? LF) && match rest' with [] => true | _ => false end)
    || Py.isspace c || existsb (Z.eqb c) closing_class
  end.

(** The lookahead [(?=\s)] of the stray-marker pattern. *)
Definition ahead_space (rest : text) : bool :=
  match rest with
  | [] => false
  | c :: _ => Py.isspace c
  end.

(** [re.subn] of the truncated-quote pattern: new text and number of
    substitutions. *)
Definition subn_truncated (t : text) : text * Z :=
  Py.scan [a_circ; euro] ahead_closing [dquote] 0 t.

(** [re.sub] of the stray-marker pattern with the empty replacement. *)
Definition sub_stray (t : text) : text :=
  fst (Py.scan [A_circ] ahead_space [] 0 t).

(** ** [sanitize] *)

Definition label_replaced (ch : char) : text := str "replaced " ++ Py.hex ch.
Definition label_removed (ch : char) : text := str "removed " ++ Py.hex ch.
Definition label_mojibake (bad good : text) : text :=
  str "mojibake " ++ Py.repr bad ++ str " -> " ++ Py.repr good.
Definition label_truncated : text :=
  str "mojibake truncated right dbl quote " ++ [a_circ; euro] ++ str " -> "
  ++ [dquote].
Definition label_stray : text :=
  str "removed stray " ++ [A_circ] ++ str " (U+00C2) before space".

(** The state threaded through the function: the local [text] and the
    dictionary [counts]. *)
Definition state := (text * Py.dict)%type.

(** Body of the loop over [SPACE_SUBS.items()]. *)
Definition space_step (st : state) (item : char * text) : state :=
  let '(txt, counts) := st in
  let '(ch, rep) := item in
  let n := Py.count txt [ch] in
  if n =? 0 then st
  else (Py.replace txt [ch] rep, Py.setitem counts (label_replaced ch) n).

(** Body of the loop over [REMOVE_CHARS]. *)
Definition remove_step (st : state) (ch : char) : state :=
  let '(txt, counts) := st in
  let n := Py.count txt [ch] in
  if n =? 0 then st
  else (Py.replace txt [ch] [], Py.setitem counts (label_removed ch) n).

(** Body of the loop over [MOJIBAKE_REMAP.items()]. *)
Definition mojibake_step (st : state) (item : text * text) : state :=
  let '(txt, counts) := st in
  let '(bad, good) := item in
  let n := Py.count txt bad in
  if n =? 0 then st
  else (Py.replace txt bad good,
        Py.setitem counts (label_mojibake bad good) n).

(** The truncated right double quote repair. *)
Definition truncated_step (st : state) : state :=
  let '(txt, counts) := st in
  let '(new_text, nfix) := subn_truncated txt in
  if nfix =? 0 then st
  else (new_text, Py.setitem counts label_truncated nfix).

(** The stray marker removal, counted by the difference of the lengths. *)
Definition stray_step (st : state) : state :=
  let '(before, counts) := st in
  let txt := sub_stray before in
  let n := Z.of_nat (length before) - Z.of_nat (length txt) in
  if n =? 0 then (txt, counts)
  else (txt, Py.setitem counts label_stray n).

(** The last two statements before [return]: line endings and trailing
    spaces.  Nothing is written to [counts]. *)
Definition normalize_lines (txt : text) : text :=
  let lines := map Py.rstrip (Py.splitlines txt) in
  Py.join [LF] lines ++ (if Py.endswith_any txt [LF; CR] then [LF] else []).

(** The state before the line normalization. *)
Definition repaired (txt : text) : state :=
  let st := fold_left space_step SPACE_SUBS (txt, []) in
  let st := fold_left remove_step REMOVE_CHARS st in
  let st := fold_left mojibake_step MOJIBAKE_REMAP st in
  let st := truncated_step st in
  stray_step st.

Definition sanitize (txt : text) : text * Py.dict :=
  let '(txt', counts) := repaired txt in
  (normalize_lines txt', counts).

(** ** Decoding *)

Inductive exn : Type :=
| UnicodeDecodeError
| LookupError.

(** What a call does: it returns a value or raises. *)
Inductive outcome (A : Type) : Type :=
| Returned (a : A)
| Raised (e : exn).
Arguments Returned {A} a.
Arguments Raised {A} e.

Definition omap {A B : Type} (f : A -> B) (o : outcome A) : outcome B :=
  match o with
  | Returned a => Returned (f a)
  | Raised e => Raised e
  end.

(** The [errors] argument of [bytes.decode]. *)
Inductive errors : Type := strict | replace.

Definition REPLACEMENT : char := 0xFFFD.

(** An undecodable stretch: an exception under [strict], U+FFFD in front of the
    decoding of what follows under [replace]. *)
Definition undecodable (e : errors) (rest : outcome text) : outcome text :=
  match e with
  | strict => Raised UnicodeDecodeError
  | replace => omap (cons REPLACEMENT) rest
  end.

Definition bytes := list byte.
Definition ord_byte (b : byte) : Z := Z.of_N (Byte.to_N b).

Module Codec.

Definition is_cont (b : Z) : bool := (0x80 <=? b) && (b <=? 0xBF).
Definition low6 (b : Z) : Z := Z.land b 0x3F.

(** Range of the second byte of a three-byte sequence: no overlong form and
    no surrogate. *)
Definition second_of_3 (b0 b1 : Z) : bool :=
  if b0 =? 0xE0 then (0xA0 <=? b1) && (b1 <=? 0xBF)
  else if b0 =? 0xED then (0x80 <=? b1) && (b1 <=? 0x9F)
  else is_cont b1.

(** Range of the second byte of a four-byte sequence: no overlong form and
    nothing above U+10FFFF. *)
Definition second_of_4 (b0 b1 : Z) : bool :=
  if b0 =? 0xF0 then (0x90 <=? b1) && (b1 <=? 0xBF)
  else if b0 =? 0xF4 then (0x80 <=? b1) && (b1 <=? 0x8F)
  else is_cont b1.

(** The UTF-8 decoder.  An ill-formed sequence is undecodable up to the first
    byte that cannot continue it (one U+FFFD for that stretch under
    [replace]); a sequence cut by the end of the data is undecodable to the
    end. *)
Fixpoint utf_8 (e : errors) (data : list Z) : outcome text :=
  match data with
  | [] => Returned []
  | b0 :: r0 =>
    if b0 <? 0x80 then omap (cons b0) (utf_8 e r0)
    else if (0xC2 <=? b0) && (b0 <=? 0xDF) then
      match r0 with
      | [] => undecodable e (Returned [])
      | b1 :: r1 =>
        if is_cont b1
        then omap (cons (Z.lor (Z.shiftl (Z.land b0 0x1F) 6) (low6 b1)))
                  (utf_8 e r1)
        else undecodable e (utf_8 e r0)
      end
    else if (0xE0 <=? b0) && (b0 <=? 0xEF) then
      match r0 with
      | [] => undecodable e (Returned [])
      | b1 :: r1 =>
        if second_of_3 b0 b1 then
          match r1 with
          | [] => undecodable e (Returned [])
          | b2 :: r2 =>
            if is_cont b2
            then omap (cons (Z.lor (Z.shiftl (Z.land b0 0x0F) 12)
                               (Z.lor (Z.shiftl (low6 b1) 6) (low6 b2))))
                      (utf_8 e r2)
            else undecodable e (utf_8 e r1)
          end
        else undecodable e (utf_8 e r0)
      end
    else if (0xF0 <=? b0) && (b0 <=? 0xF4) then
      match r0 with
      | [] => undecodable e (Returned [])
      | b1 :: r1 =>
        if second_of_4 b0 b1 then
          match r1 with
          | [] => undecodable e (Returned [])
          | b2 :: r2 =>
            if is_cont b2 then
              match r2 with
              | [] => undecodable e (Returned [])
              | b3 :: r3 =>
                if is_cont b3
                then omap (cons (Z.lor (Z.shiftl (Z.land b0 0x07) 18)
                                   (Z.lor (Z.shiftl (low6 b1) 12)
                                      (Z.lor (Z.shiftl (low6 b2) 6)
                                         (low6 b3)))))
                          (utf_8 e r3)
                else undecodable e (utf_8 e r2)
              end
            else undecodable e (utf_8 e r1)
          end
        else undecodable e (utf_8 e r0)
      end
    else undecodable e (utf_8 e r0)
  end.

(** [utf-8-sig]: a leading EF BB BF is dropped, the rest is UTF-8. *)
Definition utf_8_sig (e : errors) (data : list Z) : outcome text :=
  match data with
  | 0xEF :: 0xBB :: 0xBF :: r => utf_8 e r
  | _ => utf_8 e data
  end.

(** The upper control range of Windows-1252; five bytes are unassigned. *)
Definition cp1252_high : list (Z * char) :=
  [ (0x80, 0x20AC); (0x82, 0x201A); (0x83, 0x0192); (0x84, 0x201E);
    (0x85, 0x2026); (0x86, 0x2020); (0x87, 0x2021); (0x88, 0x02C6);
    (0x89, 0x2030); (0x8A, 0x0160); (0x8B, 0x2039); (0x8C, 0x0152);
    (0x8E, 0x017D); (0x91, 0x2018); (0x92, 0x2019); (0x93, 0x201C);
    (0x94, 0x201D); (0x95, 0x2022); (0x96, 0x2013); (0x97, 0x2014);
    (0x98, 0x02DC); (0x99, 0x2122); (0x9A, 0x0161); (0x9B, 0x203A);
    (0x9C, 0x0153); (0x9E, 0x017E); (0x9F, 0x0178) ].

Fixpoint table_get (tbl : list (Z * char)) (b : Z) : option char :=
  match tbl with
  | [] => None
  | (k, v) :: tbl' => if k =? b then Some v else table_get tbl' b
  end.

Fixpoint cp1252 (e : errors) (data : list Z) : outcome text :=
  match data with
  | [] => Returned []
  | b :: r =>
    if (0x80 <=? b) && (b <=? 0x9F) then
      match table_get cp1252_high b with
      | Some c => omap (cons c) (cp1252 e r)
      | None => undecodable e (cp1252 e r)
      end
    else omap (cons b) (cp1252 e r)
  end.

(** Latin-1: every byte is the code point of the same value. *)
Definition latin_1 (e : errors) (data : list Z) : outcome text :=
  Returned data.

End Codec.

(** [data.decode(encoding, errors)] for the codec names of the program; another
    name finds no codec. *)
Definition decode (data : bytes) (encoding : string) (e : errors)
  : outcome text :=
  let raw := map ord_byte data in
  if String.eqb encoding "utf-8-sig" then Codec.utf_8_sig e raw
  else if String.eqb encoding "utf-8" then Codec.utf_8 e raw
  else if String.eqb encoding "cp1252" then Codec.cp1252 e raw
  else if String.eqb encoding "latin-1" then Codec.latin_1 e raw
  else Raised LookupError.

(** The [for] loop of [try_decode]: the first candidate that decodes returns;
    [UnicodeDecodeError] moves on to the next one, any other exception leaves
    the function; [otherwise] is the statement after the loop. *)
Fixpoint try_each (data : bytes) (candidates : list string)
    (otherwise : outcome (text * string)) : outcome (text * string) :=
  match candidates with
  | [] => otherwise
  | enc :: candidates' =>
    match decode data enc strict with
    | Returned t => Returned (t, enc)
    | Raised UnicodeDecodeError => try_each data candidates' otherwise
    | Raised e => Raised e
    end
  end.

Definition candidates : list string :=
  ["utf-8-sig"; "utf-8"; "cp1252"; "latin-1"]%string.

Definition lossy (data : bytes) : outcome (text * string) :=
  omap (fun t => (t, "utf-8(replace)"%string)) (decode data "utf-8" replace).

Definition try_decode (data : bytes) : outcome (text * string) :=
  try_each data candidates (lossy data).

(** ** Vocabulary of the properties *)

(** [sub in t]. *)
Fixpoint contains (t sub : text) : bool :=
  Py.startswith t sub
  || match t with
     | [] => false
     | _ :: r => contains r sub
     end.

(** Some position of [t] matches the literal [old] followed by [ahead]. *)
Fixpoint found (old : text) (ahead : text -> bool) (t : text) : bool :=
  (Py.startswith t old && ahead (skipn (length old) t))
  || match t with
     | [] => false
     | _ :: r => found old ahead r
     end.

(** The characters of the two single-character tables. *)
Definition exotic_space (c : char) : bool :=
  existsb (Z.eqb c) (map fst SPACE_SUBS).
Definition invisible (c : char) : bool := existsb (Z.eqb c) REMOVE_CHARS.

(** A key of [MOJIBAKE_REMAP] occurs in the text. *)
Definition has_mojibake (t : text) : bool :=
  existsb (fun item => contains t (fst item)) MOJIBAKE_REMAP.

(** The truncated-quote pattern matches somewhere in the text. *)
Definition has_truncated (t : text) : bool :=
  found [a_circ; euro] ahead_closing t.

(** The stray-marker pattern matches somewhere in the text. *)
Definition has_stray (t : text) : bool := found [A_circ] ahead_space t.

(** None of the targets of the four repair stages occurs in the text. *)
Definition clean (t : text) : bool :=
  forallb (fun c => negb (exotic_space c) && negb (invisible c)) t
  && negb (has_mojibake t) && negb (has_truncated t) && negb (has_stray t).

(** The text component of [repaired]: the same passes with the counting left
    out (a pass that counts nothing rewrites nothing). *)
Definition spaces_text (t : text) : text :=
  fold_left (fun t item => Py.replace t [fst item] (snd item)) SPACE_SUBS t.
Definition removed_text (t : text) : text :=
  fold_left (fun t ch => Py.replace t [ch] []) REMOVE_CHARS t.
Definition mojibake_text (t : text) : text :=
  fold_left (fun t item => Py.replace t (fst item) (snd item)) MOJIBAKE_REMAP t.
Definition repaired_text (t : text) : text :=
  sub_stray (fst (subn_truncated (mojibake_text (removed_text (spaces_text t))))).

(** The replacement texts of the mojibake table are ASCII punctuation:
    the apostrophe, the quotation mark, the hyphen and the full stop. *)
Definition punctuation (x : char) : Prop :=
  x = 0x27 \/ x = 0x22 \/ x = 0x2D \/ x = 0x2E.

(** A line: a text without line breaks. *)
Definition nobreak (l : text) : Prop :=
  Forall (fun c => Py.islinebreak c = false) l.

(** A line as the line stage leaves it: no line break, no trailing space. *)
Definition stripped_line (l : text) : Prop := nobreak l /\ Py.rstrip l = l.

(** The text made of the given lines, a newline between two of them, and a
    newline at the end on demand. *)
Definition render (ls : list text) (final : bool) : text :=
  Py.join [LF] ls ++ (if final then [LF] else []).

(** The characters the keys of [MOJIBAKE_REMAP] are made of. *)
Definition mojibake_char (c : char) : bool :=
  existsb (fun item => existsb (Z.eqb c) (fst item)) MOJIBAKE_REMAP.

(** A window over a set [wc] of characters: a non-empty text made of them. *)
Definition window (wc : char -> bool) (w : text) : Prop :=
  w <> [] /\ Forall (fun c => wc c = true) w.

(** A line-ending sequence, as [str.splitlines] recognises them. *)
Inductive terminator : text -> Prop :=
| term_crlf : terminator [CR; LF]
| term_break c : Py.islinebreak c = true -> terminator [c].

(** [lines_of t ls]: the text [t] read as the lines [ls], each followed by a
    line-ending sequence, except that the last line may run to the end of the
    text.  A CR directly in front of a LF is not a line ending of its own. *)
Inductive lines_of : text -> list text -> Prop :=
| lines_none : lines_of [] []
| lines_open l : l <> [] -> nobreak l -> lines_of l [l]
| lines_closed l tm rest ls :
    nobreak l -> terminator tm ->
    (tm = [CR] -> forall r, rest <> LF :: r) ->
    lines_of rest ls ->
    lines_of (l ++ tm ++ rest) (l :: ls).

(** The text ends with a line-ending sequence. *)
Definition ends_with_terminator (t : text) : bool :=
  match rev t with
  | [] => false
  | c :: _ => Py.islinebreak c
  end.

(** The stray-marker rule in the words of the specification: a marker is
    deleted when the next character is a whitespace character, and everything
    else stays where it is. *)
Fixpoint spec_drop_stray (t : text) : text :=
  match t with
  | [] => []
  | c :: r =>
    if (c =? A_circ) && ahead_space r then spec_drop_stray r
    else c :: spec_drop_stray r
  end.

(** The number of markers in front of a whitespace character. *)
Fixpoint spec_stray_count (t : text) : Z :=
  match t with
  | [] => 0
  | c :: r =>
    (if (c =? A_circ) && ahead_space r then 1 else 0) + spec_stray_count r
  end.

(** The text that reaches the truncated-quote repair, and the text that
    reaches the stray-marker removal. *)
Definition before_truncated (t : text) : text :=
  mojibake_text (removed_text (spaces_text t)).
Definition before_stray (t : text) : text :=
  fst (subn_truncated (before_truncated t)).

(** The number of places where the truncated-quote pattern matches. *)
Fixpoint spec_truncated_count (t : text) : Z :=
  match t with
  | [] => 0
  | _ :: r =>
    (if Py.startswith t [a_circ; euro] && ahead_closing (skipn 2 t)
     then 1 else 0) + spec_truncated_count r
  end.

(** A change log in good order: no label twice, every count at least one. *)
Definition log_wf (d : Py.dict) : Prop :=
  NoDup (map fst d) /\ Forall (fun kv => 1 <= snd kv) d.

(** The five bytes to which Windows-1252 assigns no character. *)
Definition cp1252_unassigned (b : Z) : bool :=
  existsb (Z.eqb b) [0x81; 0x8D; 0x8F; 0x90; 0x9D].

(** The character of a byte in Windows-1252 (the byte itself outside the
    range of the table). *)
Definition cp1252_char (b : Z) : char :=
  match Codec.table_get Codec.cp1252_high b with
  | Some c => c
  | None => b
  end.

(** The UTF-8 signature. *)
Definition BOM : bytes := [xef; xbb; xbf].

(** ** Writing the result: [str.encode], [pathlib] and [process_file] *)

(** A Unicode scalar value: a code point that is no surrogate. *)
Definition is_scalar (c : char) : bool :=
  (0 <=? c) && (c <=? 0x10FFFF) && negb ((0xD800 <=? c) && (c <=? 0xDFFF)).

(** The exceptions that [process_file] itself can raise; an exception raised
    by the operating system inside a read, a write or a print is an ending of
    the run (see [exec]). *)
Inductive error : Type :=
| ValueError
| UnicodeEncodeError
| Uncaught (e : exn).

Inductive result (A : Type) : Type :=
| Ok (a : A)
| Err (e : error).
Arguments Ok {A} a.
Arguments Err {A} e.

Definition byte_of (b : Z) : byte :=
  match Byte.of_N (Z.to_N b) with
  | Some x => x
  | None => x00
  end.

(** The UTF-8 form of one code point (CPython's [utf8_encoder]).  A surrogate
    has none under [strict]; a value outside 0..0x10FFFF is no character of a
    [str] and is given none either. *)
Definition utf_8_char (c : char) : option (list Z) :=
  if c <? 0 then None
  else if c <? 0x80 then Some [c]
  else if c <? 0x800 then
    Some [Z.lor 0xC0 (Z.shiftr c 6); Z.lor 0x80 (Z.land c 0x3F)]
  else if (0xD800 <=? c) && (c <=? 0xDFFF) then None
  else if c <? 0x10000 then
    Some [Z.lor 0xE0 (Z.shiftr c 12);
          Z.lor 0x80 (Z.land (Z.shiftr c 6) 0x3F);
          Z.lor 0x80 (Z.land c 0x3F)]
  else if c <=? 0x10FFFF then
    Some [Z.lor 0xF0 (Z.shiftr c 18);
          Z.lor 0x80 (Z.land (Z.shiftr c 12) 0x3F);
          Z.lor 0x80 (Z.land (Z.shiftr c 6) 0x3F);
          Z.lor 0x80 (Z.land c 0x3F)]
  else None.

Fixpoint utf_8_encode (t : text) : result (list Z) :=
  match t with
  | [] => Ok []
  | c :: r =>
    match utf_8_char c with
    | None => Err UnicodeEncodeError
    | Some bs =>
      match utf_8_encode r with
      | Ok rest => Ok (bs ++ rest)
      | Err e => Err e
      end
    end
  end.

(** [text.encode(encoding)] for the two codec names of [process_file];
    [utf-8-sig] writes the signature first. *)
Definition encode (t : text) (encoding : string) : result bytes :=
  if String.eqb encoding "utf-8-sig" then
    match utf_8_encode t with
    | Ok bs => Ok (map byte_of ([0xEF; 0xBB; 0xBF] ++ bs))
    | Err e => Err e
    end
  else if String.eqb encoding "utf-8" then
    match utf_8_encode t with
    | Ok bs => Ok (map byte_of bs)
    | Err e => Err e
    end
  else Err (Uncaught LookupError).

(** *** [pathlib] (as of CPython 3.12)

    A pure path is its parsed parts: drive, root and the list of the
    components after them; the flavour gives the separators. *)
Record Flavour : Type := { sep : char; altsep : option char }.

Definition posixpath : Flavour := {| sep := 0x2F; altsep := None |}.
Definition ntpath : Flavour := {| sep := 0x5C; altsep := Some 0x2F |}.

Record Path : Type :=
  { flavour : Flavour; drive : text; root : text; tail : list text }.

(** [path.name]: the last component, or the empty string. *)
Definition name (p : Path) : text := last (tail p) [].

(** [s.rfind(c)] for a single character: the last index, or -1. *)
Fixpoint rfind (s : text) (c : char) : Z :=
  match s with
  | [] => -1
  | x :: r =>
    let i := rfind r c in
    if 0 <=? i then i + 1 else if x =? c then 0 else -1
  end.

(** [path.suffix]: the name from its last dot on, unless that dot is the
    first or the last character of the name. *)
Definition suffix (p : Path) : text :=
  let i := rfind (name p) 0x2E in
  if (0 <? i) && (i <? Z.of_nat (length (name p)) - 1)
  then skipn (Z.to_nat i) (name p)
  else [].

(** [c in s] for a single character. *)
Definition char_in (c : char) (s : text) : bool := existsb (Z.eqb c) s.

(** [path.with_suffix(suffix)]. *)
Definition with_suffix (p : Path) (new : text) : result Path :=
  let f := flavour p in
  if char_in (sep f) new
     || match altsep f with Some a => char_in a new | None => false end
  then Err ValueError
  else if (negb (text_eqb new []) && negb (Py.startswith new [0x2E]))
          || text_eqb new [0x2E]
  then Err ValueError
  else
    match name p with
    | [] => Err ValueError
    | _ :: _ =>
      let old_suffix := suffix p in
      let name' :=
        match old_suffix with
        | [] => name p ++ new
        | _ :: _ =>
          firstn (length (name p) - length old_suffix) (name p) ++ new
        end in
      Ok {| flavour := f; drive := drive p; root := root p;
            tail := removelast (tail p) ++ [name'] |}
    end.

(** *** Input and output

    A program that reads and writes files and prints is a tree of its calls:
    what it does next depends on what a read returned. *)
Inductive fpart : Type :=
| Lit (s : text)          (* literal text, or a [str] value *)
| Of_path (p : Path)      (* [{path}]: [str(path)] *)
| Of_int (n : Z).         (* [{v}]: [str(v)] *)

(** A formatted line, kept as the parts of its f-string. *)
Definition fstring := list fpart.

Inductive io (A : Type) : Type :=
| Return (a : A)
| Raise (e : error)
| read_bytes (p : Path) (k : bytes -> io A)
| write_bytes (p : Path) (data : bytes) (k : io A)
| print (line : fstring) (k : io A).
Arguments Return {A} a.
Arguments Raise {A} e.
Arguments read_bytes {A} p k.
Arguments write_bytes {A} p data k.
Arguments print {A} line k.

Fixpoint bind {A B : Type} (m : io A) (f : A -> io B) : io B :=
  match m with
  | Return a => f a
  | Raise e => Raise e
  | read_bytes p k => read_bytes p (fun data => bind (k data) f)
  | write_bytes p data k => write_bytes p data (bind k f)
  | print line k => print line (bind k f)
  end.

Notation "x <- m ;; k" := (bind m (fun x => k))
  (at level 61, m at next level, right associativity).
Notation "m ;;; k" := (bind m (fun _ => k))
  (at level 61, right associativity).

Definition lift {A : Type} (r : result A) : io A :=
  match r with
  | Ok a => Return a
  | Err e => Raise e
  end.

Definition lift_outcome {A : Type} (o : outcome A) : io A :=
  match o with
  | Returned a => Return a
  | Raised e => Raise (Uncaught e)
  end.

Definition write (p : Path) (data : bytes) : io unit :=
  write_bytes p data (Return tt).
Definition say (line : fstring) : io unit := print line (Return tt).
Definition when (b : bool) (m : io unit) : io unit :=
  if b then m else Return tt.

(** [", ".join(f"{k}: {v}" for k, v in counts.items())], as f-string parts. *)
Fixpoint stats_items (counts : Py.dict) : fstring :=
  match counts with
  | [] => []
  | [(k, v)] => [Lit k; Lit (str ": "); Of_int v]
  | (k, v) :: rest =>
    [Lit k; Lit (str ": "); Of_int v; Lit (str ", ")] ++ stats_items rest
  end.

(** [... or "changes made"]: the joined string is empty exactly when there is
    no item. *)
Definition stats_of (counts : Py.dict) : fstring :=
  match counts with
  | [] => [Lit (str "changes made")]
  | _ :: _ => stats_items counts
  end.

Definition check_mark : char := 0x2713.
Definition em_dash : char := 0x2014.
Definition bullet : char := 0x2022.

Definition process_file (path : Path) (in_place backup bom quiet : bool)
  : io bool :=
  read_bytes path (fun data =>
  decoded <- lift_outcome (try_decode data) ;;
  let '(original_text, used_enc) := decoded in
  let '(cleaned_text, counts) := sanitize original_text in
  let changed := negb (text_eqb cleaned_text original_text) in
  if negb changed then
    when (negb quiet)
      (say [Lit ([check_mark] ++ str " "); Of_path path;
            Lit (str " (clean) " ++ [em_dash] ++ str " no changes needed [");
            Lit (str used_enc); Lit (str "]")]) ;;;
    Return false
  else
    out_path <-
      (if in_place then
         when backup
           (bak <- lift (with_suffix path (suffix path ++ str ".bak")) ;;
            write bak data) ;;;
         Return path
       else lift (with_suffix path (str ".clean.srt"))) ;;
    let encoding := if bom then "utf-8-sig"%string else "utf-8"%string in
    encoded <- lift (encode cleaned_text encoding) ;;
    write out_path encoded ;;;
    when (negb quiet)
      (let stats := stats_of counts in
       let mode := if in_place then str "overwrote" else str "wrote" in
       say ([Lit ([bullet] ++ str " "); Lit mode; Lit (str " ");
             Of_path out_path; Lit (str " ["); Lit (str encoding);
             Lit (str "] " ++ [em_dash] ++ str " ")] ++ stats)) ;;;
    Return true).

(** What a run did, in order: the calls that went through and, last, a call
    in which the operating system raised. *)
Inductive event : Type :=
| Read (p : Path) (data : bytes)
| Wrote (p : Path) (data : bytes)
| Printed (line : fstring)
| Failed_read (p : Path)
| Failed_write (p : Path) (data : bytes)
| Failed_print (line : fstring).

(** How a run ends: the function returns, raises an exception of its own, or
    is left by an exception that the operating system raised in a call. *)
Inductive ending (A : Type) : Type :=
| Returns (a : A)
| Raises (e : error)
| Aborted.
Arguments Returns {A} a.
Arguments Raises {A} e.
Arguments Aborted {A}.

(** The runs of a program: every read returns some data or fails, every
    write and every print goes through or fails. *)
Inductive exec {A : Type} : io A -> list event -> ending A -> Prop :=
| exec_Return a : exec (Return a) [] (Returns a)
| exec_Raise e : exec (Raise e) [] (Raises e)
| exec_read p k data tr r :
    exec (k data) tr r -> exec (read_bytes p k) (Read p data :: tr) r
| exec_read_fails p k : exec (read_bytes p k) [Failed_read p] Aborted
| exec_write p data k tr r :
    exec k tr r -> exec (write_bytes p data k) (Wrote p data :: tr) r
| exec_write_fails p data k :
    exec (write_bytes p data k) [Failed_write p data] Aborted
| exec_print line k tr r :
    exec k tr r -> exec (print line k) (Printed line :: tr) r
| exec_print_fails line k : exec (print line k) [Failed_print line] Aborted.

(** The calls of [write_bytes] in a run, whether they went through or not. *)
Fixpoint writes (tr : list event) : list (Path * bytes) :=
  match tr with
  | [] => []
  | Wrote p data :: tr' => (p, data) :: writes tr'
  | Failed_write p data :: tr' => (p, data) :: writes tr'
  | _ :: tr' => writes tr'
  end.

(** A call returns a text of scalar values, if it returns. *)
Definition all_scalar (o : outcome text) : Prop :=
  match o with
  | Returned t => Forall (fun c => is_scalar c = true) t
  | Raised _ => True
  end.

(** ** The order of the change log *)

(** The labels that [sanitize] can write, in the order of its stages. *)
Definition all_labels : list text :=
  map (fun item => label_replaced (fst item)) SPACE_SUBS
  ++ map label_removed REMOVE_CHARS
  ++ map (fun item => label_mojibake (fst item) (snd item)) MOJIBAKE_REMAP
  ++ [label_truncated; label_stray].

(** [a] is [b] with some elements left out. *)
Inductive subseq {A : Type} : list A -> list A -> Prop :=
| subseq_nil : subseq [] []
| subseq_skip x a b : subseq a b -> subseq a (x :: b)
| subseq_take x a b : subseq a b -> subseq (x :: a) (x :: b).

Fixpoint distinct (l : list text) : bool :=
  match l with
  | [] => true
  | x :: r => negb (existsb (text_eqb x) r) && distinct r
  end.

(** ** A no-break space between two words *)

(** A character that the pipeline leaves where it is, whatever follows: no
    whitespace, none of the invisible characters and not the stray marker. *)
Definition solid (c : char) : bool :=
  negb (Py.isspace c) && negb (invisible c) && negb (c =? A_circ).

(** What a solid character can become in the pipeline: still no whitespace
    and not the stray marker. *)
Definition firm (c : char) : Prop := Py.isspace c = false /\ c <> A_circ.

(** The text begins with a word: after any invisible characters and stray
    markers comes a character that is no whitespace. *)
Fixpoint word_start (s : text) : bool :=
  match s with
  | [] => false
  | c :: r =>
    if invisible c || (c =? A_circ) then word_start r
    else negb (Py.isspace c)
  end.

(** * Properties *)

(** ** The decoder *)

Section Decoder.

Lemma omap_not_lookup {A B : Type} (f : A -> B) (o : outcome A) :
  o <> Raised LookupError -> omap f o <> Raised LookupError.
Proof. destruct o as [a|e]; simpl; intros H; [discriminate | congruence]. Qed.

Lemma undecodable_strict (o : outcome text) :
  undecodable strict o <> Raised LookupError.
Proof. discriminate. Qed.

Ltac split_decoder :=
  repeat match goal with
  | |- context [if ?c then _ else _] => destruct c
  | |- context [match ?r with [] => _ | _ :: _ => _ end] => destruct r
  end.

(** Under [strict] the UTF-8 decoder returns or raises [UnicodeDecodeError]. *)
Lemma utf_8_strict_raises (n : nat) :
  forall data, (length data <= n)%nat ->
  Codec.utf_8 strict data <> Raised LookupError.
Proof.
  induction n as [|n IH]; intros data Hlen.
  - destruct data; [discriminate | simpl in Hlen; lia].
  - destruct data as [|b0 r0]; [discriminate|].
    cbn [Codec.utf_8]. simpl in Hlen.
    split_decoder; simpl in Hlen;
      try apply undecodable_strict;
      apply omap_not_lookup, IH; simpl; lia.
Qed.

Lemma utf_8_sig_strict_raises (data : list Z) :
  Codec.utf_8_sig strict data <> Raised LookupError.
Proof.
  unfold Codec.utf_8_sig.
  repeat match goal with
  | |- context [match ?x with _ => _ end] => destruct x
  end; eapply utf_8_strict_raises; reflexivity.
Qed.

Lemma cp1252_strict_raises (data : list Z) :
  Codec.cp1252 strict data <> Raised LookupError.
Proof.
  induction data as [|b r IH]; [discriminate|].
  cbn [Codec.cp1252].
  destruct ((0x80 <=? b) && (b <=? 0x9F)).
  - destruct (Codec.table_get Codec.cp1252_high b).
    + now apply omap_not_lookup.
    + apply undecodable_strict.
  - now apply omap_not_lookup.
Qed.

Lemma decode_utf_8_sig data e :
  decode data "utf-8-sig" e = Codec.utf_8_sig e (map ord_byte data).
Proof. reflexivity. Qed.

Lemma decode_utf_8 data e :
  decode data "utf-8" e = Codec.utf_8 e (map ord_byte data).
Proof. reflexivity. Qed.

Lemma decode_cp1252 data e :
  decode data "cp1252" e = Codec.cp1252 e (map ord_byte data).
Proof. reflexivity. Qed.

Lemma decode_latin_1 data e :
  decode data "latin-1" e = Returned (map ord_byte data).
Proof. reflexivity. Qed.

(** What one round of the loop does with each kind of outcome. *)
Lemma try_each_cons data enc rest otherwise :
  try_each data (enc :: rest) otherwise =
  match decode data enc strict with
  | Returned t => Returned (t, enc)
  | Raised UnicodeDecodeError => try_each data rest otherwise
  | Raised e => Raised e
  end.
Proof. reflexivity. Qed.

(** The loop position at which [try_decode] returns: the candidates before it
    raised [UnicodeDecodeError], the candidate itself decoded, and the
    statement after the loop was not reached. *)
Lemma try_each_candidates data :
  exists pre enc post t,
    candidates = pre ++ enc :: post
    /\ Forall (fun e => decode data e strict = Raised UnicodeDecodeError) pre
    /\ decode data enc strict = Returned t
    /\ forall otherwise,
         try_each data candidates otherwise = Returned (t, enc).
Proof.
  unfold candidates.
  destruct (decode data "utf-8-sig" strict) as [t1|e1] eqn:E1.
  { exists [], "utf-8-sig"%string, ["utf-8"; "cp1252"; "latin-1"]%string, t1.
    repeat split; auto. intros o. now rewrite try_each_cons, E1. }
  assert (e1 = UnicodeDecodeError) as ->.
  { rewrite decode_utf_8_sig in E1. destruct e1; [reflexivity|].
    now apply utf_8_sig_strict_raises in E1. }
  destruct (decode data "utf-8" strict) as [t2|e2] eqn:E2.
  { exists ["utf-8-sig"]%string, "utf-8"%string,
      ["cp1252"; "latin-1"]%string, t2.
    repeat split; auto. intros o. now rewrite !try_each_cons, E1, E2. }
  assert (e2 = UnicodeDecodeError) as ->.
  { rewrite decode_utf_8 in E2. destruct e2; [reflexivity|].
    now apply (utf_8_strict_raises _ _ (le_n _)) in E2. }
  destruct (decode data "cp1252" strict) as [t3|e3] eqn:E3.
  { exists ["utf-8-sig"; "utf-8"]%string, "cp1252"%string,
      ["latin-1"]%string, t3.
    repeat split; auto. intros o. now rewrite !try_each_cons, E1, E2, E3. }
  assert (e3 = UnicodeDecodeError) as ->.
  { rewrite decode_cp1252 in E3. destruct e3; [reflexivity|].
    now apply cp1252_strict_raises in E3. }
  exists ["utf-8-sig"; "utf-8"; "cp1252"]%string, "latin-1"%string, [],
    (map ord_byte data).
  repeat split; auto. intros o.
  now rewrite !try_each_cons, E1, E2, E3, decode_latin_1.
Qed.

(** C2.  Decoder totality: for every byte sequence, [try_decode] returns a pair
    of a text and an encoding name; no exception leaves the function. *)
Theorem try_decode_total (data : bytes) :
  exists t enc, try_decode data = Returned (t, enc).
Proof.
  destruct (try_each_candidates data) as (pre & enc & post & t & _ & _ & _ & H).
  exists t, enc. apply H.
Qed.

(** C3.  The candidates are tried in the order utf-8-sig, utf-8, cp1252,
    latin-1, the last of which decodes every byte sequence; the result is the
    decoding by the first candidate that does not raise, paired with its name;
    and the statement after the loop (the decoding with replacement
    characters, labelled [utf-8(replace)]) is never reached: whatever stands
    there, the function returns the same pair, whose label is a candidate. *)
Theorem try_decode_first_candidate (data : bytes) :
  candidates = ["utf-8-sig"; "utf-8"; "cp1252"; "latin-1"]%string
  /\ decode data "latin-1" strict = Returned (map ord_byte data)
  /\ exists pre enc post t,
       candidates = pre ++ enc :: post
       /\ Forall (fun e => decode data e strict = Raised UnicodeDecodeError)
            pre
       /\ decode data enc strict = Returned t
       /\ try_decode data = Returned (t, enc)
       /\ (forall otherwise,
             try_each data candidates otherwise = Returned (t, enc))
       /\ enc <> "utf-8(replace)"%string.
Proof.
  split; [reflexivity|]. split; [reflexivity|].
  destruct (try_each_candidates data)
    as (pre & enc & post & t & Hc & Hpre & Hdec & H).
  exists pre, enc, post, t. repeat split; auto.
  - apply H.
  - intros ->.
    assert (Hin : In "utf-8(replace)"%string candidates)
      by (rewrite Hc; apply in_or_app; right; now left).
    unfold candidates in Hin. simpl in Hin.
    repeat destruct Hin as [Hin|Hin]; try discriminate; contradiction.
Qed.

End Decoder.

(** ** Characters *)

Ltac bool_to_Z :=
  repeat rewrite ?orb_true_iff, ?andb_true_iff, ?orb_false_iff,
    ?andb_false_iff, ?negb_true_iff, ?negb_false_iff,
    ?Z.eqb_eq, ?Z.eqb_neq, ?Z.leb_le, ?Z.leb_gt, ?Z.ltb_lt, ?Z.ltb_ge in *.

Lemma islinebreak_isspace c : Py.islinebreak c = true -> Py.isspace c = true.
Proof. unfold Py.islinebreak, Py.isspace. bool_to_Z. lia. Qed.

Lemma exotic_space_isspace c : exotic_space c = true -> Py.isspace c = true.
Proof.
  unfold exotic_space, Py.isspace. simpl. bool_to_Z. lia.
Qed.

(** ** The scan *)

Section Scan.

Variables (old : text) (ahead : text -> bool) (new : text).

Local Abbreviation scan := (Py.scan old ahead new).
Local Abbreviation hit t :=
  (Py.startswith t%list old && ahead (skipn (length old) t%list)).

Lemma scan_skip k t : scan k t = scan 0 (skipn k t).
Proof.
  revert t; induction k as [|k IH]; intros [|c r]; try reflexivity.
  simpl. apply IH.
Qed.

Lemma scan_hit c r :
  hit (c :: r) = true ->
  scan 0 (c :: r) =
  (new ++ fst (scan 0 (skipn (length old - 1) r)),
   snd (scan 0 (skipn (length old - 1) r)) + 1).
Proof.
  intros H. cbn [Py.scan]. rewrite H.
  rewrite scan_skip. now destruct (scan 0 _).
Qed.

Lemma scan_miss c r :
  hit (c :: r) = false ->
  scan 0 (c :: r) = (c :: fst (scan 0 r), snd (scan 0 r)).
Proof.
  intros H. cbn [Py.scan]. rewrite H. now destruct (scan 0 r).
Qed.

(** The count does not depend on the replacement text. *)
Lemma scan_count_nonneg k t : 0 <= snd (scan k t).
Proof.
  revert k; induction t as [|c r IH]; intros k; [simpl; lia|].
  destruct k as [|k]; [|apply IH].
  destruct (hit (c :: r)) eqn:H.
  - rewrite scan_hit by assumption. simpl. rewrite <- scan_skip.
    specialize (IH (length old - 1)%nat). lia.
  - rewrite scan_miss by assumption. simpl. apply IH.
Qed.

(** Every character of the output comes from the input or from [new]. *)
Lemma scan_chars x k t : In x (fst (scan k t)) -> In x new \/ In x t.
Proof.
  revert k; induction t as [|c r IH]; intros k; [simpl; tauto|].
  destruct k as [|k].
  - destruct (hit (c :: r)) eqn:H.
    + rewrite scan_hit by assumption. simpl fst. rewrite <- scan_skip.
      intros Hin. apply in_app_or in Hin as [Hin|Hin]; [now left|].
      apply IH in Hin. simpl. tauto.
    + rewrite scan_miss by assumption. simpl.
      intros [->|Hin]; [tauto|]. apply IH in Hin. tauto.
  - intros Hin. apply IH in Hin. simpl. tauto.
Qed.

(** Where the pattern matches nowhere, nothing is counted or rewritten. *)
Lemma scan_not_found t : found old ahead t = false -> scan 0 t = (t, 0).
Proof.
  induction t as [|c r IH]; [reflexivity|].
  cbn [found]. intros H. apply orb_false_iff in H as [H1 H2].
  rewrite scan_miss by exact H1. now rewrite IH.
Qed.

End Scan.

Lemma scan_count_new old ahead new new' k t :
  snd (Py.scan old ahead new k t) = snd (Py.scan old ahead new' k t).
Proof.
  revert k; induction t as [|c r IH]; intros k; [reflexivity|].
  destruct k as [|k]; cbn [Py.scan]; [|apply IH].
  destruct (_ && _).
  - specialize (IH (length old - 1)%nat).
    destruct (Py.scan old ahead new _ r), (Py.scan old ahead new' _ r).
    simpl in *. now rewrite IH.
  - specialize (IH 0%nat).
    destruct (Py.scan old ahead new _ r), (Py.scan old ahead new' _ r).
    simpl in *. now rewrite IH.
Qed.

Section ScanCount.

Variables (old : text) (ahead : text -> bool) (new : text).
Local Abbreviation scan := (Py.scan old ahead new).

(** A scan that counts nothing found nothing and rewrote nothing. *)
Lemma scan_zero t :
  old <> [] ->
  snd (scan 0 t) = 0 -> fst (scan 0 t) = t /\ found old ahead t = false.
Proof.
  intros Hold.
  induction t as [|c r IH]; [simpl; intros _; split; [reflexivity|]|].
  - destruct old; [congruence | reflexivity].
  - destruct (Py.startswith (c :: r) old && ahead (skipn (length old) (c :: r)))
      eqn:H.
    + rewrite scan_hit by assumption. simpl.
      pose proof (scan_count_nonneg old ahead new 0
                    (skipn (length old - 1) r)). lia.
    + rewrite scan_miss by assumption. simpl. intros Hz.
      destruct (IH Hz) as [Ht Hf]. rewrite Ht. split; [reflexivity|].
      cbn [found]. rewrite Hf. now rewrite orb_false_r.
Qed.

End ScanCount.

(** ** [str.count] and [str.replace] *)

Lemma count_scan t old new :
  old <> [] -> Py.count t old = snd (Py.scan old Py.always new 0 t).
Proof.
  intros H. unfold Py.count. destruct old; [congruence|].
  apply scan_count_new.
Qed.

Lemma replace_scan t old new :
  old <> [] -> Py.replace t old new = fst (Py.scan old Py.always new 0 t).
Proof. intros H. unfold Py.replace. destruct old; [congruence | reflexivity]. Qed.

Lemma contains_found t sub : contains t sub = found sub Py.always t.
Proof.
  induction t as [|c r IH]; simpl; [now rewrite andb_true_r|].
  now rewrite IH, andb_true_r.
Qed.

(** Counting nothing, finding nothing and replacing nothing go together. *)
Lemma count_zero_replace t old new :
  old <> [] -> Py.count t old = 0 -> Py.replace t old new = t.
Proof.
  intros H Hc. rewrite (count_scan _ _ new H) in Hc.
  rewrite replace_scan by assumption. now apply scan_zero.
Qed.

Lemma not_contains_count t old :
  old <> [] -> contains t old = false -> Py.count t old = 0.
Proof.
  intros H Hc. rewrite (count_scan _ _ [] H).
  rewrite contains_found in Hc. now rewrite scan_not_found.
Qed.

Lemma count_zero_not_contains t old :
  old <> [] -> Py.count t old = 0 -> contains t old = false.
Proof.
  intros H Hc. rewrite (count_scan _ _ [] H) in Hc.
  rewrite contains_found. now apply (scan_zero old Py.always []).
Qed.

Lemma contains_char t c : contains t [c] = existsb (Z.eqb c) t.
Proof.
  induction t as [|x r IH]; [reflexivity|].
  cbn [contains Py.startswith existsb]. rewrite IH.
  now rewrite andb_true_r, Z.eqb_sym.
Qed.

Lemma not_in_contains t c : ~ In c t -> contains t [c] = false.
Proof.
  intros H. rewrite contains_char.
  destruct (existsb (Z.eqb c) t) eqn:E; [|reflexivity].
  apply existsb_exists in E as (x & Hx & Hxc).
  apply Z.eqb_eq in Hxc. now subst.
Qed.

(** Replacing a one-character string rewrites character by character. *)
Lemma replace_char t ch new :
  Py.replace t [ch] new = flat_map (fun c => if c =? ch then new else [c]) t.
Proof.
  rewrite replace_scan by discriminate.
  induction t as [|c r IH]; [reflexivity|].
  cbn [flat_map]. rewrite <- IH.
  destruct (c =? ch) eqn:E.
  - rewrite scan_hit; [reflexivity|].
    cbn [Py.startswith]. now rewrite E.
  - rewrite scan_miss; [reflexivity|].
    cbn [Py.startswith]. now rewrite E.
Qed.

Lemma replace_char_In x t ch new :
  In x (Py.replace t [ch] new) -> In x new \/ (In x t /\ x <> ch).
Proof.
  rewrite replace_char. intros H.
  apply in_flat_map in H as (c & Hc & Hx).
  destruct (Z.eqb_spec c ch) as [->|Hne]; [now left|].
  destruct Hx as [->|[]]. now right.
Qed.

Lemma replace_In x t old new :
  old <> [] -> In x (Py.replace t old new) -> In x new \/ In x t.
Proof. intros H. rewrite replace_scan by assumption. apply scan_chars. Qed.

(** ** The text computed by the repair stages *)

Lemma fold_left_fst {A : Type} (step : state -> A -> state)
    (tstep : text -> A -> text) (l : list A) :
  (forall st a, In a l -> fst (step st a) = tstep (fst st) a) ->
  forall st, fst (fold_left step l st) = fold_left tstep l (fst st).
Proof.
  induction l as [|a l IH]; intros H st; [reflexivity|].
  simpl. rewrite IH by (intros; apply H; now right).
  rewrite H by now left. reflexivity.
Qed.

Lemma space_step_text st item :
  fst (space_step st item) = Py.replace (fst st) [fst item] (snd item).
Proof.
  destruct st as [t c], item as [ch rep]. unfold space_step. cbn [fst snd].
  destruct (Py.count t [ch] =? 0) eqn:E; [|reflexivity].
  apply Z.eqb_eq in E. cbn [fst]. symmetry. now apply count_zero_replace.
Qed.

Lemma remove_step_text st ch :
  fst (remove_step st ch) = Py.replace (fst st) [ch] [].
Proof.
  destruct st as [t c]. unfold remove_step. cbn [fst snd].
  destruct (Py.count t [ch] =? 0) eqn:E; [|reflexivity].
  apply Z.eqb_eq in E. cbn [fst]. symmetry. now apply count_zero_replace.
Qed.

Lemma mojibake_keys_nonempty item : In item MOJIBAKE_REMAP -> fst item <> [].
Proof.
  unfold MOJIBAKE_REMAP. simpl.
  intros H; repeat destruct H as [<-|H]; try discriminate; contradiction.
Qed.

Lemma truncated_step_text st :
  fst (truncated_step st) = fst (subn_truncated (fst st)).
Proof.
  destruct st as [t c]. unfold truncated_step. cbn [fst].
  destruct (subn_truncated t) as [t' n] eqn:E.
  destruct (Z.eqb_spec n 0) as [->|Hn]; [|reflexivity].
  cbn [fst]. unfold subn_truncated in E.
  pose proof (scan_zero [a_circ; euro] ahead_closing [dquote] t) as H.
  rewrite E in H. simpl in H. symmetry. apply H; [discriminate | reflexivity].
Qed.

Lemma stray_step_text st : fst (stray_step st) = sub_stray (fst st).
Proof.
  destruct st as [t c]. unfold stray_step. now destruct (_ =? 0).
Qed.

Lemma mojibake_step_text st item :
  In item MOJIBAKE_REMAP ->
  fst (mojibake_step st item) = Py.replace (fst st) (fst item) (snd item).
Proof.
  intros Hin. apply mojibake_keys_nonempty in Hin.
  destruct st as [t c], item as [bad good]. unfold mojibake_step.
  cbn [fst snd] in *.
  destruct (Py.count t bad =? 0) eqn:E; [|reflexivity].
  apply Z.eqb_eq in E. cbn [fst]. symmetry. now apply count_zero_replace.
Qed.

(** The text of [repaired] is the composition of the rewriting passes. *)
Lemma repaired_fst t : fst (repaired t) = repaired_text t.
Proof.
  unfold repaired, repaired_text.
  rewrite stray_step_text, truncated_step_text.
  rewrite (fold_left_fst mojibake_step
             (fun t item => Py.replace t (fst item) (snd item)))
    by (intros; now apply mojibake_step_text).
  rewrite (fold_left_fst remove_step (fun t ch => Py.replace t [ch] []))
    by (intros; apply remove_step_text).
  rewrite (fold_left_fst space_step
             (fun t item => Py.replace t [fst item] (snd item)))
    by (intros; apply space_step_text).
  reflexivity.
Qed.

Lemma sanitize_fst t : fst (sanitize t) = normalize_lines (repaired_text t).
Proof.
  unfold sanitize. rewrite <- repaired_fst. now destruct (repaired t).
Qed.

Lemma sanitize_snd t : snd (sanitize t) = snd (repaired t).
Proof. unfold sanitize. now destruct (repaired t). Qed.

(** ** Which characters a pass can leave in the text *)

Lemma spaces_text_In x t :
  In x (spaces_text t) -> x = 0x20 \/ (In x t /\ exotic_space x = false).
Proof.
  unfold spaces_text, exotic_space, SPACE_SUBS. cbn [fold_left fst snd map].
  intros H.
  repeat match type of H with
  | In _ (Py.replace _ _ _) =>
      apply replace_char_In in H as [H|[H ?]];
      [left; simpl in H; destruct H as [<-|[]]; reflexivity|]
  end.
  right. split; [assumption|].
  cbn [existsb]. bool_to_Z. lia.
Qed.

Lemma removed_text_In x t :
  In x (removed_text t) -> In x t /\ invisible x = false.
Proof.
  unfold removed_text, invisible, REMOVE_CHARS. cbn [fold_left].
  intros H.
  repeat match type of H with
  | In _ (Py.replace _ _ _) =>
      apply replace_char_In in H as [H|[H ?]]; [destruct H|]
  end.
  split; [assumption|].
  cbn [existsb]. bool_to_Z. lia.
Qed.

Lemma mojibake_text_In x t :
  In x (mojibake_text t) -> punctuation x \/ In x t.
Proof.
  unfold mojibake_text, MOJIBAKE_REMAP. cbn [fold_left fst snd].
  intros H.
  repeat match type of H with
  | In _ (Py.replace _ _ _) =>
      apply replace_In in H as [H|H];
      [left; unfold punctuation, dquote in *; simpl in H; lia
      | | discriminate]
  end.
  now right.
Qed.

Lemma subn_truncated_In x t :
  In x (fst (subn_truncated t)) -> x = dquote \/ In x t.
Proof.
  intros H. apply scan_chars in H as [[<-|[]]|H]; auto.
Qed.

Lemma sub_stray_In x t : In x (sub_stray t) -> In x t.
Proof. intros H. apply scan_chars in H as [[]|H]. exact H. Qed.

Lemma repaired_text_In x t :
  In x (repaired_text t) ->
  (punctuation x \/ x = 0x20 \/ In x t)
  /\ exotic_space x = false /\ invisible x = false.
Proof.
  unfold repaired_text. intros H.
  apply sub_stray_In, subn_truncated_In in H.
  assert (Hp : forall y, punctuation y ->
                 exotic_space y = false /\ invisible y = false).
  { unfold punctuation, exotic_space, invisible. intros y Hy.
    simpl. bool_to_Z. lia. }
  destruct H as [->|H]; [split; [left; right; now left | apply Hp; right; now left]|].
  apply mojibake_text_In in H as [H|H]; [split; [now left | now apply Hp]|].
  apply removed_text_In in H as [H Hinv].
  apply spaces_text_In in H as [->|[H Hex]].
  - split; [right; now left|]. split; reflexivity.
  - split; [right; now right|]. now split.
Qed.

(** ** Lines: [rstrip], [splitlines] and [join] *)

Lemma list_ind2 {A : Type} (P : list A -> Prop) :
  P [] -> (forall a, P [a]) ->
  (forall a b l, P l -> P (b :: l) -> P (a :: b :: l)) ->
  forall l, P l.
Proof.
  intros H0 H1 H2 l.
  enough (P l /\ forall a, P (a :: l)) by tauto.
  induction l as [|b l [IH1 IH2]]; [split; auto|].
  split; [apply IH2|]. intros a. apply H2; auto.
Qed.

Lemma rstrip_cons c r :
  Py.rstrip (c :: r) =
  match Py.rstrip r with
  | [] => if Py.isspace c then [] else [c]
  | r' => c :: r'
  end.
Proof. reflexivity. Qed.

(** [rstrip] cuts a run of whitespace off the end. *)
Lemma rstrip_split t :
  exists ws, t = Py.rstrip t ++ ws /\ Forall (fun c => Py.isspace c = true) ws.
Proof.
  induction t as [|c r (ws & Hr & Hws)]; [now exists []|].
  rewrite rstrip_cons. destruct (Py.rstrip r) as [|x r'] eqn:E.
  - simpl in Hr. subst r. destruct (Py.isspace c) eqn:Ec.
    + exists (c :: ws). split; [reflexivity | now constructor].
    + exists ws. split; [reflexivity | assumption].
  - exists ws. split; [|assumption]. rewrite Hr at 1. reflexivity.
Qed.

Lemma rstrip_In x t : In x (Py.rstrip t) -> In x t.
Proof.
  destruct (rstrip_split t) as (ws & H & _). intros Hin.
  rewrite H. apply in_or_app. now left.
Qed.

Lemma rstrip_idem t : Py.rstrip (Py.rstrip t) = Py.rstrip t.
Proof.
  induction t as [|c r IH]; [reflexivity|].
  rewrite rstrip_cons. destruct (Py.rstrip r) as [|x r'] eqn:E.
  - destruct (Py.isspace c) eqn:Ec; [reflexivity|]. simpl. now rewrite Ec.
  - rewrite rstrip_cons, IH. reflexivity.
Qed.

(** What [rstrip] leaves does not end in whitespace. *)
Lemma rstrip_last t p c : Py.rstrip t = p ++ [c] -> Py.isspace c = false.
Proof.
  revert p; induction t as [|x r IH]; intros p.
  - destruct p; discriminate.
  - rewrite rstrip_cons. destruct (Py.rstrip r) as [|y r'] eqn:E.
    + destruct (Py.isspace x) eqn:Ex; [destruct p; discriminate|].
      destruct p as [|? [|]]; try discriminate. now intros [= <-].
    + destruct p as [|z p]; [discriminate|]. intros [= <- H]. now apply (IH p).
Qed.

(** A text that does not end in whitespace is left as it is. *)
Lemma rstrip_fixed p c : Py.isspace c = false -> Py.rstrip (p ++ [c]) = p ++ [c].
Proof.
  intros Hc. induction p as [|x p IH]; simpl; [now rewrite Hc|].
  rewrite IH. now destruct p.
Qed.

Lemma splitlines_CRLF r : Py.splitlines (CR :: LF :: r) = [] :: Py.splitlines r.
Proof. reflexivity. Qed.

Lemma splitlines_char c r :
  Py.islinebreak c = false ->
  Py.splitlines (c :: r) = Py.cons_line c (Py.splitlines r).
Proof.
  intros H. cbn [Py.splitlines].
  destruct (Z.eqb_spec c 0x0D) as [->|_]; [discriminate|]. now rewrite H.
Qed.

(** A line break that is not the CR of a CR LF ends a line by itself. *)
Lemma splitlines_break c r :
  Py.islinebreak c = true ->
  (c = CR -> forall r', r <> LF :: r') ->
  Py.splitlines (c :: r) = [] :: Py.splitlines r.
Proof.
  intros H Hcr. cbn [Py.splitlines].
  destruct (Z.eqb_spec c 0x0D) as [->|_]; [|now rewrite H].
  destruct r as [|c' r']; [reflexivity|].
  destruct (Z.eqb_spec c' 0x0A) as [->|_]; [|reflexivity].
  now destruct (Hcr eq_refl r').
Qed.

(** The three ways a non-empty text starts, as [splitlines] sees them. *)
Lemma splitlines_cases c r :
  (exists r', c = CR /\ r = LF :: r'
              /\ Py.splitlines (c :: r) = [] :: Py.splitlines r')
  \/ ((Py.islinebreak c = true /\ (c = CR -> forall r', r <> LF :: r'))
      /\ Py.splitlines (c :: r) = [] :: Py.splitlines r)
  \/ (Py.islinebreak c = false
      /\ Py.splitlines (c :: r) = Py.cons_line c (Py.splitlines r)).
Proof.
  destruct (Py.islinebreak c) eqn:Hc.
  - destruct (Z.eqb_spec c CR) as [->|Hne].
    + destruct r as [|c' r'];
        [right; left; split; [split; [|discriminate]|]; reflexivity|].
      destruct (Z.eqb_spec c' LF) as [->|Hne'].
      * left. exists r'. repeat split.
      * right; left.
        assert (Hr : CR = CR -> forall r'', c' :: r' <> LF :: r'')
          by (intros _ r'' [= ? _]; auto).
        split; [split; [reflexivity | exact Hr]|].
        now apply splitlines_break.
    + right; left. split; [split; [reflexivity | contradiction]|].
      apply splitlines_break; [assumption | contradiction].
  - right; right. split; [reflexivity | now apply splitlines_char].
Qed.

Lemma splitlines_nonempty c r : Py.splitlines (c :: r) <> [].
Proof.
  destruct (splitlines_cases c r) as [(r' & _ & _ & ->)|[[_ ->]|[_ ->]]];
    try discriminate.
  now destruct (Py.splitlines r).
Qed.

(** No line holds a line break. *)
Lemma splitlines_nobreak t : Forall nobreak (Py.splitlines t).
Proof.
  induction t as [| |a b l IH1 IH2] using list_ind2.
  - constructor.
  - destruct (splitlines_cases a []) as [(r' & _ & ? & _)|[[_ ->]|[Ha ->]]];
      [discriminate | repeat constructor | repeat constructor; assumption].
  - destruct (splitlines_cases a (b :: l))
      as [(r' & _ & [= -> ->] & ->)|[[_ ->]|[Ha ->]]].
    + constructor; [constructor | assumption].
    + constructor; [constructor | assumption].
    + destruct (Py.splitlines (b :: l)) as [|l0 ls] eqn:E;
        [repeat constructor; assumption|].
      inversion IH2; subst. constructor; [now constructor | assumption].
Qed.

(** The first line is a prefix of the text. *)
Lemma splitlines_first t l ls :
  Py.splitlines t = l :: ls -> exists post, t = l ++ post.
Proof.
  revert l ls. induction t as [| |a b r IH1 IH2] using list_ind2;
    intros l ls.
  - discriminate.
  - destruct (splitlines_cases a []) as [(r' & _ & ? & _)|[[_ ->]|[Ha ->]]];
      [discriminate | |]; intros [= <- <-]; [now exists [a] | now exists []].
  - destruct (splitlines_cases a (b :: r))
      as [(r' & _ & _ & ->)|[[_ ->]|[Ha ->]]].
    + intros [= <- _]. now eexists.
    + intros [= <- _]. now eexists.
    + destruct (Py.splitlines (b :: r)) as [|l0 ls0] eqn:E;
        [now destruct (splitlines_nonempty b r)|].
      intros [= <- <-]. destruct (IH2 _ _ eq_refl) as (post & ->).
      now exists post.
Qed.

(** Every line is a stretch of the text. *)
Lemma splitlines_sub t l :
  In l (Py.splitlines t) -> exists pre post, t = pre ++ l ++ post.
Proof.
  revert l. induction t as [| |a b r IH1 IH2] using list_ind2; intros l.
  - intros [].
  - destruct (splitlines_cases a []) as [(r' & _ & ? & _)|[[_ ->]|[Ha ->]]];
      [discriminate | |]; intros [<-|[]]; [now exists [], [a] | now exists [], []].
  - destruct (splitlines_cases a (b :: r))
      as [(r' & _ & [= -> <-] & ->)|[[_ ->]|[Ha ->]]].
    + intros [<-|H]; [now exists [], (a :: LF :: r)|].
      destruct (IH1 _ H) as (pre & post & ->). now exists (a :: LF :: pre), post.
    + intros [<-|H]; [now exists [], (a :: b :: r)|].
      destruct (IH2 _ H) as (pre & post & ->). now exists (a :: pre), post.
    + destruct (Py.splitlines (b :: r)) as [|l0 ls0] eqn:E;
        [now destruct (splitlines_nonempty b r)|].
      intros [<-|H].
      * destruct (splitlines_first _ _ _ E) as (post & ->). now exists [], post.
      * destruct (IH2 l (or_intror H)) as (pre & post & ->).
        now exists (a :: pre), post.
Qed.

Lemma splitlines_In x t l : In l (Py.splitlines t) -> In x l -> In x t.
Proof.
  intros Hl Hx. destruct (splitlines_sub _ _ Hl) as (pre & post & ->).
  apply in_or_app; right. apply in_or_app; now left.
Qed.

Lemma join_cons sep l l' ls :
  Py.join sep (l :: l' :: ls) = l ++ sep ++ Py.join sep (l' :: ls).
Proof. reflexivity. Qed.

Lemma join_In x sep ls :
  In x (Py.join sep ls) -> In x sep \/ exists l, In l ls /\ In x l.
Proof.
  induction ls as [|l ls IH]; [intros []|].
  destruct ls as [|l' ls].
  - intros H. right. exists l. split; [now left | exact H].
  - rewrite join_cons. intros H.
    apply in_app_or in H as [H|H]; [right; exists l; split; [now left|exact H]|].
    apply in_app_or in H as [H|H]; [now left|].
    destruct (IH H) as [?|(l0 & Hl0 & Hx)]; [now left|].
    right. exists l0. split; [now right | exact Hx].
Qed.

(** The line stage brings in no character but the newline. *)
Lemma normalize_lines_In x t : In x (normalize_lines t) -> x = LF \/ In x t.
Proof.
  unfold normalize_lines. intros H. apply in_app_or in H as [H|H].
  - apply join_In in H as [[<-|[]]|(l & Hl & Hx)]; [now left|].
    apply in_map_iff in Hl as (l0 & <- & Hl0). right.
    eapply splitlines_In; [exact Hl0 | now apply rstrip_In].
  - destruct (Py.endswith_any t [LF; CR]); [|destruct H].
    destruct H as [<-|[]]. now left.
Qed.

Lemma sanitize_chars t c :
  In c (fst (sanitize t)) -> exotic_space c = false /\ invisible c = false.
Proof.
  rewrite sanitize_fst. intros H.
  apply normalize_lines_In in H as [->|H]; [split; reflexivity|].
  now apply repaired_text_In in H.
Qed.

(** C10.  The cleaned text holds none of the six spaces of [SPACE_SUBS] and
    none of the four characters of [REMOVE_CHARS]: the two passes take them
    all out, and what the later stages put in is ASCII punctuation, the
    quotation mark and the newline. *)
Theorem sanitize_no_exotic_no_invisible (t : text) :
  Forall (fun c => ~ In c (map fst SPACE_SUBS) /\ ~ In c REMOVE_CHARS)
    (fst (sanitize t)).
Proof.
  apply Forall_forall. intros c Hc.
  destruct (sanitize_chars _ _ Hc) as [He Hi].
  unfold exotic_space, invisible in *.
  split; intros Hin.
  - assert (existsb (Z.eqb c) (map fst SPACE_SUBS) = true); [|congruence].
    apply existsb_exists. exists c. split; [assumption | apply Z.eqb_refl].
  - assert (existsb (Z.eqb c) REMOVE_CHARS = true); [|congruence].
    apply existsb_exists. exists c. split; [assumption | apply Z.eqb_refl].
Qed.

(** ** The line stage is a projection *)

Lemma nobreak_not_CR c : Py.islinebreak c = false -> c <> CR.
Proof. intros H ->. discriminate. Qed.

(** A line in front of a newline is split off as it is. *)
Lemma splitlines_line_LF l rest :
  nobreak l -> Py.splitlines (l ++ LF :: rest) = l :: Py.splitlines rest.
Proof.
  induction 1 as [|c l Hc Hl IH]; [reflexivity|].
  simpl app. rewrite splitlines_char, IH by assumption. reflexivity.
Qed.

Lemma splitlines_line l : nobreak l -> l <> [] -> Py.splitlines l = [l].
Proof.
  induction 1 as [|c l Hc Hl IH]; [congruence|]. intros _.
  rewrite splitlines_char by assumption.
  destruct l as [|c' l]; [reflexivity|]. now rewrite IH.
Qed.

(** The text made of the given lines, each but the last followed by a
    newline, and a newline after the last one on demand. *)
Lemma splitlines_join_LF ls :
  Forall nobreak ls -> ls <> [] ->
  Py.splitlines (Py.join [LF] ls ++ [LF]) = ls.
Proof.
  induction 1 as [|l ls Hl Hls IH]; [congruence|]. intros _.
  destruct ls as [|l' ls].
  - simpl Py.join. now rewrite splitlines_line_LF.
  - rewrite join_cons. rewrite <- !app_assoc. simpl app.
    rewrite splitlines_line_LF by assumption. f_equal. now apply IH.
Qed.

Lemma join_snoc_empty ls :
  ls <> [] -> Py.join [LF] (ls ++ [[]]) = Py.join [LF] ls ++ [LF].
Proof.
  induction ls as [|l ls IH]; [congruence|]. intros _.
  destruct ls as [|l' ls]; [reflexivity|].
  specialize (IH ltac:(discriminate)).
  change ((l :: l' :: ls) ++ [[]]) with (l :: l' :: (ls ++ [[]])).
  change ((l' :: ls) ++ [[]]) with (l' :: (ls ++ [[]])) in IH.
  rewrite !join_cons, <- !app_assoc. do 2 f_equal. exact IH.
Qed.

Lemma endswith_any_snoc t c cs :
  Py.endswith_any (t ++ [c]) cs = existsb (Z.eqb c) cs.
Proof. unfold Py.endswith_any. now rewrite rev_app_distr. Qed.

Lemma endswith_any_nonempty t cs : Py.endswith_any t cs = true -> t <> [].
Proof. now destruct t. Qed.

Lemma stripped_line_last l c :
  stripped_line (l ++ [c]) -> Py.isspace c = false.
Proof. intros [_ H]. now apply (rstrip_last (l ++ [c]) l c). Qed.

Lemma map_rstrip_stripped ls :
  Forall stripped_line ls -> map Py.rstrip ls = ls.
Proof.
  induction 1 as [|l ls [_ Hl] _ IH]; [reflexivity|]. simpl. now rewrite Hl, IH.
Qed.

Lemma stripped_nobreak ls : Forall stripped_line ls -> Forall nobreak ls.
Proof. apply Forall_impl. now intros l [H _]. Qed.

Lemma rstrip_nobreak l : nobreak l -> nobreak (Py.rstrip l).
Proof.
  unfold nobreak. rewrite !Forall_forall. intros H x Hx.
  now apply H, rstrip_In.
Qed.

Lemma normalize_lines_lines t :
  Forall stripped_line (map Py.rstrip (Py.splitlines t)).
Proof.
  apply Forall_forall. intros l Hl.
  apply in_map_iff in Hl as (l0 & <- & Hl0). split.
  - apply rstrip_nobreak.
    exact (proj1 (Forall_forall _ _) (splitlines_nobreak t) _ Hl0).
  - apply rstrip_idem.
Qed.

Lemma join_cons_nonempty sep l ls :
  ls <> [] -> Py.join sep (l :: ls) = l ++ sep ++ Py.join sep ls.
Proof. destruct ls; [congruence | reflexivity]. Qed.

Lemma join_snoc sep ls l :
  exists p, Py.join sep (ls ++ [l]) = p ++ l.
Proof.
  induction ls as [|l0 ls (p & IH)]; [now exists []|].
  simpl app. rewrite join_cons_nonempty by now destruct ls.
  rewrite IH. exists (l0 ++ sep ++ p). now rewrite <- !app_assoc.
Qed.

(** Lines whose last one is not empty come back from their text. *)
Lemma splitlines_join ls l :
  Forall nobreak (ls ++ [l]) -> l <> [] ->
  Py.splitlines (Py.join [LF] (ls ++ [l])) = ls ++ [l].
Proof.
  intros H Hl. induction ls as [|l0 ls IH].
  - simpl in *. inversion H; subst. now apply splitlines_line.
  - simpl app in *. inversion H; subst.
    rewrite join_cons_nonempty by now destruct ls.
    simpl app. rewrite splitlines_line_LF by assumption.
    f_equal. now apply IH.
Qed.

Lemma space_not_LF_CR c :
  Py.isspace c = false -> existsb (Z.eqb c) [LF; CR] = false.
Proof.
  unfold Py.isspace, LF, CR. cbn [existsb]. bool_to_Z. lia.
Qed.

Lemma normalize_lines_render_final ls :
  Forall stripped_line ls -> ls <> [] ->
  normalize_lines (render ls true) = render ls true.
Proof.
  intros H Hne. unfold normalize_lines, render.
  rewrite splitlines_join_LF by (auto using stripped_nobreak).
  rewrite map_rstrip_stripped by assumption.
  now rewrite endswith_any_snoc.
Qed.

Lemma rev_case {A : Type} (l : list A) :
  l = [] \/ exists l' x, l = l' ++ [x].
Proof.
  induction l as [|x l' _] using rev_ind; [now left|].
  right. now exists l', x.
Qed.

(** The line stage leaves a rendering of stripped lines as it is. *)
Lemma normalize_lines_render ls final :
  Forall stripped_line ls -> (final = true -> ls <> []) ->
  normalize_lines (render ls final) = render ls final.
Proof.
  intros H Hf. destruct final; [now apply normalize_lines_render_final; auto|].
  clear Hf. unfold render at 1 2. rewrite !app_nil_r.
  destruct (rev_case ls) as [->|(ls' & l & ->)]; [reflexivity|].
  apply Forall_app in H as [Hls' Hl]. inversion Hl as [|? ? Hl' _]; subst.
  destruct (rev_case l) as [->|(l' & c & ->)].
  - destruct ls' as [|l0 ls']; [reflexivity|].
    rewrite join_snoc_empty by discriminate.
    now apply (normalize_lines_render_final (l0 :: ls')).
  - unfold normalize_lines.
    assert (Hall : Forall stripped_line (ls' ++ [l' ++ [c]]))
      by (apply Forall_app; split; [assumption | now constructor]).
    rewrite splitlines_join
      by (auto using stripped_nobreak; now destruct l').
    rewrite map_rstrip_stripped by assumption.
    destruct (join_snoc [LF] ls' (l' ++ [c])) as (p & ->).
    rewrite app_assoc, endswith_any_snoc.
    rewrite space_not_LF_CR by (eapply stripped_line_last; eassumption).
    now rewrite app_nil_r, <- app_assoc.
Qed.

Lemma normalize_lines_is_render t :
  normalize_lines t =
  render (map Py.rstrip (Py.splitlines t)) (Py.endswith_any t [LF; CR]).
Proof. reflexivity. Qed.

(** The line stage is idempotent. *)
Lemma normalize_lines_idem t :
  normalize_lines (normalize_lines t) = normalize_lines t.
Proof.
  rewrite (normalize_lines_is_render t).
  apply normalize_lines_render; [apply normalize_lines_lines|].
  intros He. apply endswith_any_nonempty in He.
  destruct t as [|c r]; [congruence|].
  pose proof (splitlines_nonempty c r).
  destruct (Py.splitlines (c :: r)); [congruence | discriminate].
Qed.

(** ** A text without targets *)

Lemma fold_left_fixed {A S : Type} (step : S -> A -> S) (l : list A) (st : S) :
  (forall a, In a l -> step st a = st) -> fold_left step l st = st.
Proof.
  induction l as [|a l IH]; intros H; [reflexivity|].
  simpl. rewrite H by now left. apply IH. intros; apply H; now right.
Qed.

Lemma forallb_not_in (f : char -> bool) (cs : list char) t ch :
  forallb (fun c => negb (existsb (Z.eqb c) cs) && f c) t = true ->
  In ch cs -> ~ In ch t.
Proof.
  intros H Hin Ht. rewrite forallb_forall in H. specialize (H _ Ht).
  apply andb_true_iff in H as [H _]. apply negb_true_iff in H.
  assert (existsb (Z.eqb ch) cs = true); [|congruence].
  apply existsb_exists. exists ch. split; [assumption | apply Z.eqb_refl].
Qed.

Lemma clean_parts t :
  clean t = true ->
  (forall ch, In ch (map fst SPACE_SUBS) -> ~ In ch t)
  /\ (forall ch, In ch REMOVE_CHARS -> ~ In ch t)
  /\ (forall item, In item MOJIBAKE_REMAP -> contains t (fst item) = false)
  /\ has_truncated t = false /\ has_stray t = false.
Proof.
  unfold clean. rewrite !andb_true_iff, !negb_true_iff.
  intros [[[Hc Hm] Ht] Hs]. repeat split; try assumption.
  - intros ch Hin. eapply forallb_not_in; [exact Hc | exact Hin].
  - intros ch Hin Hch. rewrite forallb_forall in Hc. specialize (Hc _ Hch).
    apply andb_true_iff in Hc as [_ Hc]. apply negb_true_iff in Hc.
    assert (invisible ch = true); [|congruence].
    apply existsb_exists. exists ch. split; [assumption | apply Z.eqb_refl].
  - intros item Hin. unfold has_mojibake in Hm.
    destruct (contains t (fst item)) eqn:E; [|reflexivity].
    assert (existsb (fun item => contains t (fst item)) MOJIBAKE_REMAP = true);
      [|congruence].
    apply existsb_exists. now exists item.
Qed.

Lemma space_step_absent t counts item :
  ~ In (fst item) t -> space_step (t, counts) item = (t, counts).
Proof.
  destruct item as [ch rep]. intros H. unfold space_step.
  now rewrite not_contains_count by (discriminate || now apply not_in_contains).
Qed.

Lemma remove_step_absent t counts ch :
  ~ In ch t -> remove_step (t, counts) ch = (t, counts).
Proof.
  intros H. unfold remove_step.
  now rewrite not_contains_count by (discriminate || now apply not_in_contains).
Qed.

Lemma mojibake_step_absent t counts item :
  fst item <> [] -> contains t (fst item) = false ->
  mojibake_step (t, counts) item = (t, counts).
Proof.
  destruct item as [bad good]. intros Hne H. unfold mojibake_step.
  now rewrite not_contains_count.
Qed.

Lemma truncated_step_absent t counts :
  has_truncated t = false -> truncated_step (t, counts) = (t, counts).
Proof.
  intros H. unfold truncated_step, subn_truncated.
  now rewrite scan_not_found.
Qed.

Lemma sub_stray_absent t : has_stray t = false -> sub_stray t = t.
Proof. intros H. unfold sub_stray. now rewrite scan_not_found. Qed.

Lemma stray_step_absent t counts :
  has_stray t = false -> stray_step (t, counts) = (t, counts).
Proof.
  intros H. unfold stray_step. rewrite sub_stray_absent by assumption.
  now rewrite Z.sub_diag.
Qed.

(** The repair stages leave a clean text alone and log nothing. *)
Lemma stages_clean t counts :
  clean t = true ->
  stray_step
    (truncated_step
       (fold_left mojibake_step MOJIBAKE_REMAP
          (fold_left remove_step REMOVE_CHARS
             (fold_left space_step SPACE_SUBS (t, counts)))))
  = (t, counts).
Proof.
  intros H. apply clean_parts in H as (Hs & Hr & Hm & Ht & Hy).
  rewrite (fold_left_fixed space_step).
  2:{ intros item Hin. apply space_step_absent, Hs. now apply in_map. }
  rewrite (fold_left_fixed remove_step).
  2:{ intros ch Hin. now apply remove_step_absent, Hr. }
  rewrite (fold_left_fixed mojibake_step).
  2:{ intros item Hin. apply mojibake_step_absent;
        [now apply mojibake_keys_nonempty | now apply Hm]. }
  rewrite truncated_step_absent by assumption.
  now apply stray_step_absent.
Qed.

Lemma repaired_clean t : clean t = true -> repaired t = (t, []).
Proof. apply stages_clean. Qed.

Lemma sanitize_clean t : clean t = true -> sanitize t = (normalize_lines t, []).
Proof. intros H. unfold sanitize. now rewrite repaired_clean. Qed.

(** ** Substrings *)

Lemma startswith_iff t w : Py.startswith t w = true <-> exists s, t = w ++ s.
Proof.
  revert t; induction w as [|h w IH]; intros t.
  - split; [now exists t | reflexivity].
  - destruct t as [|c t]; simpl.
    + split; [discriminate | intros (s & Hs); discriminate].
    + rewrite andb_true_iff, Z.eqb_eq, IH. split.
      * intros [-> (s & ->)]. now exists s.
      * intros (s & [= -> ->]). split; [reflexivity | now exists s].
Qed.

Lemma contains_iff t w :
  contains t w = true <-> exists p s, t = p ++ w ++ s.
Proof.
  split.
  - induction t as [|c t IH]; cbn [contains]; rewrite orb_true_iff.
    + intros [H|H]; [|discriminate].
      apply startswith_iff in H as (s & ->). now exists [], s.
    + intros [H|H].
      * apply startswith_iff in H as (s & ->). now exists [], s.
      * destruct (IH H) as (p & s & ->). now exists (c :: p), s.
  - intros (p & s & ->). induction p as [|c p IH].
    + assert (H : Py.startswith (w ++ s) w = true)
        by (apply startswith_iff; now exists s).
      simpl app. destruct (w ++ s); cbn [contains]; now rewrite H.
    + simpl app. cbn [contains]. rewrite IH. apply orb_true_r.
Qed.

Lemma contains_cons c t w : contains t w = true -> contains (c :: t) w = true.
Proof. intros H. cbn [contains]. rewrite H. apply orb_true_r. Qed.

Lemma contains_middle pre l post w :
  contains l w = true -> contains (pre ++ l ++ post) w = true.
Proof.
  rewrite !contains_iff. intros (p & s & ->).
  exists (pre ++ p), (s ++ post). now rewrite <- !app_assoc.
Qed.

(** A window does not reach across a character it does not hold. *)
Lemma startswith_app_sep a x b w :
  ~ In x w -> Py.startswith (a ++ x :: b) w = Py.startswith a w.
Proof.
  revert a; induction w as [|h w IH]; intros a Hx; [reflexivity|].
  destruct a as [|c a]; simpl.
  - destruct (Z.eqb_spec x h) as [->|_]; [|reflexivity].
    destruct Hx. now left.
  - rewrite IH; [reflexivity|]. intros H. apply Hx. now right.
Qed.

Lemma contains_app_sep a x b w :
  w <> [] -> ~ In x w ->
  contains (a ++ x :: b) w = contains a w || contains b w.
Proof.
  intros Hw Hx. induction a as [|c a IH].
  - simpl app. cbn [contains]. destruct w as [|h w]; [congruence|].
    simpl Py.startswith. destruct (Z.eqb_spec x h) as [->|_]; [|reflexivity].
    destruct Hx. now left.
  - pose proof (startswith_app_sep (c :: a) x b w Hx) as Hs.
    simpl app in *. cbn [contains]. rewrite IH, Hs. apply orb_assoc.
Qed.

(** ** Windows a scan cannot create *)

Section Window.

(** [wc] is a set of characters; a window is a non-empty text made of them.
    The scan puts in no such character, and what stands at the head of the
    output after a match is none either. *)
Variables (old : text) (ahead : text -> bool) (new : text) (wc : char -> bool).
Local Abbreviation scan := (Py.scan old ahead new).
Local Abbreviation hit t :=
  (Py.startswith t%list old && ahead (skipn (length old) t%list)).

Hypothesis new_plain : Forall (fun c => wc c = false) new.
Hypothesis head_plain :
  forall t h o, hit t = true -> fst (scan 0 t) = h :: o -> wc h = false.

Local Abbreviation window := (window wc).

Lemma startswith_scan w t :
  Forall (fun c => wc c = true) w ->
  Py.startswith (fst (scan 0 t)) w = true -> Py.startswith t w = true.
Proof.
  intros Hw. revert t. induction Hw as [|h w Hh Hw IH]; intros t;
    [reflexivity|].
  destruct t as [|c r]; [discriminate|].
  destruct (hit (c :: r)) eqn:E.
  - intros H. apply startswith_iff in H as (s & Hs).
    apply (head_plain _ _ _ E) in Hs. congruence.
  - rewrite scan_miss by assumption. cbn [fst Py.startswith].
    rewrite !andb_true_iff. intros [Hc H]. split; [assumption | now apply IH].
Qed.

Lemma contains_app_plain_any n o w :
  Forall (fun c => wc c = false) n ->
  window w -> contains (n ++ o) w = contains o w.
Proof.
  intros Hn [Hne Hw]. destruct w as [|h w]; [congruence|].
  inversion Hw as [|? ? Hh _]; subst. clear Hne Hw.
  induction Hn as [|x n Hx Hn IH]; [reflexivity|].
  simpl app. cbn [contains]. rewrite IH. cbn [Py.startswith].
  destruct (Z.eqb_spec x h) as [->|_]; [congruence | reflexivity].
Qed.

Lemma contains_app_plain o w :
  window w -> contains (new ++ o) w = contains o w.
Proof. apply contains_app_plain_any, new_plain. Qed.

(** A window found in the output was in the input. *)
Lemma contains_scan w k t :
  window w -> contains (fst (scan k t)) w = true -> contains t w = true.
Proof.
  intros Hw. revert k. induction t as [|c r IH]; intros k; [now simpl|].
  destruct k as [|k]; [|intros H; apply contains_cons; exact (IH _ H)].
  destruct (hit (c :: r)) eqn:E.
  - rewrite scan_hit by assumption. cbn [fst].
    rewrite contains_app_plain, <- scan_skip by assumption.
    intros H. apply contains_cons. exact (IH _ H).
  - intros H. pose proof H as H'. rewrite scan_miss in H' by assumption.
    cbn [fst contains] in H'. apply orb_true_iff in H' as [H'|H'].
    + change (c :: fst (scan 0 r))
        with (fst (c :: fst (scan 0 r), snd (scan 0 r))) in H'.
      rewrite <- (scan_miss old ahead new c r E) in H'.
      apply startswith_scan in H'; [|apply Hw].
      cbn [contains]. now rewrite H'.
    + apply contains_cons. exact (IH _ H').
Qed.

End Window.

(** After a match the output starts with the replacement text. *)
Lemma head_plain_new old ahead new (wc : char -> bool) :
  old <> [] -> new <> [] -> Forall (fun c => wc c = false) new ->
  forall t h o,
    Py.startswith t old && ahead (skipn (length old) t) = true ->
    fst (Py.scan old ahead new 0 t) = h :: o -> wc h = false.
Proof.
  intros Hold Hnew Hplain t h o Hhit.
  destruct t as [|c r].
  - destruct old; [congruence | discriminate].
  - rewrite scan_hit by assumption. cbn [fst].
    destruct Hplain as [|x n Hx _]; [congruence|]. now intros [= <- _].
Qed.

(** After a stray marker is dropped the output starts with the whitespace
    that followed it. *)
Lemma head_plain_stray (wc : char -> bool) :
  (forall c, wc c = true -> Py.isspace c = false) ->
  forall t h o,
    Py.startswith t [A_circ] && ahead_space (skipn 1 t) = true ->
    fst (Py.scan [A_circ] ahead_space [] 0 t) = h :: o -> wc h = false.
Proof.
  intros Hwc t h o Hhit.
  destruct t as [|c r]; [discriminate|].
  rewrite scan_hit by assumption. cbn [fst app length Nat.sub skipn].
  apply andb_true_iff in Hhit as [_ Hsp]. cbn [skipn] in Hsp.
  destruct r as [|w r']; [discriminate|]. cbn [ahead_space] in Hsp.
  rewrite scan_miss.
  - cbn [fst]. intros [= <- _].
    destruct (wc w) eqn:E; [|reflexivity]. apply Hwc in E. congruence.
  - cbn [Py.startswith]. destruct (Z.eqb_spec w A_circ) as [->|_];
      [discriminate | reflexivity].
Qed.

(** [replace] leaves no occurrence of what it replaces, when the replacement
    text shares no character with it. *)
Lemma replace_removes old new (wc : char -> bool) t :
  window wc old -> new <> [] -> Forall (fun c => wc c = false) new ->
  contains (Py.replace t old new) old = false.
Proof.
  intros Hw Hnew Hplain. pose proof Hw as [Hold Hall].
  rewrite replace_scan by assumption.
  generalize 0%nat as k.
  induction t as [|c r IH]; intros k.
  - simpl. destruct old; [congruence | reflexivity].
  - destruct k as [|k]; [|apply IH].
    destruct (Py.startswith (c :: r) old
              && Py.always (skipn (length old) (c :: r))) eqn:E.
    + rewrite scan_hit by assumption. cbn [fst].
      rewrite (contains_app_plain_any wc) by assumption.
      rewrite <- scan_skip. apply IH.
    + rewrite scan_miss by assumption. cbn [fst contains].
      rewrite (IH 0%nat), orb_false_r.
      destruct (Py.startswith (c :: fst (Py.scan old Py.always new 0 r)) old)
        eqn:Es; [|reflexivity].
      change (c :: fst (Py.scan old Py.always new 0 r))
        with (fst (c :: fst (Py.scan old Py.always new 0 r),
                   snd (Py.scan old Py.always new 0 r))) in Es.
      rewrite <- (scan_miss old Py.always new c r E) in Es.
      apply (startswith_scan old Py.always new wc) in Es;
        [|now apply head_plain_new | assumption].
      unfold Py.always in E. rewrite Es in E. discriminate.
Qed.

Lemma replace_preserves old new (wc : char -> bool) w t :
  old <> [] -> new <> [] -> Forall (fun c => wc c = false) new ->
  window wc w ->
  contains t w = false -> contains (Py.replace t old new) w = false.
Proof.
  intros Hold Hnew Hplain Hw H.
  destruct (contains (Py.replace t old new) w) eqn:E; [|reflexivity].
  rewrite replace_scan in E by assumption.
  apply (contains_scan old Py.always new wc) in E;
    [congruence | assumption | now apply head_plain_new | assumption].
Qed.

(** ** No mojibake literal survives *)

Lemma mojibake_items item :
  In item MOJIBAKE_REMAP ->
  window mojibake_char (fst item) /\ snd item <> []
  /\ Forall (fun c => mojibake_char c = false) (snd item).
Proof.
  unfold MOJIBAKE_REMAP. simpl In.
  intros H; repeat destruct H as [<-|H]; try contradiction;
    (split; [split; [discriminate | repeat constructor]
            | split; [discriminate | repeat constructor]]).
Qed.

Lemma mojibake_char_not_space c :
  mojibake_char c = true -> Py.isspace c = false.
Proof.
  unfold mojibake_char, MOJIBAKE_REMAP, Py.isspace, a_circ, euro.
  cbn [existsb fst]. bool_to_Z. lia.
Qed.

Lemma fold_replace_preserves w (l : list (text * text)) :
  (forall item, In item l -> In item MOJIBAKE_REMAP) ->
  window mojibake_char w ->
  forall t, contains t w = false ->
  contains (fold_left (fun t item => Py.replace t (fst item) (snd item)) l t) w
  = false.
Proof.
  intros Hl Hw. induction l as [|a l IH]; intros t H; [exact H|].
  simpl. apply IH; [intros; apply Hl; now right|].
  destruct (mojibake_items a (Hl a (or_introl eq_refl))) as ([Hne _] & Hn & Hp).
  now apply (replace_preserves _ _ mojibake_char).
Qed.

Lemma fold_replace_removes (l : list (text * text)) :
  (forall item, In item l -> In item MOJIBAKE_REMAP) ->
  forall t item, In item l ->
  contains (fold_left (fun t item => Py.replace t (fst item) (snd item)) l t)
    (fst item) = false.
Proof.
  induction l as [|a l IH]; intros Hl t item Hin; [destruct Hin|].
  simpl.
  destruct (mojibake_items a (Hl a (or_introl eq_refl))) as (Hw & Hn & Hp).
  destruct Hin as [->|Hin].
  - apply fold_replace_preserves;
      [intros; apply Hl; now right | assumption|].
    now apply (replace_removes _ _ mojibake_char).
  - apply IH; [intros; apply Hl; now right | assumption].
Qed.

Lemma has_mojibake_false t :
  (forall item, In item MOJIBAKE_REMAP -> contains t (fst item) = false) ->
  has_mojibake t = false.
Proof.
  intros H. unfold has_mojibake.
  destruct (existsb _ _) eqn:E; [|reflexivity].
  apply existsb_exists in E as (item & Hin & Hc). rewrite H in Hc by assumption.
  discriminate.
Qed.

Lemma mojibake_text_free t item :
  In item MOJIBAKE_REMAP -> contains (mojibake_text t) (fst item) = false.
Proof. intros H. now apply fold_replace_removes. Qed.

Lemma subn_truncated_preserves w t :
  window mojibake_char w ->
  contains t w = false -> contains (fst (subn_truncated t)) w = false.
Proof.
  intros Hw H.
  destruct (contains (fst (subn_truncated t)) w) eqn:E; [|reflexivity].
  apply (contains_scan _ _ _ mojibake_char) in E;
    [congruence | repeat constructor | | assumption].
  apply head_plain_new; [discriminate | discriminate | repeat constructor].
Qed.

Lemma sub_stray_preserves w t :
  window mojibake_char w ->
  contains t w = false -> contains (sub_stray t) w = false.
Proof.
  intros Hw H.
  destruct (contains (sub_stray t) w) eqn:E; [|reflexivity].
  apply (contains_scan _ _ _ mojibake_char) in E;
    [congruence | constructor | | assumption].
  apply head_plain_stray, mojibake_char_not_space.
Qed.

Lemma contains_join w ls :
  w <> [] -> ~ In LF w ->
  contains (Py.join [LF] ls) w = true ->
  exists l, In l ls /\ contains l w = true.
Proof.
  intros Hw Hlf. induction ls as [|l ls IH].
  - simpl. destruct w; [congruence | discriminate].
  - destruct ls as [|l' ls]; [intros H; exists l; split; [now left | exact H]|].
    rewrite join_cons. simpl app.
    rewrite contains_app_sep by assumption.
    intros H. apply orb_true_iff in H as [H|H].
    + exists l. split; [now left | exact H].
    + destruct (IH H) as (l0 & Hin & Hc). exists l0. split; [now right | exact Hc].
Qed.

Lemma contains_rstrip w l :
  contains (Py.rstrip l) w = true -> contains l w = true.
Proof.
  destruct (rstrip_split l) as (ws & Hl & _). intros H.
  rewrite Hl. apply (contains_middle [] (Py.rstrip l) ws). exact H.
Qed.

(** The line stage creates no window of characters that are not spaces. *)
Lemma normalize_lines_preserves w t :
  w <> [] -> Forall (fun c => Py.isspace c = false) w ->
  contains t w = false -> contains (normalize_lines t) w = false.
Proof.
  intros Hw Hsp H.
  assert (Hlf : ~ In LF w).
  { intros Hin. rewrite Forall_forall in Hsp. now apply Hsp in Hin. }
  destruct (contains (normalize_lines t) w) eqn:E; [|reflexivity].
  unfold normalize_lines in E.
  assert (E' : contains (Py.join [LF] (map Py.rstrip (Py.splitlines t))) w
               = true).
  { destruct (Py.endswith_any t [LF; CR]); [|now rewrite app_nil_r in E].
    rewrite contains_app_sep in E by assumption.
    apply orb_true_iff in E as [E|E]; [exact E|].
    destruct w; [congruence | discriminate]. }
  apply contains_join in E' as (l & Hin & Hc); try assumption.
  apply in_map_iff in Hin as (l0 & <- & Hl0).
  apply contains_rstrip in Hc.
  destruct (splitlines_sub _ _ Hl0) as (pre & post & Ht).
  rewrite Ht, contains_middle in H by assumption. discriminate.
Qed.

(** The cleaned text holds no key of [MOJIBAKE_REMAP]. *)
Lemma sanitize_no_mojibake t : has_mojibake (fst (sanitize t)) = false.
Proof.
  apply has_mojibake_false. intros item Hin.
  destruct (mojibake_items item Hin) as (Hw & _ & _).
  rewrite sanitize_fst. unfold repaired_text.
  apply normalize_lines_preserves; [apply Hw| |].
  - destruct Hw as [_ Hall]. eapply Forall_impl; [|exact Hall].
    apply mojibake_char_not_space.
  - apply sub_stray_preserves, subn_truncated_preserves; try assumption.
    now apply mojibake_text_free.
Qed.

Lemma sanitize_chars_clean t :
  forallb (fun c => negb (exotic_space c) && negb (invisible c))
    (fst (sanitize t)) = true.
Proof.
  apply forallb_forall. intros c Hc.
  destruct (sanitize_chars _ _ Hc) as [-> ->]. reflexivity.
Qed.

(** C1, as amended.  Running [sanitize] on its own output changes nothing and
    logs nothing, provided no context pattern matches in that output: no
    truncated-quote prefix in front of the end, a space or a closing
    character, and no stray marker in front of a space. *)
Theorem sanitize_idempotent_without_pattern (t : text) :
  has_truncated (fst (sanitize t)) = false ->
  has_stray (fst (sanitize t)) = false ->
  sanitize (fst (sanitize t)) = (fst (sanitize t), []).
Proof.
  intros Ht Hs. rewrite sanitize_clean.
  - f_equal. rewrite sanitize_fst. apply normalize_lines_idem.
  - unfold clean.
    now rewrite sanitize_chars_clean, sanitize_no_mojibake, Ht, Hs.
Qed.

(** The claim C1 as it is stated fails: the single pass of the truncated-quote
    repair turns [â€â€] into [â€] followed by a quotation mark, which a second
    run repairs again, with a log entry. *)
Lemma sanitize_not_idempotent :
  let t := [a_circ; euro; a_circ; euro] in
  fst (sanitize t) = [a_circ; euro; dquote]
  /\ sanitize (fst (sanitize t)) = ([dquote; dquote], [(label_truncated, 1)])
  /\ fst (sanitize (fst (sanitize t))) <> fst (sanitize t)
  /\ snd (sanitize (fst (sanitize t))) <> [].
Proof. vm_compute. repeat split; discriminate. Qed.

(** Where the hypothesis of the amended statement holds. *)
Lemma sanitize_idempotent_without_pattern_witness :
  has_truncated (fst (sanitize (str "don" ++ [a_circ; euro; 0x2122] ++ str "t")))
  = false
  /\ has_stray (fst (sanitize (str "don" ++ [a_circ; euro; 0x2122] ++ str "t")))
     = false
  /\ sanitize (fst (sanitize (str "don" ++ [a_circ; euro; 0x2122] ++ str "t")))
     = (str "don't", []).
Proof.
  split; [reflexivity|]. split; [reflexivity|].
  exact (sanitize_idempotent_without_pattern
           (str "don" ++ [a_circ; euro; 0x2122] ++ str "t")
           eq_refl eq_refl).
Defined.

(** C9, as amended.  On a text that holds none of the targets of the repair
    stages the change log is empty and the cleaned text is the input with its
    line endings and trailing spaces normalised; it is the input itself when
    the input is made of lines without trailing whitespace separated by single
    newlines, with or without a newline at the end. *)
Theorem sanitize_clean_text (t : text) :
  clean t = true ->
  sanitize t = (normalize_lines t, [])
  /\ (forall ls final,
        Forall stripped_line ls -> (final = true -> ls <> []) ->
        t = render ls final -> sanitize t = (t, [])).
Proof.
  intros H. split; [now apply sanitize_clean|].
  intros ls final Hls Hf ->. rewrite sanitize_clean by assumption.
  now rewrite normalize_lines_render.
Qed.

Lemma sanitize_clean_text_witness :
  clean (str "one" ++ [LF] ++ str "two") = true
  /\ sanitize (str "one" ++ [LF] ++ str "two")
     = (str "one" ++ [LF] ++ str "two", []).
Proof.
  split; [reflexivity|].
  refine (proj2 (sanitize_clean_text (str "one" ++ [LF] ++ str "two") eq_refl)
            [str "one"; str "two"] false _ _ eq_refl).
  - repeat constructor.
  - discriminate.
Defined.

(** The claim C9 as it is stated fails: a text with a CR LF line ending and a
    trailing space holds none of the targets, its change log is empty, and
    yet the cleaned text differs from it. *)
Lemma sanitize_clean_text_changed :
  let t := str "a " ++ [CR; LF] ++ str "b" in
  clean t = true
  /\ sanitize t = (str "a" ++ [LF] ++ str "b", [])
  /\ fst (sanitize t) <> t.
Proof. vm_compute. repeat split; discriminate. Qed.

(** C8.  The literal repair on the example of the specification: the cleaned
    text is [don't] with the ASCII apostrophe, and the log has the entry of
    that mapping, with count 1. *)
Theorem sanitize_dont :
  sanitize (str "don" ++ [a_circ; euro; 0x2122] ++ str "t")
  = (str "don't",
     [(str "mojibake '" ++ [a_circ; euro; 0x2122] ++ str "' -> "
         ++ [dquote; 0x27; dquote], 1)])
  /\ In ([a_circ; euro; 0x2122], str "'") MOJIBAKE_REMAP
  /\ label_mojibake [a_circ; euro; 0x2122] (str "'")
     = str "mojibake '" ++ [a_circ; euro; 0x2122] ++ str "' -> "
         ++ [dquote; 0x27; dquote].
Proof. split; [reflexivity|]. split; [now left | reflexivity]. Qed.

(** ** Counting and replacing a single character *)

Lemma count_char_cons c r ch :
  Py.count (c :: r) [ch] = (if c =? ch then 1 else 0) + Py.count r [ch].
Proof.
  unfold Py.count. destruct (c =? ch) eqn:E.
  - rewrite scan_hit by (cbn [Py.startswith]; now rewrite E).
    cbn [snd length Nat.sub skipn]. lia.
  - rewrite scan_miss by (cbn [Py.startswith]; now rewrite E).
    cbn [snd]. lia.
Qed.

Lemma count_char_absent t ch : ~ In ch t -> Py.count t [ch] = 0.
Proof.
  intros H. apply not_contains_count; [discriminate | now apply not_in_contains].
Qed.

Lemma count_char_once w1 w2 ch :
  ~ In ch w1 -> ~ In ch w2 -> Py.count (w1 ++ [ch] ++ w2) [ch] = 1.
Proof.
  intros H1 H2. induction w1 as [|c w1 IH].
  - simpl app. rewrite count_char_cons, Z.eqb_refl, count_char_absent; auto.
  - simpl app in *. rewrite count_char_cons.
    destruct (Z.eqb_spec c ch) as [->|_]; [destruct H1; now left|].
    rewrite IH; [reflexivity|]. intros H; apply H1; now right.
Qed.

Lemma replace_char_absent t ch new : ~ In ch t -> Py.replace t [ch] new = t.
Proof.
  intros H. apply count_zero_replace; [discriminate|].
  now apply count_char_absent.
Qed.

Lemma replace_char_once w1 w2 ch new :
  ~ In ch w1 -> ~ In ch w2 ->
  Py.replace (w1 ++ [ch] ++ w2) [ch] new = w1 ++ new ++ w2.
Proof.
  intros H1 H2.
  pose proof (replace_char_absent w1 ch new H1) as E1.
  pose proof (replace_char_absent w2 ch new H2) as E2.
  rewrite replace_char in E1, E2.
  rewrite replace_char, !flat_map_app, E1, E2.
  simpl. now rewrite Z.eqb_refl, app_nil_r.
Qed.

Lemma found_contains old ahead t :
  found old ahead t = true -> contains t old = true.
Proof.
  induction t as [|c r IH]; cbn [found contains]; rewrite !orb_true_iff.
  - intros [H|H]; [|discriminate]. apply andb_true_iff in H as [H _]. now left.
  - intros [H|H]; [apply andb_true_iff in H as [H _]; now left|].
    right. now apply IH.
Qed.

Lemma contains_In t w x : In x w -> contains t w = true -> In x t.
Proof.
  intros Hx H. apply contains_iff in H as (p & s & ->).
  apply in_or_app; right. apply in_or_app; now left.
Qed.

Lemma not_in_not_contains t w x : In x w -> ~ In x t -> contains t w = false.
Proof.
  intros Hx H. destruct (contains t w) eqn:E; [|reflexivity].
  destruct H. eapply contains_In; eassumption.
Qed.

(** A text without euro sign, stray marker, exotic space and invisible
    character is clean. *)
Lemma clean_plain t :
  Forall (fun c => exotic_space c = false /\ invisible c = false
                   /\ c <> euro /\ c <> A_circ) t ->
  clean t = true.
Proof.
  intros H. rewrite Forall_forall in H. unfold clean.
  assert (He : ~ In euro t) by (intros Hin; now apply H in Hin).
  assert (Ha : ~ In A_circ t) by (intros Hin; now apply H in Hin).
  repeat (apply andb_true_iff; split).
  - apply forallb_forall. intros c Hc.
    destruct (H c Hc) as (-> & -> & _). reflexivity.
  - apply negb_true_iff, has_mojibake_false. intros item Hin.
    apply (not_in_not_contains _ _ euro); [|assumption].
    revert Hin. unfold MOJIBAKE_REMAP. simpl In.
    intros Hin; repeat destruct Hin as [<-|Hin]; try contradiction;
      right; now left.
  - apply negb_true_iff. unfold has_truncated.
    destruct (found _ _ t) eqn:E; [|reflexivity].
    apply found_contains in E.
    destruct He. apply (contains_In _ _ euro) in E; [assumption|].
    right; now left.
  - apply negb_true_iff. unfold has_stray.
    destruct (found _ _ t) eqn:E; [|reflexivity].
    apply found_contains in E.
    destruct Ha. apply (contains_In _ _ A_circ) in E; [assumption | now left].
Qed.

Lemma isspace_nobreak c : Py.isspace c = false -> Py.islinebreak c = false.
Proof.
  intros H. destruct (Py.islinebreak c) eqn:E; [|reflexivity].
  apply islinebreak_isspace in E. congruence.
Qed.

(** ** The line stage against its description *)

(** [splitlines] reads the text as the specification describes it. *)
Lemma splitlines_lines_of t : lines_of t (Py.splitlines t).
Proof.
  remember (length t) as n eqn:Hn.
  revert t Hn. induction n as [n IH] using lt_wf_ind. intros t ->.
  destruct t as [|c r]; [constructor|].
  destruct (splitlines_cases c r)
    as [(r' & -> & -> & ->)|[[[Hc Hcr] ->]|[Hc ->]]].
  - apply (lines_closed [] [CR; LF] r');
      [constructor | constructor | discriminate|].
    apply (IH (length r')); [simpl; lia | reflexivity].
  - apply (lines_closed [] [c] r); [constructor | now constructor | |].
    + intros [= ->]. now apply Hcr.
    + apply (IH (length r)); [simpl; lia | reflexivity].
  - assert (Hr : lines_of r (Py.splitlines r))
      by (apply (IH (length r)); [simpl; lia | reflexivity]).
    inversion Hr as [E1 E2|l Hl Hb E1 E2|l tm rest ls Hb Htm Hcr Hrest E1 E2].
    + apply lines_open; [discriminate | now repeat constructor].
    + subst. simpl. apply lines_open; [discriminate | now constructor].
    + simpl. apply (lines_closed (c :: l) tm rest ls); auto. now constructor.
Qed.

(** The reading is unique. *)
Lemma lines_of_splitlines t ls : lines_of t ls -> ls = Py.splitlines t.
Proof.
  induction 1 as [|l Hl Hb|l tm rest ls Hb Htm Hcr Hrest IH].
  - reflexivity.
  - symmetry. now apply splitlines_line.
  - subst ls. induction Hb as [|x l Hx Hb IHl].
    + simpl app. destruct Htm as [|c Hc]; [reflexivity|].
      simpl app. symmetry. apply splitlines_break; [assumption|].
      intros ->. now apply Hcr.
    + simpl app. rewrite splitlines_char by assumption.
      now rewrite <- IHl.
Qed.

Lemma endswith_any_iff t cs :
  Py.endswith_any t cs = true <-> exists p c, t = p ++ [c] /\ In c cs.
Proof.
  destruct (rev_case t) as [->|(p & c & ->)].
  - split; [discriminate | intros (p & c & H & _); now destruct p].
  - rewrite endswith_any_snoc. split.
    + intros H. apply existsb_exists in H as (x & Hx & Hcx).
      apply Z.eqb_eq in Hcx. subst. now exists p, x.
    + intros (p' & c' & H & Hin). apply app_inj_tail in H as [_ ->].
      apply existsb_exists. exists c'. split; [assumption | apply Z.eqb_refl].
Qed.

(** C4, as amended.  The last stage reads the text as lines ended by any
    line-ending sequence that [splitlines] recognises, strips the trailing
    whitespace of each line, joins the lines with single newlines and puts a
    newline at the end if and only if the text ended in LF or CR; the change
    log is the one of the repair stages. *)
Theorem final_stage_normalizes (t : text) :
  lines_of t (Py.splitlines t)
  /\ (forall ls, lines_of t ls ->
        normalize_lines t
        = Py.join [LF] (map Py.rstrip ls)
          ++ (if Py.endswith_any t [LF; CR] then [LF] else []))
  /\ (forall l, exists ws,
        l = Py.rstrip l ++ ws
        /\ Forall (fun c => Py.isspace c = true) ws
        /\ forall p c, Py.rstrip l = p ++ [c] -> Py.isspace c = false)
  /\ (Py.endswith_any t [LF; CR] = true
      <-> exists p, t = p ++ [LF] \/ t = p ++ [CR])
  /\ (forall t0,
        sanitize t0 = (normalize_lines (fst (repaired t0)), snd (repaired t0))).
Proof.
  split; [apply splitlines_lines_of|]. split; [|split; [|split]].
  - intros ls Hls. apply lines_of_splitlines in Hls. now subst.
  - intros l. destruct (rstrip_split l) as (ws & H1 & H2).
    exists ws. repeat split; try assumption.
    intros p c. apply rstrip_last.
  - rewrite endswith_any_iff. split.
    + intros (p & c & -> & [<-|[<-|[]]]); exists p; auto.
    + intros (p & [->| ->]); exists p; [exists LF | exists CR];
        simpl; auto.
  - intros t0. unfold sanitize. now destruct (repaired t0).
Qed.

(** The claim C4 as it is stated fails: a form feed ends a line for
    [splitlines], so the text below ends with a line-ending sequence, but no
    newline is put at the end of the cleaned text. *)
Lemma final_stage_form_feed :
  let t := str "a" ++ [0x0C] in
  lines_of t [str "a"]
  /\ terminator [0x0C]
  /\ ends_with_terminator t = true
  /\ normalize_lines t = str "a"
  /\ sanitize t = (str "a", [])
  /\ Py.endswith_any (fst (sanitize t)) [LF] = false.
Proof.
  cbv zeta. split; [|split; [now constructor | repeat split]].
  apply (lines_closed (str "a") [0x0C] [] []);
    [now repeat constructor | now constructor | discriminate | constructor].
Qed.

(** ** The change log *)

Lemma text_eqb_eq a b : text_eqb a b = true <-> a = b.
Proof.
  revert b; induction a as [|x a IH]; intros [|y b]; simpl;
    try (split; [discriminate | intros; discriminate]); [tauto|].
  rewrite andb_true_iff, Z.eqb_eq, IH. split; [now intros [-> ->]|].
  now intros [= -> ->].
Qed.

Lemma text_eqb_refl a : text_eqb a a = true.
Proof. now apply text_eqb_eq. Qed.

Lemma getitem_setitem_same d k v : Py.getitem (Py.setitem d k v) k = Some v.
Proof.
  induction d as [|[k0 v0] d IH]; simpl; [now rewrite text_eqb_refl|].
  destruct (text_eqb k0 k) eqn:E; simpl; now rewrite E.
Qed.

Lemma getitem_setitem_other d k v k' :
  text_eqb k k' = false ->
  Py.getitem (Py.setitem d k v) k' = Py.getitem d k'.
Proof.
  intros H. induction d as [|[k0 v0] d IH]; simpl; [now rewrite H|].
  destruct (text_eqb k0 k) eqn:E; simpl.
  - apply text_eqb_eq in E. subst. now rewrite H.
  - now rewrite IH.
Qed.

Lemma fold_left_getitem {A : Type} (step : state -> A -> state) (l : list A)
    (k : text) :
  (forall st a, In a l ->
     Py.getitem (snd (step st a)) k = Py.getitem (snd st) k) ->
  forall st,
    Py.getitem (snd (fold_left step l st)) k = Py.getitem (snd st) k.
Proof.
  induction l as [|a l IH]; intros H st; [reflexivity|].
  simpl. rewrite IH by (intros; apply H; now right).
  apply H. now left.
Qed.

Lemma space_step_getitem st item k :
  text_eqb (label_replaced (fst item)) k = false ->
  Py.getitem (snd (space_step st item)) k = Py.getitem (snd st) k.
Proof.
  destruct st as [t c], item as [ch rep]. intros H. unfold space_step.
  destruct (_ =? 0); [reflexivity|]. now apply getitem_setitem_other.
Qed.

Lemma remove_step_getitem st ch k :
  text_eqb (label_removed ch) k = false ->
  Py.getitem (snd (remove_step st ch)) k = Py.getitem (snd st) k.
Proof.
  destruct st as [t c]. intros H. unfold remove_step.
  destruct (_ =? 0); [reflexivity|]. now apply getitem_setitem_other.
Qed.

Lemma mojibake_step_getitem st item k :
  text_eqb (label_mojibake (fst item) (snd item)) k = false ->
  Py.getitem (snd (mojibake_step st item)) k = Py.getitem (snd st) k.
Proof.
  destruct st as [t c], item as [bad good]. intros H. unfold mojibake_step.
  destruct (_ =? 0); [reflexivity|]. now apply getitem_setitem_other.
Qed.

(** The labels of the three table-driven stages are not the labels of the two
    context repairs. *)
Lemma table_labels k :
  k = label_truncated \/ k = label_stray ->
  (forall item, In item SPACE_SUBS ->
     text_eqb (label_replaced (fst item)) k = false)
  /\ (forall ch, In ch REMOVE_CHARS -> text_eqb (label_removed ch) k = false)
  /\ (forall item, In item MOJIBAKE_REMAP ->
        text_eqb (label_mojibake (fst item) (snd item)) k = false).
Proof.
  intros [-> | ->]; repeat split; intros x Hx;
    simpl in Hx; repeat destruct Hx as [<-|Hx]; try contradiction;
    vm_compute; reflexivity.
Qed.

(** Neither context label is in the log when the context repairs start. *)
Lemma tables_getitem t k :
  k = label_truncated \/ k = label_stray ->
  Py.getitem
    (snd (fold_left mojibake_step MOJIBAKE_REMAP
            (fold_left remove_step REMOVE_CHARS
               (fold_left space_step SPACE_SUBS (t, []))))) k = None.
Proof.
  intros Hk. destruct (table_labels k Hk) as (H1 & H2 & H3).
  rewrite (fold_left_getitem mojibake_step)
    by (intros; now apply mojibake_step_getitem, H3).
  rewrite (fold_left_getitem remove_step)
    by (intros; now apply remove_step_getitem, H2).
  rewrite (fold_left_getitem space_step)
    by (intros; now apply space_step_getitem, H1).
  reflexivity.
Qed.

Lemma tables_text t :
  fst (fold_left mojibake_step MOJIBAKE_REMAP
         (fold_left remove_step REMOVE_CHARS
            (fold_left space_step SPACE_SUBS (t, []))))
  = before_truncated t.
Proof.
  unfold before_truncated.
  rewrite (fold_left_fst mojibake_step
             (fun t item => Py.replace t (fst item) (snd item)))
    by (intros; now apply mojibake_step_text).
  rewrite (fold_left_fst remove_step (fun t ch => Py.replace t [ch] []))
    by (intros; apply remove_step_text).
  rewrite (fold_left_fst space_step
             (fun t item => Py.replace t [fst item] (snd item)))
    by (intros; apply space_step_text).
  reflexivity.
Qed.

Lemma sanitize_log_truncated t :
  Py.getitem (snd (sanitize t)) label_truncated
  = if snd (subn_truncated (before_truncated t)) =? 0 then None
    else Some (snd (subn_truncated (before_truncated t))).
Proof.
  rewrite sanitize_snd. unfold repaired.
  pose proof (tables_text t) as Ht.
  pose proof (tables_getitem t label_truncated (or_introl eq_refl)) as Hc.
  destruct (fold_left mojibake_step _ _) as [t3 c3]. cbn [fst snd] in Ht, Hc.
  subst t3. unfold truncated_step.
  destruct (subn_truncated (before_truncated t)) as [t4 n]. cbn [snd].
  assert (Hs : forall tx cx,
             Py.getitem (snd (stray_step (tx, cx))) label_truncated
             = Py.getitem cx label_truncated).
  { intros tx cx. unfold stray_step. destruct (_ =? 0); [reflexivity|].
    cbn [snd]. now apply getitem_setitem_other. }
  destruct (n =? 0); rewrite Hs; [exact Hc | apply getitem_setitem_same].
Qed.

Lemma sanitize_log_stray t :
  Py.getitem (snd (sanitize t)) label_stray
  = let n := Z.of_nat (length (before_stray t))
             - Z.of_nat (length (sub_stray (before_stray t))) in
    if n =? 0 then None else Some n.
Proof.
  rewrite sanitize_snd. unfold repaired.
  pose proof (tables_text t) as Ht.
  pose proof (tables_getitem t label_stray (or_intror eq_refl)) as Hc.
  destruct (fold_left mojibake_step _ _) as [t3 c3]. cbn [fst snd] in Ht, Hc.
  pose proof (truncated_step_text (t3, c3)) as H4. cbn [fst] in H4.
  assert (Hc4 : Py.getitem (snd (truncated_step (t3, c3))) label_stray = None).
  { unfold truncated_step. destruct (subn_truncated t3) as [t4 n].
    destruct (n =? 0); [exact Hc|]. cbn [snd].
    now rewrite getitem_setitem_other. }
  destruct (truncated_step (t3, c3)) as [t4 c4]. cbn [fst snd] in H4, Hc4.
  subst t3 t4. fold (before_stray t). unfold stray_step. cbv zeta.
  destruct (_ =? 0); cbn [snd]; [exact Hc4 | apply getitem_setitem_same].
Qed.

(** ** The stray marker *)

Lemma stray_scan t :
  Py.scan [A_circ] ahead_space [] 0 t = (spec_drop_stray t, spec_stray_count t).
Proof.
  induction t as [|c r IH]; [reflexivity|].
  cbn [spec_drop_stray spec_stray_count].
  destruct ((c =? A_circ) && ahead_space r) eqn:E.
  - rewrite scan_hit
      by (cbn [Py.startswith length skipn]; now rewrite andb_true_r).
    cbn [length Nat.sub skipn app]. rewrite IH. cbn [fst snd]. f_equal. lia.
  - rewrite scan_miss
      by (cbn [Py.startswith length skipn]; now rewrite andb_true_r).
    now rewrite IH.
Qed.

Lemma sub_stray_spec t : sub_stray t = spec_drop_stray t.
Proof. unfold sub_stray. now rewrite stray_scan. Qed.

Lemma spec_stray_length t :
  Z.of_nat (length t) - Z.of_nat (length (spec_drop_stray t))
  = spec_stray_count t.
Proof.
  induction t as [|c r IH]; [reflexivity|].
  cbn [spec_drop_stray spec_stray_count].
  destruct ((c =? A_circ) && ahead_space r); cbn [length]; lia.
Qed.

Lemma spec_stray_count_zero t :
  spec_stray_count t = 0 <-> has_stray t = false.
Proof.
  pose proof (stray_scan t) as H. split.
  - intros Hz.
    destruct (scan_zero [A_circ] ahead_space [] t) as [_ Hf];
      [discriminate | now rewrite H | exact Hf].
  - intros Hf. unfold has_stray in Hf.
    rewrite scan_not_found in H by assumption. now inversion H.
Qed.

Lemma ahead_space_app p c s :
  Py.isspace c = false -> ahead_space (p ++ c :: s) = ahead_space p.
Proof. intros H. destruct p as [|x p]; [simpl; exact H | reflexivity]. Qed.

(** The rule works on each side of a character that is not a space. *)
Lemma spec_drop_stray_app p c s :
  Py.isspace c = false ->
  spec_drop_stray (p ++ c :: s) = spec_drop_stray p ++ spec_drop_stray (c :: s).
Proof.
  intros H. induction p as [|x p IH]; [reflexivity|].
  simpl app. cbn [spec_drop_stray]. rewrite ahead_space_app, IH by assumption.
  now destruct (_ && _).
Qed.

Lemma A_circ_not_space : Py.isspace A_circ = false.
Proof. reflexivity. Qed.

(** C6, as amended.  The stray-marker stage deletes U+00C2 exactly where the
    character after it, in the text that reaches the stage, is whitespace; the
    whitespace stays in place at that stage, and a marker in front of anything
    else, or at the end, stays.  The log gets one entry with the number of
    deletions when there is one, and none otherwise.  (The line stage that
    follows may still strip the whitespace, and the earlier stages decide
    which character follows a marker.) *)
Theorem stray_marker_removed :
  (forall t counts,
     stray_step (t, counts)
     = (spec_drop_stray t,
        if spec_stray_count t =? 0 then counts
        else Py.setitem counts label_stray (spec_stray_count t)))
  /\ (forall p w s,
        Py.isspace w = true ->
        spec_drop_stray (p ++ [A_circ; w] ++ s)
        = spec_drop_stray p ++ [w] ++ spec_drop_stray s)
  /\ (forall p s,
        ahead_space s = false ->
        spec_drop_stray (p ++ [A_circ] ++ s)
        = spec_drop_stray p ++ [A_circ] ++ spec_drop_stray s)
  /\ (forall t, spec_stray_count t = 0 <-> has_stray t = false)
  /\ (forall t,
        fst (sanitize t) = normalize_lines (spec_drop_stray (before_stray t))
        /\ Py.getitem (snd (sanitize t)) label_stray
           = if spec_stray_count (before_stray t) =? 0 then None
             else Some (spec_stray_count (before_stray t))).
Proof.
  split; [|split; [|split; [|split]]].
  - intros t counts. unfold stray_step.
    rewrite sub_stray_spec, spec_stray_length. now destruct (_ =? 0).
  - intros p w s Hw. simpl app.
    rewrite spec_drop_stray_app by apply A_circ_not_space.
    cbn [spec_drop_stray ahead_space]. rewrite Z.eqb_refl, Hw. cbn [andb].
    destruct (Z.eqb_spec w A_circ) as [->|_]; [discriminate | reflexivity].
  - intros p s Hs. simpl app.
    rewrite spec_drop_stray_app by apply A_circ_not_space.
    cbn [spec_drop_stray]. now rewrite Hs, andb_false_r.
  - apply spec_stray_count_zero.
  - intros t. split.
    + rewrite sanitize_fst. unfold repaired_text.
      now rewrite sub_stray_spec.
    + rewrite sanitize_log_stray. cbv zeta.
      now rewrite sub_stray_spec, spec_stray_length.
Qed.

(** The claim C6 as it is stated fails on [sanitize]: the space after a marker
    at the end of a line is stripped by the line stage, so none remains; and a
    marker in front of a zero-width space, which is no whitespace, is deleted
    once the zero-width space is gone. *)
Lemma stray_marker_not_as_stated :
  sanitize (str "a" ++ [A_circ; 0x20]) = (str "a", [(label_stray, 1)])
  /\ fst (sanitize (str "a" ++ [A_circ; 0x20])) <> str "a "
  /\ ahead_space ([0x200B; 0x20] ++ str "b") = false
  /\ sanitize ([A_circ; 0x200B; 0x20] ++ str "b")
     = (str " b", [(label_removed 0x200B, 1); (label_stray, 1)]).
Proof. vm_compute. repeat split; discriminate. Qed.

(** ** The truncated quote *)

Lemma replace_char_app a b ch new :
  Py.replace (a ++ b) [ch] new
  = Py.replace a [ch] new ++ Py.replace b [ch] new.
Proof. rewrite !replace_char. apply flat_map_app. Qed.

Lemma spaces_text_app a b : spaces_text (a ++ b) = spaces_text a ++ spaces_text b.
Proof.
  unfold spaces_text, SPACE_SUBS. cbn [fold_left fst snd].
  now rewrite !replace_char_app.
Qed.

Lemma removed_text_app a b :
  removed_text (a ++ b) = removed_text a ++ removed_text b.
Proof.
  unfold removed_text, REMOVE_CHARS. cbn [fold_left].
  now rewrite !replace_char_app.
Qed.

Lemma replace_one c ch new :
  Py.replace [c] [ch] new = if c =? ch then new else [c].
Proof. rewrite replace_char. simpl. now destruct (c =? ch); rewrite ?app_nil_r. Qed.

Lemma spaces_text_char c :
  spaces_text [c] = [if exotic_space c then 0x20 else c].
Proof.
  unfold spaces_text, exotic_space, SPACE_SUBS.
  cbn [fold_left fst snd map existsb str].
  repeat (rewrite replace_one;
          match goal with
          | |- context [?x =? ?y] => destruct (Z.eqb_spec x y); subst
          end; cbn [orb]; try reflexivity; try lia;
          change (Z.of_N (N_of_ascii " ")) with 32).
Qed.

Lemma removed_text_char c :
  removed_text [c] = if invisible c then [] else [c].
Proof.
  unfold removed_text, invisible, REMOVE_CHARS. cbn [fold_left existsb].
  repeat (rewrite replace_one;
          match goal with
          | |- context [?x =? ?y] => destruct (Z.eqb_spec x y); subst
          end; cbn [orb]; try reflexivity; try lia).
Qed.

Lemma ahead_closing_head s :
  ahead_closing s
  = match s with
    | [] => true
    | c :: _ => Py.isspace c || existsb (Z.eqb c) closing_class
    end.
Proof.
  destruct s as [|c r]; [reflexivity|]. cbn [ahead_closing].
  destruct (Z.eqb_spec c LF) as [->|_]; [|reflexivity].
  now rewrite orb_true_r.
Qed.

Lemma closing_head_plain c :
  Py.isspace c || existsb (Z.eqb c) closing_class = true ->
  invisible c = false /\ c <> a_circ /\ mojibake_char c = false
  /\ (exotic_space c = true -> Py.isspace 0x20 = true).
Proof.
  unfold Py.isspace, closing_class, invisible, REMOVE_CHARS, a_circ,
    mojibake_char, MOJIBAKE_REMAP, a_circ, euro.
  cbn [existsb fst]. bool_to_Z. intros H. repeat split; try lia.
Qed.

Lemma skipn_length_app {A : Type} (x y : list A) :
  skipn (length x) (x ++ y) = y.
Proof. induction x as [|a x IH]; [reflexivity | exact IH]. Qed.

(** ** A scan around a character that starts the pattern *)

Section ScanApp.

(** The literal is [h :: old'] with no further [h] in it, and the lookahead
    does not see past an [h]. *)
Variables (h : char) (old' : text) (ahead : text -> bool) (new : text).
Local Abbreviation scan := (Py.scan (h :: old') ahead new).

Hypothesis old'_nonempty : old' <> [].
Hypothesis old'_no_h : ~ In h old'.
Hypothesis ahead_stops :
  forall x b, ahead (x ++ h :: b) = ahead (x ++ [h]).

Lemma scan_single : scan 0 [h] = ([h], 0).
Proof.
  rewrite scan_miss; [reflexivity|].
  cbn [Py.startswith]. rewrite Z.eqb_refl.
  destruct old'; [congruence | reflexivity].
Qed.

Lemma hit_app c a b :
  Py.startswith (c :: a ++ h :: b) (h :: old')
  && ahead (skipn (length (h :: old')) (c :: a ++ h :: b))
  = Py.startswith (c :: a ++ [h]) (h :: old')
    && ahead (skipn (length (h :: old')) (c :: a ++ [h])).
Proof.
  cbn [Py.startswith length skipn].
  rewrite !startswith_app_sep by assumption.
  destruct (Py.startswith a old') eqn:E; [|now rewrite !andb_false_r].
  apply startswith_iff in E as (a' & ->).
  rewrite <- !app_assoc, !skipn_length_app.
  now rewrite (ahead_stops a' b).
Qed.

(** What stands in front of the [h] is rewritten the same way whatever
    follows the [h]. *)
Lemma scan_app a :
  exists q k,
    scan 0 (a ++ [h]) = (q ++ [h], k)
    /\ forall b,
         scan 0 (a ++ h :: b)
         = (q ++ fst (scan 0 (h :: b)), k + snd (scan 0 (h :: b))).
Proof.
  remember (length a) as n eqn:Hn. revert a Hn.
  induction n as [n IH] using lt_wf_ind. intros a ->.
  destruct a as [|c a].
  - exists [], 0. split; [apply scan_single|].
    intros b. cbn [app]. now destruct (scan 0 (h :: b)).
  - destruct (Py.startswith (c :: a ++ [h]) (h :: old')
              && ahead (skipn (length (h :: old')) (c :: a ++ [h]))) eqn:E.
    + (* a match: the literal lies within [a] *)
      pose proof E as E'. apply andb_true_iff in E' as [E' _].
      cbn [Py.startswith] in E'. apply andb_true_iff in E' as [_ E'].
      rewrite startswith_app_sep in E' by assumption.
      apply startswith_iff in E' as (a' & ->).
      destruct (IH (length a')) with (a := a') as (q & k & Hq & Hb);
        [simpl; rewrite length_app; lia | reflexivity|].
      exists (new ++ q), (k + 1). split.
      * cbn [app]. rewrite scan_hit by exact E.
        cbn [length Nat.sub]. rewrite Nat.sub_0_r, <- app_assoc.
        rewrite skipn_length_app.
        rewrite Hq. cbn [fst snd]. now rewrite <- app_assoc.
      * intros b. cbn [app]. rewrite scan_hit by (rewrite hit_app; exact E).
        cbn [length Nat.sub]. rewrite Nat.sub_0_r, <- app_assoc.
        rewrite skipn_length_app.
        rewrite Hb. cbn [fst snd]. rewrite <- app_assoc. f_equal. lia.
    + destruct (IH (length a)) with (a := a) as (q & k & Hq & Hb);
        [simpl; lia | reflexivity|].
      exists (c :: q), k. split.
      * cbn [app]. rewrite scan_miss by exact E. now rewrite Hq.
      * intros b. cbn [app]. rewrite scan_miss by (rewrite hit_app; exact E).
        now rewrite Hb.
Qed.

End ScanApp.

(** The keys of the table: [â], [€] and a third character that is neither. *)
Lemma mojibake_items_shape item :
  In item MOJIBAKE_REMAP ->
  exists x, fst item = [a_circ; euro; x] /\ x <> a_circ
            /\ mojibake_char x = true.
Proof.
  unfold MOJIBAKE_REMAP. simpl In.
  intros H; repeat destruct H as [<-|H]; try contradiction;
    eexists; (split; [reflexivity | split; [discriminate | reflexivity]]).
Qed.

(** The replacement of a key leaves alone a text that starts with a character
    other than [â]. *)
Lemma replace_head c s old' new :
  c <> a_circ ->
  Py.replace (c :: s) (a_circ :: old') new
  = c :: Py.replace s (a_circ :: old') new.
Proof.
  intros H. unfold Py.replace. rewrite scan_miss; [reflexivity|].
  cbn [Py.startswith]. destruct (Z.eqb_spec c a_circ); [contradiction|].
  reflexivity.
Qed.

Lemma ahead_closing_replace s old' new :
  ahead_closing s = true ->
  ahead_closing (Py.replace s (a_circ :: old') new) = true.
Proof.
  destruct s as [|c s]; [reflexivity|].
  rewrite ahead_closing_head. intros H.
  destruct (closing_head_plain c H) as (_ & Hc & _).
  rewrite replace_head by assumption. now rewrite ahead_closing_head.
Qed.

(** One replacement pass around an occurrence of the truncated prefix. *)
Lemma replace_around x new q s :
  x <> a_circ -> mojibake_char x = true -> ahead_closing s = true ->
  exists q',
    Py.replace (q ++ [a_circ]) [a_circ; euro; x] new = q' ++ [a_circ]
    /\ Py.replace (q ++ a_circ :: euro :: s) [a_circ; euro; x] new
       = q' ++ a_circ :: euro :: Py.replace s [a_circ; euro; x] new.
Proof.
  intros Hx Hm Hs.
  destruct (scan_app a_circ [euro; x] Py.always new) with (a := q)
    as (q' & k & Hq & Hb).
  - discriminate.
  - intros [H|[H|[]]]; [discriminate | congruence].
  - reflexivity.
  - exists q'. unfold Py.replace. rewrite Hq, Hb. cbn [fst]. split; [reflexivity|].
    f_equal.
    assert (Hmiss : Py.startswith s [x] = false).
    { destruct s as [|c s]; [reflexivity|]. cbn [Py.startswith].
      rewrite ahead_closing_head in Hs.
      destruct (closing_head_plain c Hs) as (_ & _ & Hc & _).
      destruct (Z.eqb_spec c x) as [->|_]; [congruence | reflexivity]. }
    rewrite scan_miss
      by (cbn [Py.startswith] in *; now rewrite Hmiss, !andb_false_r).
    cbn [fst]. now rewrite scan_miss.
Qed.

(** The literal repair around an occurrence of the truncated prefix: the
    prefix stays, and the two sides are repaired on their own. *)
Lemma fold_replace_around (l : list (text * text)) :
  (forall item, In item l -> In item MOJIBAKE_REMAP) ->
  forall q s, ahead_closing s = true ->
  exists q',
    fold_left (fun t item => Py.replace t (fst item) (snd item)) l
      (q ++ [a_circ]) = q' ++ [a_circ]
    /\ fold_left (fun t item => Py.replace t (fst item) (snd item)) l
         (q ++ a_circ :: euro :: s)
       = q' ++ a_circ :: euro
            :: fold_left (fun t item => Py.replace t (fst item) (snd item)) l s
    /\ ahead_closing
         (fold_left (fun t item => Py.replace t (fst item) (snd item)) l s)
       = true.
Proof.
  induction l as [|[bad good] l IH]; intros Hl q s Hs.
  - exists q. now repeat split.
  - destruct (mojibake_items_shape (bad, good) (Hl _ (or_introl eq_refl)))
      as (x & Hk & Hx & Hm). cbn [fst] in Hk. subst bad.
    destruct (replace_around x good q s Hx Hm Hs) as (q1 & H1 & H2).
    cbn [fold_left fst snd]. rewrite H1, H2.
    apply IH; [intros; apply Hl; now right|].
    now apply ahead_closing_replace.
Qed.

Lemma ahead_closing_stops x b :
  ahead_closing (x ++ a_circ :: b) = ahead_closing (x ++ [a_circ]).
Proof.
  destruct x as [|c x]; [reflexivity|].
  cbn [app ahead_closing]. now destruct x.
Qed.

(** The truncated-quote repair around an occurrence in front of the end, a
    space or a closing character. *)
Lemma subn_truncated_around q s :
  ahead_closing s = true ->
  exists q' k,
    subn_truncated (q ++ [a_circ]) = (q' ++ [a_circ], k)
    /\ 0 <= k
    /\ subn_truncated (q ++ a_circ :: euro :: s)
       = (q' ++ dquote :: fst (subn_truncated s),
          k + (snd (subn_truncated s) + 1)).
Proof.
  intros Hs. unfold subn_truncated.
  destruct (scan_app a_circ [euro] ahead_closing [dquote]) with (a := q)
    as (q' & k & Hq & Hb).
  - discriminate.
  - intros [H|[]]; discriminate.
  - apply ahead_closing_stops.
  - exists q', k. split; [exact Hq|]. split.
    + pose proof (scan_count_nonneg [a_circ; euro] ahead_closing [dquote] 0
                    (q ++ [a_circ])) as Hk.
      now rewrite Hq in Hk.
    + rewrite Hb, scan_hit by (cbn [Py.startswith length skipn]; exact Hs).
      reflexivity.
Qed.

Lemma ahead_closing_tables s :
  ahead_closing s = true ->
  ahead_closing (removed_text (spaces_text s)) = true.
Proof.
  destruct s as [|c s]; [reflexivity|].
  rewrite ahead_closing_head. intros H.
  change (c :: s) with ([c] ++ s).
  rewrite spaces_text_app, removed_text_app, spaces_text_char, removed_text_char.
  assert (H' : Py.isspace (if exotic_space c then 0x20 else c)
               || existsb (Z.eqb (if exotic_space c then 0x20 else c))
                    closing_class = true)
    by (destruct (exotic_space c); [reflexivity | exact H]).
  destruct (closing_head_plain _ H') as (-> & _).
  cbn [app]. now rewrite ahead_closing_head.
Qed.

(** The first three stages around an occurrence of the truncated prefix. *)
Lemma before_truncated_around p s :
  ahead_closing s = true ->
  exists q,
    before_truncated (p ++ [a_circ]) = q ++ [a_circ]
    /\ before_truncated (p ++ [a_circ; euro] ++ s)
       = q ++ a_circ :: euro :: before_truncated s
    /\ ahead_closing (before_truncated s) = true.
Proof.
  intros Hs. unfold before_truncated, mojibake_text.
  rewrite !spaces_text_app, !removed_text_app.
  change (removed_text (spaces_text [a_circ])) with [a_circ].
  change (removed_text (spaces_text [a_circ; euro])) with [a_circ; euro].
  apply fold_replace_around; [auto|]. now apply ahead_closing_tables.
Qed.

(** All the repair stages around such an occurrence: the occurrence becomes a
    quotation mark, what is in front of it is repaired as in front of any
    [â], what follows it is repaired on its own. *)
Lemma repaired_text_around p s :
  ahead_closing s = true ->
  exists q k,
    repaired_text (p ++ [a_circ]) = q ++ [a_circ]
    /\ repaired_text (p ++ [a_circ; euro] ++ s)
       = q ++ [dquote] ++ repaired_text s
    /\ 0 <= k
    /\ snd (subn_truncated (before_truncated (p ++ [a_circ; euro] ++ s)))
       = k + (snd (subn_truncated (before_truncated s)) + 1).
Proof.
  intros Hs.
  destruct (before_truncated_around p s Hs) as (q3 & H1 & H2 & Hs3).
  destruct (subn_truncated_around q3 _ Hs3) as (q4 & k & H3 & Hk & H4).
  exists (sub_stray q4), k.
  unfold repaired_text. fold (before_truncated (p ++ [a_circ])).
  fold (before_truncated (p ++ [a_circ; euro] ++ s)).
  fold (before_truncated s).
  rewrite H1, H2, H3, H4. cbn [fst snd]. rewrite !sub_stray_spec.
  repeat split; try assumption.
  - rewrite spec_drop_stray_app by reflexivity. reflexivity.
  - rewrite spec_drop_stray_app by reflexivity. reflexivity.
Qed.

(** The last character of a text that does not end in whitespace is the last
    character of its normalisation. *)
Lemma splitlines_snoc x c :
  Py.islinebreak c = false ->
  exists ls l, Py.splitlines (x ++ [c]) = ls ++ [l ++ [c]].
Proof.
  intros Hc. remember (length x) as n eqn:Hn. revert x Hn.
  induction n as [n IH] using lt_wf_ind. intros x ->.
  destruct x as [|a x].
  - exists [], []. cbn [app]. now rewrite splitlines_char.
  - cbn [app].
    destruct (splitlines_cases a (x ++ [c]))
      as [(r' & -> & Hr & ->)|[[_ ->]|[Ha ->]]].
    + destruct x as [|b x]; [cbn [app] in Hr; injection Hr as -> _; discriminate|].
      cbn [app] in Hr. injection Hr as -> <-.
      destruct (IH (length x)) with (x := x) as (ls & l & ->);
        [simpl; lia | reflexivity|]. now exists ([] :: ls), l.
    + destruct (IH (length x)) with (x := x) as (ls & l & ->);
        [simpl; lia | reflexivity|]. now exists ([] :: ls), l.
    + destruct (IH (length x)) with (x := x) as (ls & l & ->);
        [simpl; lia | reflexivity|].
      destruct ls as [|l0 ls]; [now exists [], (a :: l)|].
      now exists ((a :: l0) :: ls), l.
Qed.

Lemma normalize_lines_snoc x c :
  Py.isspace c = false -> exists y, normalize_lines (x ++ [c]) = y ++ [c].
Proof.
  intros Hc. unfold normalize_lines.
  destruct (splitlines_snoc x c (isspace_nobreak c Hc)) as (ls & l & ->).
  rewrite map_app. cbn [map]. rewrite rstrip_fixed by assumption.
  destruct (join_snoc [LF] (map Py.rstrip ls) (l ++ [c])) as (p & ->).
  rewrite endswith_any_snoc, space_not_LF_CR by assumption.
  exists (p ++ l). now rewrite app_nil_r, app_assoc.
Qed.

(** [re.subn] counts the places where the pattern matches. *)
Lemma subn_truncated_count t :
  snd (subn_truncated t) = spec_truncated_count t.
Proof.
  unfold subn_truncated.
  remember (length t) as n eqn:Hn. revert t Hn.
  induction n as [n IH] using lt_wf_ind. intros t ->.
  destruct t as [|c r]; [reflexivity|].
  cbn [spec_truncated_count].
  destruct (Py.startswith (c :: r) [a_circ; euro]
            && ahead_closing (skipn 2 (c :: r))) eqn:E.
  - rewrite scan_hit by exact E. cbn [snd length Nat.sub].
    pose proof E as E'. apply andb_true_iff in E' as [E' _].
    apply startswith_iff in E' as (r' & [= -> ->]).
    cbn [skipn spec_truncated_count Py.startswith].
    change (euro =? a_circ) with false. cbn [andb].
    rewrite (IH (length r')) by (simpl; lia || reflexivity). lia.
  - rewrite scan_miss by exact E. cbn [snd].
    rewrite (IH (length r)) by (simpl; lia || reflexivity). lia.
Qed.

(** ** The line stage around a character that is no whitespace *)

Lemma lines_of_prepend x t l ls :
  nobreak x -> lines_of t (l :: ls) -> lines_of (x ++ t) ((x ++ l) :: ls).
Proof.
  intros Hx H.
  inversion H as [|l' Hl Hb E1 E2|l' tm rest ls' Hb Htm Hcr Hrest E1 E2]; subst.
  - apply lines_open; [now destruct x | now apply Forall_app].
  - rewrite app_assoc. apply lines_closed; auto. now apply Forall_app.
Qed.

Lemma terminator_breaks tm :
  terminator tm -> tm <> [] /\ Forall (fun c => Py.islinebreak c = true) tm.
Proof.
  intros [|c Hc]; (split; [discriminate | now repeat constructor]).
Qed.

(** The lines of a text that ends in the character [c], and the lines of the
    text with more after that [c]. *)
Lemma lines_of_around c t ls :
  Py.islinebreak c = false ->
  lines_of t ls ->
  forall x, t = x ++ [c] ->
  exists ls1 l1,
    ls = ls1 ++ [l1 ++ [c]]
    /\ forall z l2 ls2,
         lines_of (c :: z) ((c :: l2) :: ls2) ->
         lines_of (x ++ c :: z) (ls1 ++ (l1 ++ c :: l2) :: ls2).
Proof.
  intros Hc. induction 1 as [|l Hl Hb|l tm rest ls Hb Htm Hcr Hrest IH];
    intros x Hx.
  - now destruct x.
  - subst l. exists [], x. split; [reflexivity|].
    intros z l2 ls2 Hz. apply Forall_app in Hb as [Hb _].
    now apply (lines_of_prepend x (c :: z) (c :: l2) ls2).
  - destruct (rev_case rest) as [->|(rest' & c' & ->)].
    + (* the text would end with a line break *)
      exfalso. destruct (terminator_breaks tm Htm) as [Hne Hall].
      destruct (rev_case tm) as [->|(tm' & b & ->)]; [congruence|].
      rewrite app_nil_r, app_assoc in Hx. apply app_inj_tail in Hx as [_ ->].
      apply Forall_app in Hall as [_ Hall]. inversion Hall; congruence.
    + rewrite !app_assoc in Hx. apply app_inj_tail in Hx as [<- ->].
      destruct (IH rest' eq_refl) as (ls1 & l1 & -> & Hz).
      exists (l :: ls1), l1. split; [reflexivity|].
      intros z l2 ls2 H2. rewrite <- !app_assoc. cbn [app].
      apply lines_closed; auto.
      intros Htm' r. specialize (Hcr Htm').
      destruct rest' as [|a rest'].
      * cbn [app]. intros [= -> _]. discriminate.
      * cbn [app] in *. intros [= -> _]. now apply (Hcr (rest' ++ [c])).
Qed.

Lemma splitlines_around x c z :
  Py.islinebreak c = false ->
  exists ls1 l1 l2 ls2,
    Py.splitlines (x ++ [c]) = ls1 ++ [l1 ++ [c]]
    /\ Py.splitlines (c :: z) = (c :: l2) :: ls2
    /\ Py.splitlines (x ++ c :: z) = ls1 ++ (l1 ++ c :: l2) :: ls2.
Proof.
  intros Hc.
  destruct (lines_of_around c _ _ Hc (splitlines_lines_of (x ++ [c])) x eq_refl)
    as (ls1 & l1 & H1 & Hz).
  assert (H2 : exists l2 ls2, Py.splitlines (c :: z) = (c :: l2) :: ls2).
  { rewrite splitlines_char by assumption.
    destruct (Py.splitlines z) as [|l ls]; [now exists [], [] | now exists l, ls]. }
  destruct H2 as (l2 & ls2 & H2).
  exists ls1, l1, l2, ls2. repeat split; try assumption.
  symmetry. apply lines_of_splitlines, Hz.
  rewrite <- H2. apply splitlines_lines_of.
Qed.

Lemma rstrip_nonspace_cons c l :
  Py.isspace c = false -> exists r, Py.rstrip (c :: l) = c :: r.
Proof.
  intros Hc. rewrite rstrip_cons. destruct (Py.rstrip l) as [|y r'].
  - rewrite Hc. now exists [].
  - now exists (y :: r').
Qed.

Lemma rstrip_app_kept a b y r :
  Py.rstrip b = y :: r -> Py.rstrip (a ++ b) = a ++ y :: r.
Proof.
  intros Hb. induction a as [|x a IH]; [exact Hb|].
  cbn [app]. rewrite rstrip_cons, IH. now destruct a.
Qed.

Lemma join_split sep (a : list text) x (b : list text) :
  Py.join sep (a ++ x :: b)
  = flat_map (fun l => l ++ sep) a ++ x ++ flat_map (fun l => sep ++ l) b.
Proof.
  induction a as [|l a IH].
  - cbn [app flat_map]. revert x. induction b as [|l b IHb]; intros x.
    + cbn [Py.join flat_map]. now rewrite app_nil_r.
    + rewrite join_cons, IHb. cbn [flat_map]. now rewrite <- !app_assoc.
  - cbn [app flat_map].
    rewrite join_cons_nonempty by now destruct a.
    rewrite IH. now rewrite <- !app_assoc.
Qed.

Lemma endswith_any_app x c z cs :
  Py.endswith_any (x ++ c :: z) cs = Py.endswith_any (c :: z) cs.
Proof.
  unfold Py.endswith_any. rewrite rev_app_distr. cbn [rev].
  now destruct (rev z).
Qed.

(** The line stage works on each side of a character that is no whitespace. *)
Lemma normalize_lines_around x c z :
  Py.isspace c = false ->
  exists y z',
    normalize_lines (x ++ [c]) = y ++ [c]
    /\ normalize_lines (c :: z) = c :: z'
    /\ normalize_lines (x ++ c :: z) = y ++ c :: z'.
Proof.
  intros Hc.
  destruct (splitlines_around x c z (isspace_nobreak c Hc))
    as (ls1 & l1 & l2 & ls2 & H1 & H2 & H3).
  destruct (rstrip_nonspace_cons c l2 Hc) as (r & Hr).
  unfold normalize_lines. rewrite H1, H2, H3, !map_app. cbn [map].
  rewrite (rstrip_app_kept l1 (c :: l2) c r Hr), Hr.
  rewrite rstrip_fixed by assumption.
  rewrite (join_split [LF] (map Py.rstrip ls1) (l1 ++ [c]) []).
  pose proof (join_split [LF] [] (c :: r) (map Py.rstrip ls2)) as J.
  cbn [app flat_map] in J. rewrite J. clear J.
  rewrite (join_split [LF] (map Py.rstrip ls1) (l1 ++ c :: r)
             (map Py.rstrip ls2)).
  rewrite endswith_any_snoc, endswith_any_app.
  rewrite space_not_LF_CR by assumption.
  exists (flat_map (fun l => l ++ [LF]) (map Py.rstrip ls1) ++ l1),
    (r ++ flat_map (fun l => [LF] ++ l) (map Py.rstrip ls2)
       ++ (if Py.endswith_any (c :: z) [LF; CR] then [LF] else [])).
  cbn [flat_map app]. rewrite !app_nil_r. repeat split.
  - now rewrite <- !app_assoc.
  - now rewrite <- !app_assoc.
  - rewrite <- !app_assoc. cbn [app]. reflexivity.
Qed.

(** C5, as amended.  Where the two-character prefix [â€] stands in front of
    the end of the text, a whitespace character or one of the closing
    characters, [sanitize] puts the ASCII quotation mark U+0022 in its place:
    the text in front of the occurrence is repaired as it is in front of any
    [â], the text after it is repaired on its own, and the line stage runs
    over the result.  The change log has one entry for the rule, and it
    carries the number of all places where the pattern matched. *)
Theorem truncated_quote_repaired (p s : text) :
  ahead_closing s = true ->
  exists q n,
    repaired_text (p ++ [a_circ]) = q ++ [a_circ]
    /\ repaired_text (p ++ [a_circ; euro] ++ s)
       = q ++ [dquote] ++ repaired_text s
    /\ fst (sanitize (p ++ [a_circ; euro] ++ s))
       = normalize_lines (q ++ [dquote] ++ repaired_text s)
    /\ n = spec_truncated_count (before_truncated (p ++ [a_circ; euro] ++ s))
    /\ 1 <= n
    /\ Py.getitem (snd (sanitize (p ++ [a_circ; euro] ++ s))) label_truncated
       = Some n
    /\ (s = [] ->
        exists y, fst (sanitize (p ++ [a_circ; euro] ++ s)) = y ++ [dquote]).
Proof.
  intros Hs.
  destruct (repaired_text_around p s Hs) as (q & k & H1 & H2 & Hk & Hn).
  exists q, (spec_truncated_count
               (before_truncated (p ++ [a_circ; euro] ++ s))).
  rewrite <- subn_truncated_count, sanitize_fst, H2.
  assert (Hpos : 1 <= snd (subn_truncated
                             (before_truncated (p ++ [a_circ; euro] ++ s)))).
  { rewrite Hn.
    pose proof (scan_count_nonneg [a_circ; euro] ahead_closing [dquote] 0
                  (before_truncated s)).
    unfold subn_truncated. lia. }
  repeat split; try assumption.
  - rewrite sanitize_log_truncated.
    destruct (Z.eqb_spec
                (snd (subn_truncated
                        (before_truncated (p ++ [a_circ; euro] ++ s)))) 0);
      [lia | reflexivity].
  - intros ->. change (repaired_text []) with (@nil Z).
    rewrite app_nil_r.
    apply normalize_lines_snoc. reflexivity.
Qed.

Lemma truncated_quote_repaired_witness :
  ahead_closing (str ", he said") = true
  /\ exists q n,
       repaired_text (str "so" ++ [a_circ]) = q ++ [a_circ]
       /\ repaired_text (str "so" ++ [a_circ; euro] ++ str ", he said")
          = q ++ [dquote] ++ repaired_text (str ", he said")
       /\ fst (sanitize (str "so" ++ [a_circ; euro] ++ str ", he said"))
          = normalize_lines (q ++ [dquote] ++ repaired_text (str ", he said"))
       /\ n = spec_truncated_count
                (before_truncated
                   (str "so" ++ [a_circ; euro] ++ str ", he said"))
       /\ 1 <= n
       /\ Py.getitem
            (snd (sanitize (str "so" ++ [a_circ; euro] ++ str ", he said")))
            label_truncated = Some n
       /\ (str ", he said" = [] ->
           exists y,
             fst (sanitize (str "so" ++ [a_circ; euro] ++ str ", he said"))
             = y ++ [dquote]).
Proof.
  split; [reflexivity|].
  exact (truncated_quote_repaired (str "so") (str ", he said") eq_refl).
Defined.

(** The claim C5 as it is stated fails: what replaces the prefix is the ASCII
    quotation mark U+0022, not the right double quotation mark U+201D. *)
Lemma truncated_quote_is_ascii :
  sanitize (str "so" ++ [a_circ; euro])
  = (str "so" ++ [0x22], [(label_truncated, 1)])
  /\ fst (sanitize (str "so" ++ [a_circ; euro])) <> str "so" ++ [0x201D]
  /\ ~ In 0x201D (fst (sanitize (str "so" ++ [a_circ; euro]))).
Proof.
  vm_compute. repeat split; try discriminate.
  intros H. repeat destruct H as [H|H]; try discriminate; exact H.
Qed.

(** * Further properties of the program *)

(** ** The sanitizer *)

(** X1.  The last stage of [sanitize] is idempotent: normalising line endings
    and trailing whitespace a second time changes nothing. *)
Theorem normalize_lines_idempotent (t : text) :
  normalize_lines (normalize_lines t) = normalize_lines t.
Proof. apply normalize_lines_idem. Qed.

Lemma render_In x ls final :
  In x (render ls final) -> x = LF \/ exists l, In l ls /\ In x l.
Proof.
  unfold render. intros H. apply in_app_or in H as [H|H].
  - apply join_In in H as [[<-|[]]|H]; auto.
  - destruct final; [|destruct H]. destruct H as [<-|[]]. now left.
Qed.

(** X2.  The shape of the cleaned text: it is made of lines that hold no line
    break and end in no whitespace, joined by single LF characters, with at
    most one LF after the last line; so LF is the only line-break character
    left (no CR, form feed, NEL or Unicode separator). *)
Theorem sanitize_output_lines (t : text) :
  (exists ls final,
     fst (sanitize t) = render ls final
     /\ Forall (fun l => nobreak l /\ Py.rstrip l = l) ls
     /\ (final = true -> ls <> []))
  /\ Forall (fun c => Py.islinebreak c = true -> c = LF) (fst (sanitize t)).
Proof.
  assert (H : exists ls final,
             fst (sanitize t) = render ls final
             /\ Forall stripped_line ls /\ (final = true -> ls <> [])).
  { exists (map Py.rstrip (Py.splitlines (repaired_text t))),
      (Py.endswith_any (repaired_text t) [LF; CR]).
    rewrite sanitize_fst. split; [reflexivity|].
    split; [apply normalize_lines_lines|].
    intros He. apply endswith_any_nonempty in He.
    destruct (repaired_text t) as [|c r]; [congruence|].
    pose proof (splitlines_nonempty c r).
    destruct (Py.splitlines (c :: r)); [congruence | discriminate]. }
  split; [exact H|].
  destruct H as (ls & final & -> & Hls & _).
  apply Forall_forall. intros c Hc Hb.
  apply render_In in Hc as [->|(l & Hl & Hc)]; [reflexivity|].
  rewrite Forall_forall in Hls. destruct (Hls l Hl) as [Hn _].
  unfold nobreak in Hn. rewrite Forall_forall in Hn.
  rewrite (Hn c Hc) in Hb. discriminate.
Qed.

(** X3.  No key of [MOJIBAKE_REMAP] occurs in the cleaned text: each literal
    is replaced everywhere, and no later pass puts one together again. *)
Theorem sanitize_removes_mojibake (t : text) :
  Forall (fun item => contains (fst (sanitize t)) (fst item) = false)
    MOJIBAKE_REMAP.
Proof.
  apply Forall_forall. intros item Hin.
  pose proof (sanitize_no_mojibake t) as H. unfold has_mojibake in H.
  destruct (contains (fst (sanitize t)) (fst item)) eqn:E; [|reflexivity].
  assert (existsb (fun item => contains (fst (sanitize t)) (fst item))
            MOJIBAKE_REMAP = true); [|congruence].
  apply existsb_exists. exists item. split; assumption.
Qed.

(** X4.  [sanitize] brings in nothing but ASCII: every character of the
    cleaned text is a character of the input, or a space, an apostrophe, a
    quotation mark, a hyphen, a full stop or a newline. *)
Theorem sanitize_brings_in_ascii_only (t : text) :
  Forall (fun c => In c t \/ In c [0x20; 0x27; 0x22; 0x2D; 0x2E; LF])
    (fst (sanitize t)).
Proof.
  apply Forall_forall. intros c Hc. rewrite sanitize_fst in Hc.
  apply normalize_lines_In in Hc as [->|Hc]; [right; simpl; tauto|].
  apply repaired_text_In in Hc as [[Hp|[->|Hc]] _].
  - right. unfold punctuation in Hp. simpl. lia.
  - right. now left.
  - now left.
Qed.

(** ** The change log *)

Lemma setitem_nonempty d k v : Py.setitem d k v <> [].
Proof. destruct d as [|[k0 v0] d]; simpl; [|destruct (text_eqb k0 k)]; discriminate. Qed.

Lemma fold_log_nil {A : Type} (step : state -> A -> state)
    (quiet : text -> A -> Prop) (l : list A) :
  (forall t c a, snd (step (t, c) a) = [] ->
     c = [] /\ quiet t a /\ step (t, c) a = (t, c)) ->
  forall t c, snd (fold_left step l (t, c)) = [] ->
    c = [] /\ (forall a, In a l -> quiet t a)
    /\ fold_left step l (t, c) = (t, c).
Proof.
  intros Hstep. induction l as [|a l IH]; intros t c H.
  - simpl in *. now repeat split.
  - cbn [fold_left] in *. destruct (step (t, c) a) as [t1 c1] eqn:E.
    destruct (IH t1 c1 H) as (-> & Hq & Hf).
    assert (Hs : snd (step (t, c) a) = []) by now rewrite E.
    destruct (Hstep t c a Hs) as (-> & Hqa & Hfix).
    rewrite Hfix in E. injection E as <-.
    repeat split; [|exact Hf]. intros a' [<-|Hin]; auto.
Qed.

Lemma space_step_nil t c item :
  snd (space_step (t, c) item) = [] ->
  c = [] /\ Py.count t [fst item] = 0 /\ space_step (t, c) item = (t, c).
Proof.
  destruct item as [ch rep]. unfold space_step. cbn [fst].
  destruct (Z.eqb_spec (Py.count t [ch]) 0) as [E|E]; cbn [snd].
  - now intros ->.
  - intros H. now apply setitem_nonempty in H.
Qed.

Lemma remove_step_nil t c ch :
  snd (remove_step (t, c) ch) = [] ->
  c = [] /\ Py.count t [ch] = 0 /\ remove_step (t, c) ch = (t, c).
Proof.
  unfold remove_step.
  destruct (Z.eqb_spec (Py.count t [ch]) 0) as [E|E]; cbn [snd].
  - now intros ->.
  - intros H. now apply setitem_nonempty in H.
Qed.

Lemma mojibake_step_nil t c item :
  snd (mojibake_step (t, c) item) = [] ->
  c = [] /\ Py.count t (fst item) = 0 /\ mojibake_step (t, c) item = (t, c).
Proof.
  destruct item as [bad good]. unfold mojibake_step. cbn [fst].
  destruct (Z.eqb_spec (Py.count t bad) 0) as [E|E]; cbn [snd].
  - now intros ->.
  - intros H. now apply setitem_nonempty in H.
Qed.

Lemma truncated_step_nil t c :
  snd (truncated_step (t, c)) = [] ->
  c = [] /\ has_truncated t = false /\ truncated_step (t, c) = (t, c).
Proof.
  unfold truncated_step.
  destruct (subn_truncated t) as [t' n] eqn:E.
  destruct (Z.eqb_spec n 0) as [->|Hn]; cbn [snd].
  - intros ->. repeat split.
    destruct (scan_zero [a_circ; euro] ahead_closing [dquote] t) as [_ Hf];
      [discriminate | | exact Hf].
    unfold subn_truncated in E. now rewrite E.
  - intros H. now apply setitem_nonempty in H.
Qed.

Lemma stray_step_nil t c :
  snd (stray_step (t, c)) = [] ->
  c = [] /\ has_stray t = false /\ stray_step (t, c) = (t, c).
Proof.
  unfold stray_step. rewrite sub_stray_spec, spec_stray_length.
  destruct (Z.eqb_spec (spec_stray_count t) 0) as [E|E]; cbn [snd].
  - intros ->. apply spec_stray_count_zero in E.
    repeat split; [exact E|].
    now rewrite <- sub_stray_spec, sub_stray_absent.
  - intros H. now apply setitem_nonempty in H.
Qed.

Lemma count_zero_not_in t ch : Py.count t [ch] = 0 -> ~ In ch t.
Proof.
  intros H Hin. apply count_zero_not_contains in H; [|discriminate].
  rewrite contains_char in H.
  assert (existsb (Z.eqb ch) t = true); [|congruence].
  apply existsb_exists. exists ch. split; [assumption | apply Z.eqb_refl].
Qed.

Lemma clean_intro t :
  (forall ch, In ch (map fst SPACE_SUBS) -> ~ In ch t) ->
  (forall ch, In ch REMOVE_CHARS -> ~ In ch t) ->
  (forall item, In item MOJIBAKE_REMAP -> contains t (fst item) = false) ->
  has_truncated t = false -> has_stray t = false ->
  clean t = true.
Proof.
  intros Hs Hr Hm Ht Hy. unfold clean.
  rewrite Ht, Hy, has_mojibake_false by assumption.
  rewrite !andb_true_r. apply forallb_forall. intros c Hc.
  apply andb_true_iff. split; apply negb_true_iff.
  - destruct (exotic_space c) eqn:E; [|reflexivity].
    apply existsb_exists in E as (x & Hx & Hcx). apply Z.eqb_eq in Hcx. subst x.
    now destruct (Hs c Hx).
  - destruct (invisible c) eqn:E; [|reflexivity].
    apply existsb_exists in E as (x & Hx & Hcx). apply Z.eqb_eq in Hcx. subst x.
    now destruct (Hr c Hx).
Qed.

(** X5.  The change log is empty exactly when the text holds none of the
    targets of the repair stages; the cleaned text is then the input with
    only its line endings and trailing whitespace normalised.  So an empty log
    together with a changed text means a purely cosmetic change. *)
Theorem sanitize_log_empty_iff (t : text) :
  (snd (sanitize t) = [] <-> clean t = true)
  /\ (snd (sanitize t) = [] -> fst (sanitize t) = normalize_lines t).
Proof.
  assert (H : snd (sanitize t) = [] -> clean t = true).
  { rewrite sanitize_snd. unfold repaired. intros H.
    destruct (fold_left mojibake_step _ _) as [t3 c3] eqn:E3.
    destruct (truncated_step (t3, c3)) as [t4 c4] eqn:E4.
    apply stray_step_nil in H as (-> & Hy & _).
    assert (H4 : snd (truncated_step (t3, c3)) = []) by now rewrite E4.
    apply truncated_step_nil in H4 as (-> & Ht & H4). rewrite H4 in E4.
    injection E4 as <-.
    destruct (fold_left remove_step _ _) as [t2 c2] eqn:E2.
    assert (H3 : snd (fold_left mojibake_step MOJIBAKE_REMAP (t2, c2)) = [])
      by now rewrite E3.
    apply (fold_log_nil mojibake_step
             (fun t item => Py.count t (fst item) = 0)) in H3
      as (-> & Hm & H3); [|intros; now apply mojibake_step_nil].
    rewrite H3 in E3. injection E3 as <-.
    destruct (fold_left space_step _ _) as [t1 c1] eqn:E1.
    assert (H2 : snd (fold_left remove_step REMOVE_CHARS (t1, c1)) = [])
      by now rewrite E2.
    apply (fold_log_nil remove_step (fun t ch => Py.count t [ch] = 0)) in H2
      as (-> & Hr & H2); [|intros; now apply remove_step_nil].
    rewrite H2 in E2. injection E2 as <-.
    assert (H1 : snd (fold_left space_step SPACE_SUBS (t, [])) = [])
      by now rewrite E1.
    apply (fold_log_nil space_step
             (fun t item => Py.count t [fst item] = 0)) in H1
      as (_ & Hs & H1); [|intros; now apply space_step_nil].
    pose proof (eq_trans (eq_sym H1) E1) as E1'. injection E1' as <-.
    apply clean_intro; try assumption.
    - intros ch Hin. apply in_map_iff in Hin as (item & <- & Hin).
      now apply count_zero_not_in, Hs.
    - intros ch Hin. now apply count_zero_not_in, Hr.
    - intros item Hin. apply count_zero_not_contains;
        [now apply mojibake_keys_nonempty | now apply Hm]. }
  split; [split; [exact H|]|].
  - intros Hc. now rewrite sanitize_clean.
  - intros Hn. now rewrite sanitize_clean by auto.
Qed.

Lemma setitem_keys x d k v :
  In x (map fst (Py.setitem d k v)) -> In x (map fst d) \/ x = k.
Proof.
  induction d as [|[k0 v0] d IH]; simpl.
  - intros [<-|[]]. now right.
  - destruct (text_eqb k0 k); simpl; [tauto|].
    intros [<-|H]; [tauto|]. apply IH in H. tauto.
Qed.

Lemma setitem_wf d k v : log_wf d -> 1 <= v -> log_wf (Py.setitem d k v).
Proof.
  intros [Hk Hv] Hpos. induction d as [|[k0 v0] d IH]; simpl.
  - split; repeat constructor; [intros [] | assumption].
  - inversion Hk as [|? ? Hk0 Hk']; inversion Hv as [|? ? Hv0 Hv']; subst.
    destruct (text_eqb k0 k) eqn:E.
    + split; simpl; constructor; assumption.
    + destruct (IH Hk' Hv') as [IHk IHv].
      split; simpl; constructor; try assumption.
      intros Hin. apply setitem_keys in Hin as [Hin| ->]; [contradiction|].
      now rewrite text_eqb_refl in E.
Qed.

Lemma count_nonneg t old : 0 <= Py.count t old.
Proof.
  unfold Py.count. destruct old; [lia | apply scan_count_nonneg].
Qed.

Lemma spec_stray_count_nonneg t : 0 <= spec_stray_count t.
Proof.
  induction t as [|c r IH]; cbn [spec_stray_count]; [lia|].
  destruct (_ && _); lia.
Qed.

Lemma fold_left_wf {A : Type} (step : state -> A -> state) (l : list A) :
  (forall st a, log_wf (snd st) -> log_wf (snd (step st a))) ->
  forall st, log_wf (snd st) -> log_wf (snd (fold_left step l st)).
Proof.
  intros H. induction l as [|a l IH]; intros st Hst; [exact Hst|].
  simpl. apply IH, H, Hst.
Qed.

Lemma space_step_wf st item : log_wf (snd st) -> log_wf (snd (space_step st item)).
Proof.
  destruct st as [t c], item as [ch rep]. unfold space_step. cbn [snd].
  intros H. destruct (Z.eqb_spec (Py.count t [ch]) 0); [exact H|].
  cbn [snd]. apply setitem_wf; [exact H|].
  pose proof (count_nonneg t [ch]). lia.
Qed.

Lemma remove_step_wf st ch : log_wf (snd st) -> log_wf (snd (remove_step st ch)).
Proof.
  destruct st as [t c]. unfold remove_step. cbn [snd].
  intros H. destruct (Z.eqb_spec (Py.count t [ch]) 0); [exact H|].
  cbn [snd]. apply setitem_wf; [exact H|].
  pose proof (count_nonneg t [ch]). lia.
Qed.

Lemma mojibake_step_wf st item :
  log_wf (snd st) -> log_wf (snd (mojibake_step st item)).
Proof.
  destruct st as [t c], item as [bad good]. unfold mojibake_step. cbn [snd].
  intros H. destruct (Z.eqb_spec (Py.count t bad) 0); [exact H|].
  cbn [snd]. apply setitem_wf; [exact H|].
  pose proof (count_nonneg t bad). lia.
Qed.

Lemma truncated_step_wf st : log_wf (snd st) -> log_wf (snd (truncated_step st)).
Proof.
  destruct st as [t c]. unfold truncated_step. cbn [snd]. intros H.
  pose proof (scan_count_nonneg [a_circ; euro] ahead_closing [dquote] 0 t) as Hn.
  unfold subn_truncated. destruct (Py.scan _ _ _ _ t) as [t' n]. cbn [snd] in Hn.
  destruct (Z.eqb_spec n 0); [exact H|].
  cbn [snd]. apply setitem_wf; [exact H | lia].
Qed.

Lemma stray_step_wf st : log_wf (snd st) -> log_wf (snd (stray_step st)).
Proof.
  destruct st as [t c]. unfold stray_step. cbn [snd]. intros H.
  rewrite sub_stray_spec, spec_stray_length.
  pose proof (spec_stray_count_nonneg t).
  destruct (Z.eqb_spec (spec_stray_count t) 0); [exact H|].
  cbn [snd]. apply setitem_wf; [exact H | lia].
Qed.

(** X6.  The change log names no rule twice, and every count in it is at
    least one: a rule that found nothing leaves no entry. *)
Theorem sanitize_log_wellformed (t : text) :
  NoDup (map fst (snd (sanitize t)))
  /\ Forall (fun entry => 1 <= snd entry) (snd (sanitize t)).
Proof.
  change (log_wf (snd (sanitize t))).
  rewrite sanitize_snd. unfold repaired.
  apply stray_step_wf, truncated_step_wf.
  apply fold_left_wf; [intros; now apply mojibake_step_wf|].
  apply fold_left_wf; [intros; now apply remove_step_wf|].
  apply fold_left_wf; [intros; now apply space_step_wf|].
  split; constructor.
Qed.

(** ** What the log counts *)

Lemma count_char_app a b ch :
  Py.count (a ++ b) [ch] = Py.count a [ch] + Py.count b [ch].
Proof.
  induction a as [|c a IH]; [reflexivity|].
  cbn [app]. rewrite !count_char_cons, IH. lia.
Qed.

Lemma count_char_occ t ch :
  Py.count t [ch] = Z.of_nat (count_occ Z.eq_dec t ch).
Proof.
  induction t as [|c r IH]; [reflexivity|].
  rewrite count_char_cons, IH. cbn [count_occ].
  destruct (Z.eq_dec c ch) as [->|Hne].
  - rewrite Z.eqb_refl. lia.
  - destruct (Z.eqb_spec c ch); [contradiction | lia].
Qed.

(** Replacing one character does not change how often another one occurs. *)
Lemma count_replace_other t a new ch :
  ch <> a -> ~ In ch new ->
  Py.count (Py.replace t [a] new) [ch] = Py.count t [ch].
Proof.
  intros Hne Hnew. rewrite replace_char.
  induction t as [|c r IH]; [reflexivity|].
  cbn [flat_map]. rewrite count_char_app, IH, count_char_cons.
  destruct (Z.eqb_spec c a) as [->|Hca].
  - rewrite count_char_absent by assumption.
    destruct (Z.eqb_spec a ch); [congruence | reflexivity].
  - rewrite count_char_cons. change (Py.count [] [ch]) with 0. lia.
Qed.

Lemma replaced_labels_differ a b :
  In a (map fst SPACE_SUBS) -> In b (map fst SPACE_SUBS) -> a <> b ->
  text_eqb (label_replaced a) (label_replaced b) = false.
Proof.
  simpl. intros Ha Hb.
  repeat destruct Ha as [<-|Ha]; try contradiction;
    repeat destruct Hb as [<-|Hb]; try contradiction;
    intros Hne; try congruence; vm_compute; reflexivity.
Qed.

Lemma removed_labels_differ a b :
  In a REMOVE_CHARS -> In b REMOVE_CHARS -> a <> b ->
  text_eqb (label_removed a) (label_removed b) = false.
Proof.
  simpl. intros Ha Hb.
  repeat destruct Ha as [<-|Ha]; try contradiction;
    repeat destruct Hb as [<-|Hb]; try contradiction;
    intros Hne; try congruence; vm_compute; reflexivity.
Qed.

Lemma space_subs_plain item ch :
  In item SPACE_SUBS -> In ch (map fst SPACE_SUBS) \/ In ch REMOVE_CHARS ->
  ~ In ch (snd item).
Proof.
  simpl. intros Hi Hc Hin.
  repeat destruct Hi as [<-|Hi]; try contradiction;
    simpl in Hin; destruct Hin as [<-|[]]; lia.
Qed.

(** The loop over [SPACE_SUBS]: the entry of one of its characters. *)
Lemma fold_space_getitem (l : list (char * text)) ch :
  incl l SPACE_SUBS -> NoDup (map fst l) -> In ch (map fst l) ->
  forall t c,
    Py.getitem c (label_replaced ch) = None ->
    Py.getitem (snd (fold_left space_step l (t, c))) (label_replaced ch)
    = if Py.count t [ch] =? 0 then None else Some (Py.count t [ch]).
Proof.
  intros Hl Hnd Hch. induction l as [|[a rep] l IH]; [destruct Hch|].
  intros t c Hc. cbn [fold_left].
  assert (Ha : In a (map fst SPACE_SUBS))
    by (apply (in_map fst) with (x := (a, rep)), Hl; now left).
  inversion Hnd as [|? ? Hnotin Hnd']; subst.
  destruct (Z.eq_dec ch a) as [->|Hne].
  - (* this round writes the entry, the later rounds leave it *)
    rewrite (fold_left_getitem space_step).
    + unfold space_step. destruct (Py.count t [a] =? 0); [exact Hc|].
      cbn [snd]. apply getitem_setitem_same.
    + intros st [b rep'] Hb. apply space_step_getitem. cbn [fst].
      apply replaced_labels_differ; [|assumption|].
      * apply (in_map fst) with (x := (b, rep')), Hl. now right.
      * intros ->. apply Hnotin. now apply (in_map fst) with (x := (a, rep')).
  - destruct Hch as [Hch|Hch]; [cbn [fst] in Hch; congruence|].
    assert (Hin : In ch (map fst SPACE_SUBS)).
    { apply in_map_iff in Hch as (item & <- & Hitem).
      apply (in_map fst), Hl. now right. }
    pose proof (space_step_text (t, c) (a, rep)) as Ht.
    pose proof (space_step_getitem (t, c) (a, rep) (label_replaced ch)
                  (replaced_labels_differ a ch Ha Hin (not_eq_sym Hne))) as Hg.
    destruct (space_step (t, c) (a, rep)) as [t1 c1].
    cbn [fst snd] in Ht, Hg. subst t1.
    rewrite IH; [| intros x Hx; apply Hl; now right | assumption | assumption
                 | now rewrite Hg].
    rewrite count_replace_other; [reflexivity | assumption|].
    apply (space_subs_plain (a, rep)); [apply Hl; now left | now left].
Qed.

(** The loop over [REMOVE_CHARS]: the entry of one of its characters. *)
Lemma fold_remove_getitem (l : list char) ch :
  incl l REMOVE_CHARS -> NoDup l -> In ch l ->
  forall t c,
    Py.getitem c (label_removed ch) = None ->
    Py.getitem (snd (fold_left remove_step l (t, c))) (label_removed ch)
    = if Py.count t [ch] =? 0 then None else Some (Py.count t [ch]).
Proof.
  intros Hl Hnd Hch. induction l as [|a l IH]; [destruct Hch|].
  intros t c Hc. cbn [fold_left].
  assert (Ha : In a REMOVE_CHARS) by (apply Hl; now left).
  inversion Hnd as [|? ? Hnotin Hnd']; subst.
  destruct (Z.eq_dec ch a) as [->|Hne].
  - rewrite (fold_left_getitem remove_step).
    + unfold remove_step. destruct (Py.count t [a] =? 0); [exact Hc|].
      cbn [snd]. apply getitem_setitem_same.
    + intros st b Hb. apply remove_step_getitem.
      apply removed_labels_differ; [apply Hl; now right | assumption|].
      intros ->. contradiction.
  - destruct Hch as [Hch|Hch]; [congruence|].
    assert (Hin : In ch REMOVE_CHARS) by (apply Hl; now right).
    pose proof (remove_step_text (t, c) a) as Ht.
    pose proof (remove_step_getitem (t, c) a (label_removed ch)
                  (removed_labels_differ a ch Ha Hin (not_eq_sym Hne))) as Hg.
    destruct (remove_step (t, c) a) as [t1 c1].
    cbn [fst snd] in Ht, Hg. subst t1.
    rewrite IH; [| intros x Hx; apply Hl; now right | assumption | assumption
                 | now rewrite Hg].
    rewrite count_replace_other; [reflexivity | assumption | intros []].
Qed.

Lemma truncated_step_getitem st k :
  text_eqb label_truncated k = false ->
  Py.getitem (snd (truncated_step st)) k = Py.getitem (snd st) k.
Proof.
  destruct st as [t c]. intros H. unfold truncated_step.
  destruct (subn_truncated t) as [t' n]. destruct (n =? 0); [reflexivity|].
  now apply getitem_setitem_other.
Qed.

Lemma stray_step_getitem st k :
  text_eqb label_stray k = false ->
  Py.getitem (snd (stray_step st)) k = Py.getitem (snd st) k.
Proof.
  destruct st as [t c]. intros H. unfold stray_step.
  destruct (_ =? 0); [reflexivity|]. now apply getitem_setitem_other.
Qed.

(** The labels of the later stages are not the label of a replaced space. *)
Lemma labels_after_replaced ch :
  In ch (map fst SPACE_SUBS) ->
  (forall x, In x REMOVE_CHARS ->
     text_eqb (label_removed x) (label_replaced ch) = false)
  /\ (forall item, In item MOJIBAKE_REMAP ->
        text_eqb (label_mojibake (fst item) (snd item)) (label_replaced ch)
        = false)
  /\ text_eqb label_truncated (label_replaced ch) = false
  /\ text_eqb label_stray (label_replaced ch) = false.
Proof.
  simpl. intros Hc. repeat destruct Hc as [<-|Hc]; try contradiction;
    (split; [|split; [|split]]);
    try (vm_compute; reflexivity);
    intros x Hx; simpl in Hx; repeat destruct Hx as [<-|Hx];
      try contradiction; vm_compute; reflexivity.
Qed.

(** Nor are the labels of the other stages the label of a removed character. *)
Lemma labels_around_removed ch :
  In ch REMOVE_CHARS ->
  (forall item, In item SPACE_SUBS ->
     text_eqb (label_replaced (fst item)) (label_removed ch) = false)
  /\ (forall item, In item MOJIBAKE_REMAP ->
        text_eqb (label_mojibake (fst item) (snd item)) (label_removed ch)
        = false)
  /\ text_eqb label_truncated (label_removed ch) = false
  /\ text_eqb label_stray (label_removed ch) = false.
Proof.
  simpl. intros Hc. repeat destruct Hc as [<-|Hc]; try contradiction;
    (split; [|split; [|split]]);
    try (vm_compute; reflexivity);
    intros x Hx; simpl in Hx; repeat destruct Hx as [<-|Hx];
      try contradiction; vm_compute; reflexivity.
Qed.

Lemma count_spaces_text t ch :
  In ch REMOVE_CHARS -> Py.count (spaces_text t) [ch] = Py.count t [ch].
Proof.
  intros Hc. unfold spaces_text.
  assert (H : forall l, incl l SPACE_SUBS -> forall t,
            Py.count
              (fold_left (fun t item => Py.replace t [fst item] (snd item)) l t)
              [ch] = Py.count t [ch]).
  { induction l as [|item l IH]; intros Hl t0; [reflexivity|].
    cbn [fold_left]. rewrite IH by (intros x Hx; apply Hl; now right).
    apply count_replace_other.
    - intros ->. revert Hc.
      assert (Hi : In (fst item) (map fst SPACE_SUBS))
        by (apply in_map, Hl; now left).
      revert Hi. generalize (fst item). intros z. simpl. lia.
    - apply (space_subs_plain item); [apply Hl; now left | now right]. }
  apply H, incl_refl.
Qed.

Lemma tables_nodup : NoDup (map fst SPACE_SUBS) /\ NoDup REMOVE_CHARS.
Proof.
  split; simpl; repeat constructor; simpl; intros H;
    repeat destruct H as [H|H]; try discriminate; exact H.
Qed.

(** X7.  The accounting of the two character tables: for each space of
    [SPACE_SUBS] and each character of [REMOVE_CHARS], the change log holds
    the number of times that character occurs in the input, under its own
    label, and no entry when it does not occur. *)
Theorem sanitize_counts_characters (t : text) (ch : char) :
  (In ch (map fst SPACE_SUBS) ->
   Py.getitem (snd (sanitize t)) (label_replaced ch)
   = match count_occ Z.eq_dec t ch with
     | O => None
     | S _ => Some (Z.of_nat (count_occ Z.eq_dec t ch))
     end)
  /\ (In ch REMOVE_CHARS ->
      Py.getitem (snd (sanitize t)) (label_removed ch)
      = match count_occ Z.eq_dec t ch with
        | O => None
        | S _ => Some (Z.of_nat (count_occ Z.eq_dec t ch))
        end).
Proof.
  assert (Hn : forall n : nat,
            (if Z.of_nat n =? 0 then None else Some (Z.of_nat n))
            = match n with O => None | S _ => Some (Z.of_nat n) end)
    by now intros [|n].
  destruct tables_nodup as [Nd1 Nd2].
  rewrite sanitize_snd. unfold repaired. split; intros Hch.
  - destruct (labels_after_replaced ch Hch) as (L1 & L2 & L3 & L4).
    rewrite stray_step_getitem, truncated_step_getitem by assumption.
    rewrite (fold_left_getitem mojibake_step)
      by (intros; now apply mojibake_step_getitem, L2).
    rewrite (fold_left_getitem remove_step)
      by (intros; now apply remove_step_getitem, L1).
    rewrite fold_space_getitem;
      [| apply incl_refl | assumption | assumption | reflexivity].
    now rewrite count_char_occ, Hn.
  - destruct (labels_around_removed ch Hch) as (L1 & L2 & L3 & L4).
    rewrite stray_step_getitem, truncated_step_getitem by assumption.
    rewrite (fold_left_getitem mojibake_step)
      by (intros; now apply mojibake_step_getitem, L2).
    pose proof (fold_left_fst space_step
                  (fun t item => Py.replace t [fst item] (snd item))
                  SPACE_SUBS (fun st a _ => space_step_text st a) (t, []))
      as Ht.
    pose proof (fold_left_getitem space_step SPACE_SUBS (label_removed ch)
                  (fun st a Ha => space_step_getitem st a _ (L1 a Ha)) (t, []))
      as Hg.
    destruct (fold_left space_step SPACE_SUBS (t, [])) as [t1 c1].
    cbn [fst snd] in Ht, Hg. subst t1.
    rewrite fold_remove_getitem;
      [| apply incl_refl | assumption | assumption | exact Hg].
    fold (spaces_text t).
    now rewrite count_spaces_text, count_char_occ, Hn by assumption.
Qed.

(** ** The decoder, further *)

Lemma utf_8_sig_eq e raw :
  Codec.utf_8_sig e raw
  = if Py.startswith raw [0xEF; 0xBB; 0xBF] then Codec.utf_8 e (skipn 3 raw)
    else Codec.utf_8 e raw.
Proof.
  unfold Codec.utf_8_sig.
  destruct raw as [|a [|b [|c r]]]; cbn [Py.startswith skipn].
  - reflexivity.
  - destruct (Z.eqb_spec a 0xEF); [subst|]; cbn [andb]; [reflexivity|].
    repeat match goal with
    | |- context [match ?x with _ => _ end] => destruct x
    end; reflexivity.
  - destruct (Z.eqb_spec a 0xEF); [subst|]; cbn [andb].
    + destruct (Z.eqb_spec b 0xBB); [subst|]; cbn [andb]; [reflexivity|].
      repeat match goal with
      | |- context [match ?x with _ => _ end] => destruct x
      end; reflexivity.
    + repeat match goal with
      | |- context [match ?x with _ => _ end] => destruct x
      end; reflexivity.
  - destruct (Z.eqb_spec a 0xEF); [subst|]; cbn [andb].
    + destruct (Z.eqb_spec b 0xBB); [subst|]; cbn [andb].
      * destruct (Z.eqb_spec c 0xBF); [subst|]; cbn [andb]; [reflexivity|].
        repeat match goal with
        | |- context [match ?x with _ => _ end] => destruct x
        end; try reflexivity; congruence.
      * repeat match goal with
        | |- context [match ?x with _ => _ end] => destruct x
        end; try reflexivity; congruence.
    + repeat match goal with
      | |- context [match ?x with _ => _ end] => destruct x
      end; try reflexivity; congruence.
Qed.

Lemma utf_8_BOM e r :
  Codec.utf_8 e (0xEF :: 0xBB :: 0xBF :: r)
  = omap (cons 0xFEFF) (Codec.utf_8 e r).
Proof. reflexivity. Qed.

Lemma startswith_skipn t w :
  Py.startswith t w = true -> t = w ++ skipn (length w) t.
Proof.
  intros H. apply startswith_iff in H as (s & ->).
  now rewrite skipn_length_app.
Qed.

(** Data that [utf-8-sig] rejects is rejected by [utf-8] as well. *)
Lemma utf_8_sig_raises_utf_8 raw :
  Codec.utf_8_sig strict raw = Raised UnicodeDecodeError ->
  Codec.utf_8 strict raw = Raised UnicodeDecodeError.
Proof.
  rewrite utf_8_sig_eq.
  destruct (Py.startswith raw [0xEF; 0xBB; 0xBF]) eqn:E; [|auto].
  apply startswith_skipn in E. cbn [length] in E. intros H.
  rewrite E. cbn [app]. rewrite utf_8_BOM, H. reflexivity.
Qed.

Lemma strict_raises_decode_error (o : outcome text) :
  o <> Raised LookupError -> (exists t, o = Returned t)
  \/ o = Raised UnicodeDecodeError.
Proof.
  destruct o as [t|[]]; intros H; [left; now exists t | now right | congruence].
Qed.

(** The four outcomes of the cascade, by what the codecs do with the data. *)
Lemma try_decode_cases data :
  let raw := map ord_byte data in
  (exists t, Codec.utf_8_sig strict raw = Returned t
             /\ try_decode data = Returned (t, "utf-8-sig"%string))
  \/ (Codec.utf_8_sig strict raw = Raised UnicodeDecodeError
      /\ exists t, Codec.cp1252 strict raw = Returned t
                   /\ try_decode data = Returned (t, "cp1252"%string))
  \/ (Codec.utf_8_sig strict raw = Raised UnicodeDecodeError
      /\ Codec.cp1252 strict raw = Raised UnicodeDecodeError
      /\ try_decode data = Returned (raw, "latin-1"%string)).
Proof.
  intros raw. unfold try_decode, candidates.
  rewrite !try_each_cons, decode_utf_8_sig, decode_utf_8, decode_cp1252,
    decode_latin_1. fold raw.
  destruct (strict_raises_decode_error _ (utf_8_sig_strict_raises raw))
    as [(t & E)|E]; rewrite E.
  - left. now exists t.
  - right. rewrite (utf_8_sig_raises_utf_8 raw E).
    destruct (strict_raises_decode_error _ (cp1252_strict_raises raw))
      as [(t & E')|E']; rewrite E'.
    + left. split; [reflexivity|]. now exists t.
    + right. now repeat split.
Qed.

(** X8.  The label [utf-8] is never reported: data that the first candidate
    [utf-8-sig] rejects is rejected by the second candidate [utf-8] too, so
    the result carries one of the labels [utf-8-sig], [cp1252] and
    [latin-1]. *)
Theorem try_decode_never_plain_utf_8 (data : bytes) :
  (Codec.utf_8_sig strict (map ord_byte data) = Raised UnicodeDecodeError ->
   decode data "utf-8" strict = Raised UnicodeDecodeError)
  /\ exists t enc,
       try_decode data = Returned (t, enc)
       /\ (enc = "utf-8-sig" \/ enc = "cp1252" \/ enc = "latin-1")%string.
Proof.
  split.
  - rewrite decode_utf_8. apply utf_8_sig_raises_utf_8.
  - destruct (try_decode_cases data)
      as [(t & _ & H)|[(_ & t & _ & H)|(_ & _ & H)]];
      rewrite H; eexists; eexists; (split; [reflexivity|]); auto.
Qed.

Lemma cp1252_high_range b :
  (0x80 <=? b) && (b <=? 0x9F) = true ->
  Codec.table_get Codec.cp1252_high b
  = if cp1252_unassigned b then None else Some (cp1252_char b).
Proof.
  intros H. bool_to_Z.
  assert (Hb : exists n : nat, (n < 32)%nat /\ b = 0x80 + Z.of_nat n).
  { exists (Z.to_nat (b - 0x80)). lia. }
  destruct Hb as (n & Hn & ->).
  do 32 (destruct n as [|n]; [reflexivity|]). lia.
Qed.

Lemma cp1252_unassigned_range b :
  cp1252_unassigned b = true -> (0x80 <=? b) && (b <=? 0x9F) = true.
Proof. unfold cp1252_unassigned. cbn [existsb]. bool_to_Z. lia. Qed.

Lemma cp1252_char_outside b :
  (0x80 <=? b) && (b <=? 0x9F) = false -> cp1252_char b = b.
Proof.
  intros H. unfold cp1252_char, Codec.cp1252_high. cbn [Codec.table_get].
  bool_to_Z.
  repeat match goal with
  | |- context [?k =? b] => destruct (Z.eqb_spec k b); [lia|]
  end. reflexivity.
Qed.

(** Windows-1252 decodes the data unless one of the five unassigned bytes
    occurs, one character for each byte. *)
Lemma cp1252_strict_eq raw :
  Codec.cp1252 strict raw
  = if existsb cp1252_unassigned raw then Raised UnicodeDecodeError
    else Returned (map cp1252_char raw).
Proof.
  induction raw as [|b r IH]; [reflexivity|].
  cbn [Codec.cp1252 existsb map]. rewrite IH.
  destruct ((0x80 <=? b) && (b <=? 0x9F)) eqn:E.
  - rewrite cp1252_high_range by exact E.
    destruct (cp1252_unassigned b); [reflexivity|].
    cbn [orb]. now destruct (existsb cp1252_unassigned r).
  - rewrite cp1252_char_outside by exact E.
    destruct (cp1252_unassigned b) eqn:U.
    + apply cp1252_unassigned_range in U. congruence.
    + cbn [orb]. now destruct (existsb cp1252_unassigned r).
Qed.

(** X9.  Data that is not valid UTF-8 is read as Windows-1252, every byte
    giving one character, unless it holds one of the five bytes 0x81, 0x8D,
    0x8F, 0x90, 0x9D that Windows-1252 leaves unassigned; then it is read as
    Latin-1, every byte giving the code point of its value. *)
Theorem try_decode_single_byte (data : bytes) :
  Codec.utf_8_sig strict (map ord_byte data) = Raised UnicodeDecodeError ->
  try_decode data
  = if existsb cp1252_unassigned (map ord_byte data)
    then Returned (map ord_byte data, "latin-1"%string)
    else Returned (map cp1252_char (map ord_byte data), "cp1252"%string).
Proof.
  intros H.
  destruct (try_decode_cases data)
    as [(t & E & _)|[(_ & t & E & ->)|(_ & E & ->)]];
    [congruence| |]; rewrite cp1252_strict_eq in E;
    destruct (existsb cp1252_unassigned (map ord_byte data));
    congruence.
Qed.

Lemma try_decode_single_byte_witness :
  Codec.utf_8_sig strict (map ord_byte [x63; x61; x66; xe9])
  = Raised UnicodeDecodeError
  /\ try_decode [x63; x61; x66; xe9]
     = Returned ([0x63; 0x61; 0x66; 0xE9], "cp1252"%string).
Proof.
  split; [reflexivity|].
  exact (try_decode_single_byte [x63; x61; x66; xe9] eq_refl).
Defined.

Lemma utf_8_ascii e raw :
  Forall (fun b => 0 <= b < 0x80) raw -> Codec.utf_8 e raw = Returned raw.
Proof.
  induction 1 as [|b r Hb Hr IH]; [reflexivity|].
  cbn [Codec.utf_8]. destruct (Z.ltb_spec b 0x80); [|lia].
  now rewrite IH.
Qed.

Lemma ord_byte_range b : 0 <= ord_byte b <= 255.
Proof.
  unfold ord_byte. pose proof (Byte.to_N_bounded b) as H. lia.
Qed.

(** X10.  ASCII data (every byte below 0x80) is decoded by the first
    candidate, character by character. *)
Theorem try_decode_ascii (data : bytes) :
  forallb (fun b => ord_byte b <? 0x80) data = true ->
  try_decode data = Returned (map ord_byte data, "utf-8-sig"%string).
Proof.
  intros H.
  assert (Ha : Forall (fun b => 0 <= b < 0x80) (map ord_byte data)).
  { apply Forall_forall. intros b Hb.
    apply in_map_iff in Hb as (x & <- & Hx).
    rewrite forallb_forall in H. specialize (H x Hx).
    pose proof (ord_byte_range x). lia. }
  assert (Hs : Py.startswith (map ord_byte data) [0xEF; 0xBB; 0xBF] = false).
  { destruct data as [|b d]; [reflexivity|]. cbn [map Py.startswith].
    inversion Ha; subst.
    destruct (Z.eqb_spec (ord_byte b) 0xEF); [lia | reflexivity]. }
  unfold try_decode, candidates.
  now rewrite try_each_cons, decode_utf_8_sig, utf_8_sig_eq, Hs, utf_8_ascii.
Qed.

Lemma try_decode_ascii_witness :
  forallb (fun b => ord_byte b <? 0x80) [x31; x0a; x48; x69] = true
  /\ try_decode [x31; x0a; x48; x69]
     = Returned ([0x31; 0x0A; 0x48; 0x69], "utf-8-sig"%string).
Proof.
  split; [reflexivity|].
  exact (try_decode_ascii [x31; x0a; x48; x69] eq_refl).
Defined.

(** X11.  A UTF-8 signature in front of valid UTF-8 data is dropped: the text
    is the decoding of what follows the signature, under the label
    [utf-8-sig]. *)
Theorem try_decode_drops_signature (data : bytes) (t : text) :
  decode data "utf-8" strict = Returned t ->
  try_decode (BOM ++ data) = Returned (t, "utf-8-sig"%string).
Proof.
  rewrite decode_utf_8. intros H.
  unfold try_decode, candidates.
  rewrite try_each_cons, decode_utf_8_sig, utf_8_sig_eq.
  change (map ord_byte (BOM ++ data))
    with (0xEF :: 0xBB :: 0xBF :: map ord_byte data).
  cbn [Py.startswith skipn]. rewrite !Z.eqb_refl. cbn [andb].
  now rewrite H.
Qed.

Lemma try_decode_drops_signature_witness :
  decode [x48; x69] "utf-8" strict = Returned [0x48; 0x69]
  /\ try_decode (BOM ++ [x48; x69])
     = Returned ([0x48; 0x69], "utf-8-sig"%string).
Proof.
  split; [reflexivity|].
  exact (try_decode_drops_signature [x48; x69] [0x48; 0x69] eq_refl).
Defined.

(** ** Bytes and bits *)

(** Bits put below a multiple of a power of two are added to it. *)
Lemma lor_low x y n :
  0 <= n -> 0 <= y < 2 ^ n -> Z.lor (x * 2 ^ n) y = x * 2 ^ n + y.
Proof.
  intros Hn Hy.
  rewrite <- Z.lxor_lor, <- Z.add_nocarry_lxor; try reflexivity.
  - apply Z.bits_inj'. intros i Hi.
    rewrite Z.land_spec, Z.bits_0.
    destruct (Z.lt_ge_cases i n) as [Hlt|Hge].
    + now rewrite <- Z.shiftl_mul_pow2, Z.shiftl_spec_low by assumption.
    + rewrite <- (Z.mod_small y (2 ^ n)) by assumption.
      rewrite Z.mod_pow2_bits_high by lia. apply andb_false_r.
  - apply Z.bits_inj'. intros i Hi.
    rewrite Z.land_spec, Z.bits_0.
    destruct (Z.lt_ge_cases i n) as [Hlt|Hge].
    + now rewrite <- Z.shiftl_mul_pow2, Z.shiftl_spec_low by assumption.
    + rewrite <- (Z.mod_small y (2 ^ n)) by assumption.
      rewrite Z.mod_pow2_bits_high by lia. apply andb_false_r.
Qed.

Lemma lor_const k n x :
  0 <= n -> 0 <= x < 2 ^ n -> Z.lor (k * 2 ^ n) x = k * 2 ^ n + x.
Proof. apply lor_low. Qed.

Lemma lor_C0 x : 0 <= x < 32 -> Z.lor 0xC0 x = 0xC0 + x.
Proof. intros H. apply (lor_const 6 5); [lia | exact H]. Qed.

Lemma lor_80 x : 0 <= x < 64 -> Z.lor 0x80 x = 0x80 + x.
Proof. intros H. apply (lor_const 2 6); [lia | exact H]. Qed.

Lemma lor_E0 x : 0 <= x < 16 -> Z.lor 0xE0 x = 0xE0 + x.
Proof. intros H. apply (lor_const 14 4); [lia | exact H]. Qed.

Lemma lor_F0 x : 0 <= x < 8 -> Z.lor 0xF0 x = 0xF0 + x.
Proof. intros H. apply (lor_const 30 3); [lia | exact H]. Qed.

Lemma lor_shl6 x y : 0 <= y < 64 -> Z.lor (Z.shiftl x 6) y = x * 64 + y.
Proof.
  intros H. rewrite Z.shiftl_mul_pow2 by lia. apply (lor_low x y 6); [lia | exact H].
Qed.

Lemma lor_shl12 x y : 0 <= y < 4096 -> Z.lor (Z.shiftl x 12) y = x * 4096 + y.
Proof.
  intros H. rewrite Z.shiftl_mul_pow2 by lia. apply (lor_low x y 12); [lia | exact H].
Qed.

Lemma lor_shl18 x y :
  0 <= y < 262144 -> Z.lor (Z.shiftl x 18) y = x * 262144 + y.
Proof.
  intros H. rewrite Z.shiftl_mul_pow2 by lia. apply (lor_low x y 18); [lia | exact H].
Qed.

Lemma shr6 x : Z.shiftr x 6 = x / 64.
Proof. now rewrite Z.shiftr_div_pow2 by lia. Qed.
Lemma shr12 x : Z.shiftr x 12 = x / 4096.
Proof. now rewrite Z.shiftr_div_pow2 by lia. Qed.
Lemma shr18 x : Z.shiftr x 18 = x / 262144.
Proof. now rewrite Z.shiftr_div_pow2 by lia. Qed.

Lemma land_3F x : Z.land x 0x3F = x mod 64.
Proof. change 0x3F with (Z.ones 6). now rewrite Z.land_ones by lia. Qed.
Lemma land_1F x : Z.land x 0x1F = x mod 32.
Proof. change 0x1F with (Z.ones 5). now rewrite Z.land_ones by lia. Qed.
Lemma land_0F x : Z.land x 0x0F = x mod 16.
Proof. change 0x0F with (Z.ones 4). now rewrite Z.land_ones by lia. Qed.
Lemma land_07 x : Z.land x 0x07 = x mod 8.
Proof. change 0x07 with (Z.ones 3). now rewrite Z.land_ones by lia. Qed.

Ltac divmod := Z.div_mod_to_equations; lia.

(** ** The UTF-8 encoder against the decoder *)

Ltac test_true b :=
  let H := fresh in
  destruct b eqn:H; [clear H | exfalso; clear - H; bool_to_Z; lia].
Ltac test_false b :=
  let H := fresh in
  destruct b eqn:H; [exfalso; bool_to_Z; lia | clear H].

Lemma utf_8_two e h l r :
  2 <= h < 32 -> 0 <= l < 64 ->
  Codec.utf_8 e ((0xC0 + h) :: (0x80 + l) :: r)
  = omap (cons (h * 64 + l)) (Codec.utf_8 e r).
Proof.
  intros Hh Hl. cbn [Codec.utf_8].
  destruct (Z.ltb_spec (0xC0 + h) 0x80); [lia|].
  destruct (Z.leb_spec 0xC2 (0xC0 + h)); [|lia].
  destruct (Z.leb_spec (0xC0 + h) 0xDF); [|lia].
  cbn [andb]. unfold Codec.is_cont, Codec.low6.
  destruct (Z.leb_spec 0x80 (0x80 + l)); [|lia].
  destruct (Z.leb_spec (0x80 + l) 0xBF); [|lia].
  cbn [andb].
  rewrite land_1F, land_3F, lor_shl6 by divmod.
  do 2 f_equal. divmod.
Qed.

Lemma utf_8_three e h m l r :
  0 <= h < 16 -> 0 <= m < 64 -> 0 <= l < 64 ->
  (h = 0 -> 32 <= m) -> (h = 13 -> m < 32) ->
  Codec.utf_8 e ((0xE0 + h) :: (0x80 + m) :: (0x80 + l) :: r)
  = omap (cons (h * 4096 + (m * 64 + l))) (Codec.utf_8 e r).
Proof.
  intros Hh Hm Hl Hlow Hsur. cbn [Codec.utf_8].
  destruct (Z.ltb_spec (0xE0 + h) 0x80); [lia|].
  destruct (Z.leb_spec 0xC2 (0xE0 + h)); [|lia].
  destruct (Z.leb_spec (0xE0 + h) 0xDF); [lia|].
  destruct (Z.leb_spec 0xE0 (0xE0 + h)); [|lia].
  destruct (Z.leb_spec (0xE0 + h) 0xEF); [|lia].
  cbn [andb].
  assert (Hsnd : Codec.second_of_3 (0xE0 + h) (0x80 + m) = true).
  { unfold Codec.second_of_3, Codec.is_cont.
    destruct (Z.eqb_spec (0xE0 + h) 0xE0);
      [|destruct (Z.eqb_spec (0xE0 + h) 0xED)]; bool_to_Z; lia. }
  rewrite Hsnd. unfold Codec.is_cont, Codec.low6.
  destruct (Z.leb_spec 0x80 (0x80 + l)); [|lia].
  destruct (Z.leb_spec (0x80 + l) 0xBF); [|lia].
  cbn [andb].
  rewrite land_0F, !land_3F.
  rewrite lor_shl6 by divmod. rewrite lor_shl12 by divmod.
  do 2 f_equal. divmod.
Qed.

Lemma utf_8_four e h m1 m2 l r :
  0 <= h < 5 -> 0 <= m1 < 64 -> 0 <= m2 < 64 -> 0 <= l < 64 ->
  (h = 0 -> 16 <= m1) -> (h = 4 -> m1 < 16) ->
  Codec.utf_8 e
    ((0xF0 + h) :: (0x80 + m1) :: (0x80 + m2) :: (0x80 + l) :: r)
  = omap (cons (h * 262144 + (m1 * 4096 + (m2 * 64 + l))))
      (Codec.utf_8 e r).
Proof.
  intros Hh Hm1 Hm2 Hl Hlow Hmax. cbn [Codec.utf_8].
  destruct (Z.ltb_spec (0xF0 + h) 0x80); [lia|].
  destruct (Z.leb_spec 0xC2 (0xF0 + h)); [|lia].
  destruct (Z.leb_spec (0xF0 + h) 0xDF); [lia|].
  destruct (Z.leb_spec 0xE0 (0xF0 + h)); [|lia].
  destruct (Z.leb_spec (0xF0 + h) 0xEF); [lia|].
  destruct (Z.leb_spec 0xF0 (0xF0 + h)); [|lia].
  destruct (Z.leb_spec (0xF0 + h) 0xF4); [|lia].
  cbn [andb].
  assert (Hsnd : Codec.second_of_4 (0xF0 + h) (0x80 + m1) = true).
  { unfold Codec.second_of_4, Codec.is_cont.
    destruct (Z.eqb_spec (0xF0 + h) 0xF0);
      [|destruct (Z.eqb_spec (0xF0 + h) 0xF4)]; bool_to_Z; lia. }
  rewrite Hsnd. unfold Codec.is_cont, Codec.low6.
  destruct (Z.leb_spec 0x80 (0x80 + m2)); [|lia].
  destruct (Z.leb_spec (0x80 + m2) 0xBF); [|lia].
  destruct (Z.leb_spec 0x80 (0x80 + l)); [|lia].
  destruct (Z.leb_spec (0x80 + l) 0xBF); [|lia].
  cbn [andb].
  rewrite land_07, !land_3F.
  rewrite lor_shl6 by divmod. rewrite lor_shl12 by divmod.
  rewrite lor_shl18 by divmod.
  do 2 f_equal. divmod.
Qed.

(** The bytes of one code point, with the bit operations read as quotients
    and remainders. *)
Lemma utf_8_char_eq c :
  utf_8_char c
  = if negb (is_scalar c) then None
    else if c <? 0x80 then Some [c]
    else if c <? 0x800 then Some [0xC0 + c / 64; 0x80 + c mod 64]
    else if c <? 0x10000 then
      Some [0xE0 + c / 4096; 0x80 + (c / 64) mod 64; 0x80 + c mod 64]
    else
      Some [0xF0 + c / 262144; 0x80 + (c / 4096) mod 64;
            0x80 + (c / 64) mod 64; 0x80 + c mod 64].
Proof.
  unfold utf_8_char, is_scalar.
  destruct (Z.ltb_spec c 0).
  { destruct (Z.leb_spec 0 c); [lia | reflexivity]. }
  destruct (Z.leb_spec 0 c); [|lia].
  destruct (Z.ltb_spec c 0x80).
  { destruct (Z.leb_spec c 0x10FFFF); [|lia].
    destruct (Z.leb_spec 0xD800 c); [lia | reflexivity]. }
  destruct (Z.ltb_spec c 0x800).
  { destruct (Z.leb_spec c 0x10FFFF); [|lia].
    destruct (Z.leb_spec 0xD800 c); [lia|]. cbn [andb negb].
    rewrite shr6, land_3F, lor_C0, lor_80 by divmod. reflexivity. }
  destruct (Z.leb_spec 0xD800 c), (Z.leb_spec c 0xDFFF); cbn [andb negb].
  - destruct (Z.leb_spec c 0x10FFFF); reflexivity.
  - destruct (Z.ltb_spec c 0x10000).
    + destruct (Z.leb_spec c 0x10FFFF); [|lia]. cbn [andb negb].
      rewrite shr12, shr6, !land_3F, lor_E0, !lor_80 by divmod.
      reflexivity.
    + destruct (Z.leb_spec c 0x10FFFF); cbn [andb negb]; [|reflexivity].
      rewrite shr18, shr12, shr6, !land_3F, lor_F0, !lor_80 by divmod.
      reflexivity.
  - destruct (Z.ltb_spec c 0x10000); [|lia].
    destruct (Z.leb_spec c 0x10FFFF); [|lia]. cbn [andb negb].
    rewrite shr12, shr6, !land_3F, lor_E0, !lor_80 by divmod.
    reflexivity.
  - lia.
Qed.

Lemma is_scalar_spec c :
  is_scalar c = true <-> 0 <= c <= 0x10FFFF /\ (c < 0xD800 \/ 0xDFFF < c).
Proof. unfold is_scalar. bool_to_Z. lia. Qed.

Lemma Some_eq {A : Type} (x y : A) : Some x = Some y -> x = y.
Proof. congruence. Qed.

Ltac scalar_cases c H :=
  rewrite utf_8_char_eq;
  destruct (is_scalar c) eqn:H; [|discriminate];
  apply is_scalar_spec in H;
  change (negb true) with false; cbv iota;
  destruct (Z.ltb_spec c 0x80);
    [|destruct (Z.ltb_spec c 0x800); [|destruct (Z.ltb_spec c 0x10000)]];
  let E := fresh in intros E; apply Some_eq in E; subst.

Lemma utf_8_char_decode e c bs r :
  utf_8_char c = Some bs ->
  Codec.utf_8 e (bs ++ r) = omap (cons c) (Codec.utf_8 e r).
Proof.
  scalar_cases c Hsc; rewrite <- ?app_comm_cons, ?app_nil_l.
  - cbn [Codec.utf_8]. destruct (Z.ltb_spec c 0x80); [reflexivity | lia].
  - rewrite utf_8_two by divmod. do 2 f_equal. divmod.
  - rewrite utf_8_three by divmod. do 2 f_equal. divmod.
  - rewrite utf_8_four by divmod. do 2 f_equal. divmod.
Qed.

Lemma utf_8_char_bytes c bs :
  utf_8_char c = Some bs -> Forall (fun b => 0 <= b < 256) bs.
Proof. scalar_cases c Hsc; repeat constructor; divmod. Qed.

Lemma utf_8_char_scalar c :
  is_scalar c = true <-> exists bs, utf_8_char c = Some bs.
Proof.
  rewrite utf_8_char_eq. destruct (is_scalar c); cbn [negb]; split.
  - intros _. repeat match goal with
      | |- context [if ?b then _ else _] => destruct b
      end; eauto.
  - reflexivity.
  - discriminate.
  - intros [bs H]. discriminate.
Qed.

Lemma utf_8_encode_cons c r bs :
  utf_8_encode (c :: r) = Ok bs ->
  exists b0 rest,
    utf_8_char c = Some b0 /\ utf_8_encode r = Ok rest /\ bs = b0 ++ rest.
Proof.
  cbn [utf_8_encode]. destruct (utf_8_char c) as [b0|]; [|discriminate].
  destruct (utf_8_encode r) as [rest|]; [|discriminate].
  intros [= <-]. now exists b0, rest.
Qed.

Lemma utf_8_encode_decode e t :
  forall bs, utf_8_encode t = Ok bs -> Codec.utf_8 e bs = Returned t.
Proof.
  induction t as [|c r IH]; intros bs H.
  - injection H as <-. reflexivity.
  - apply utf_8_encode_cons in H as (b0 & rest & Hc & Hr & ->).
    rewrite (utf_8_char_decode e c b0 rest Hc), (IH rest Hr). reflexivity.
Qed.

Lemma utf_8_encode_bytes t :
  forall bs, utf_8_encode t = Ok bs -> Forall (fun b => 0 <= b < 256) bs.
Proof.
  induction t as [|c r IH]; intros bs H.
  - injection H as <-. constructor.
  - apply utf_8_encode_cons in H as (b0 & rest & Hc & Hr & ->).
    apply Forall_app. split; [exact (utf_8_char_bytes c b0 Hc) | auto].
Qed.

(** [str.encode] fails on surrogates only. *)
Lemma utf_8_encode_scalar t :
  Forall (fun c => is_scalar c = true) t -> exists bs, utf_8_encode t = Ok bs.
Proof.
  induction 1 as [|c r Hc Hr [rest IH]]; [now exists []|].
  apply utf_8_char_scalar in Hc as [b0 Hc].
  exists (b0 ++ rest). cbn [utf_8_encode]. now rewrite Hc, IH.
Qed.

Lemma utf_8_encode_error t e :
  utf_8_encode t = Err e ->
  e = UnicodeEncodeError /\ Exists (fun c => is_scalar c = false) t.
Proof.
  induction t as [|c r IH]; [discriminate|].
  cbn [utf_8_encode]. destruct (utf_8_char c) as [b0|] eqn:Hc.
  - destruct (utf_8_encode r) as [rest|e'] eqn:Hr; [discriminate|].
    intros [= <-]. destruct (IH eq_refl) as [-> Hex].
    split; [reflexivity | now apply Exists_cons_tl].
  - intros [= <-]. split; [reflexivity|]. apply Exists_cons_hd.
    destruct (is_scalar c) eqn:Hs; [|reflexivity].
    apply utf_8_char_scalar in Hs as [b0 Hs]. congruence.
Qed.

(** Only U+FEFF is written as EF BB BF. *)
Lemma utf_8_encode_signature t bs :
  utf_8_encode t = Ok bs ->
  Py.startswith bs [0xEF; 0xBB; 0xBF] = Py.startswith t [0xFEFF].
Proof.
  destruct t as [|c r]; intros H.
  - injection H as <-. reflexivity.
  - apply utf_8_encode_cons in H as (b0 & rest & Hc & Hr & ->).
    cbn [Py.startswith]. rewrite andb_true_r. revert Hc.
    scalar_cases c Hsc; rewrite <- ?app_comm_cons, ?app_nil_l;
      cbn [Py.startswith].
    + destruct (Z.eqb_spec c 0xEF); [lia|].
      destruct (Z.eqb_spec c 0xFEFF); [lia | reflexivity].
    + destruct (Z.eqb_spec (0xC0 + c / 64) 0xEF); [exfalso; divmod|].
      destruct (Z.eqb_spec c 0xFEFF); [lia | reflexivity].
    + destruct (Z.eqb_spec c 0xFEFF) as [->|Hne]; [reflexivity|].
      destruct (Z.eqb_spec (0xE0 + c / 4096) 0xEF); [|reflexivity].
      destruct (Z.eqb_spec (0x80 + (c / 64) mod 64) 0xBB); [|reflexivity].
      destruct (Z.eqb_spec (0x80 + c mod 64) 0xBF); [|reflexivity].
      exfalso. divmod.
    + destruct (Z.eqb_spec (0xF0 + c / 262144) 0xEF); [exfalso; divmod|].
      destruct (Z.eqb_spec c 0xFEFF); [lia | reflexivity].
Qed.

Lemma ord_byte_of b : 0 <= b < 256 -> ord_byte (byte_of b) = b.
Proof.
  intros Hb. unfold ord_byte, byte_of.
  destruct (Byte.of_N (Z.to_N b)) as [x|] eqn:E.
  - apply Byte.to_of_N in E. rewrite E. lia.
  - apply Byte.of_N_None_iff in E. lia.
Qed.

Lemma map_ord_byte_of bs :
  Forall (fun b => 0 <= b < 256) bs -> map ord_byte (map byte_of bs) = bs.
Proof.
  induction 1 as [|b r Hb Hr IH]; [reflexivity|].
  cbn [map]. now rewrite ord_byte_of, IH.
Qed.

Lemma try_decode_utf_8_sig data t :
  Codec.utf_8_sig strict (map ord_byte data) = Returned t ->
  try_decode data = Returned (t, "utf-8-sig"%string).
Proof.
  intros H. unfold try_decode, candidates.
  now rewrite try_each_cons, decode_utf_8_sig, H.
Qed.

Lemma encode_utf_8 t data :
  encode t "utf-8" = Ok data ->
  exists bs, utf_8_encode t = Ok bs /\ map ord_byte data = bs.
Proof.
  unfold encode. cbn [String.eqb Ascii.eqb Bool.eqb].
  destruct (utf_8_encode t) as [bs|] eqn:E; [|discriminate].
  intros [= <-]. exists bs. split; [reflexivity|].
  apply map_ord_byte_of, (utf_8_encode_bytes t), E.
Qed.

Lemma encode_utf_8_sig t data :
  encode t "utf-8-sig" = Ok data ->
  exists bs, utf_8_encode t = Ok bs
             /\ map ord_byte data = 0xEF :: 0xBB :: 0xBF :: bs.
Proof.
  unfold encode. cbn [String.eqb Ascii.eqb Bool.eqb].
  destruct (utf_8_encode t) as [bs|] eqn:E; [|discriminate].
  intros [= <-]. exists bs. split; [reflexivity|].
  apply (map_ord_byte_of ([0xEF; 0xBB; 0xBF] ++ bs)).
  apply Forall_app. split; [repeat constructor; lia|].
  apply (utf_8_encode_bytes t), E.
Qed.

Lemma encode_read_back t (bom : bool) data :
  encode t (if bom then "utf-8-sig" else "utf-8") = Ok data ->
  try_decode data
  = Returned (if negb bom && Py.startswith t [0xFEFF] then tl t else t,
              "utf-8-sig"%string).
Proof.
  destruct bom; cbn [negb andb]; intros H; apply try_decode_utf_8_sig.
  - apply encode_utf_8_sig in H as (bs & Hbs & ->).
    cbn [Codec.utf_8_sig]. now apply utf_8_encode_decode.
  - apply encode_utf_8 in H as (bs & Hbs & ->).
    rewrite utf_8_sig_eq, (utf_8_encode_signature t bs Hbs).
    destruct t as [|c r]; [now apply utf_8_encode_decode|].
    cbn [Py.startswith tl]. rewrite andb_true_r.
    destruct (Z.eqb_spec c 0xFEFF) as [->|Hne];
      [|now apply utf_8_encode_decode].
    apply utf_8_encode_cons in Hbs as (b0 & rest & Hc & Hr & ->).
    injection Hc as <-. cbn [app skipn].
    now apply utf_8_encode_decode.
Qed.

Lemma encode_scalar t (bom : bool) :
  Forall (fun c => is_scalar c = true) t ->
  exists data, encode t (if bom then "utf-8-sig" else "utf-8") = Ok data.
Proof.
  intros H. apply utf_8_encode_scalar in H as [bs H].
  destruct bom; unfold encode; cbn [String.eqb Ascii.eqb Bool.eqb];
    rewrite H; eauto.
Qed.

Lemma encode_error t (bom : bool) e :
  encode t (if bom then "utf-8-sig" else "utf-8") = Err e ->
  e = UnicodeEncodeError /\ Exists (fun c => is_scalar c = false) t.
Proof.
  destruct bom; unfold encode; cbn [String.eqb Ascii.eqb Bool.eqb];
    destruct (utf_8_encode t) as [bs|e'] eqn:E; try discriminate;
    intros [= <-]; exact (utf_8_encode_error t e' E).
Qed.

(** X12.  [str.encode] against [try_decode], for the two codecs that
    [process_file] writes with.  Encoding fails on a surrogate only, with
    [UnicodeEncodeError]; and what is written is read back by the first
    candidate as the same text.  The one exception is a text that begins with
    U+FEFF and is written without signature: its first character is taken for
    the signature and dropped. *)
Theorem encode_try_decode (t : text) (bom : bool) :
  let encoding := if bom then "utf-8-sig"%string else "utf-8"%string in
  (forall e, encode t encoding = Err e ->
     e = UnicodeEncodeError /\ Exists (fun c => is_scalar c = false) t)
  /\ (forall data, encode t encoding = Ok data ->
        try_decode data
        = Returned (if negb bom && Py.startswith t [0xFEFF]
                    then tl t else t, "utf-8-sig"%string)).
Proof.
  split.
  - intros e. apply encode_error.
  - intros data. apply encode_read_back.
Qed.

(** ** Decoded text is made of scalar values *)

Lemma all_scalar_cons c o :
  is_scalar c = true -> all_scalar o -> all_scalar (omap (cons c) o).
Proof. destruct o; cbn; [now constructor | trivial]. Qed.

Lemma all_scalar_undecodable e o :
  all_scalar o -> all_scalar (undecodable e o).
Proof.
  destruct e; cbn [undecodable all_scalar]; [trivial|].
  now apply all_scalar_cons.
Qed.

Lemma utf_8_all_scalar e (n : nat) :
  forall data, (length data <= n)%nat ->
  (forall b, In b data -> 0 <= b) ->
  all_scalar (Codec.utf_8 e data).
Proof.
  induction n as [|n IH]; intros data Hlen Hpos.
  - destruct data; [constructor | simpl in Hlen; lia].
  - destruct data as [|b0 r0]; [constructor|].
    cbn [Codec.utf_8]. simpl in Hlen.
    assert (H0 : 0 <= b0) by (apply Hpos; now left).
    repeat match goal with
    | |- context [if ?c then _ else _] => destruct c eqn:?
    | |- context [match ?r with [] => _ | _ :: _ => _ end] => destruct r
    end; simpl in Hlen;
    repeat match goal with
    | |- all_scalar (undecodable _ _) => apply all_scalar_undecodable
    | |- all_scalar (Returned []) => constructor
    | |- all_scalar (Codec.utf_8 _ _) =>
        apply IH; [simpl; lia | intros; apply Hpos; simpl; tauto]
    | |- all_scalar (omap _ _) => apply all_scalar_cons
    end.
    + apply is_scalar_spec. bool_to_Z. lia.
    + unfold Codec.is_cont, Codec.low6 in *. bool_to_Z.
      rewrite land_1F, land_3F, lor_shl6 by divmod.
      apply is_scalar_spec. divmod.
    + unfold Codec.second_of_3, Codec.is_cont, Codec.low6 in *.
      repeat match goal with
      | H : (if ?c then _ else _) = true |- _ => destruct c eqn:?
      end; bool_to_Z;
      rewrite land_0F, !land_3F; rewrite lor_shl6 by divmod;
      rewrite lor_shl12 by divmod; apply is_scalar_spec; divmod.
    + unfold Codec.second_of_4, Codec.is_cont, Codec.low6 in *.
      repeat match goal with
      | H : (if ?c then _ else _) = true |- _ => destruct c eqn:?
      end; bool_to_Z;
      rewrite land_07, !land_3F; rewrite lor_shl6 by divmod;
      rewrite lor_shl12 by divmod; rewrite lor_shl18 by divmod;
      apply is_scalar_spec; divmod.
Qed.

Lemma cp1252_high_scalar b c :
  Codec.table_get Codec.cp1252_high b = Some c -> is_scalar c = true.
Proof.
  unfold Codec.cp1252_high. cbn [Codec.table_get].
  repeat match goal with
  | |- context [if ?k =? b then _ else _] => destruct (k =? b)
  end; intros [= <-]; reflexivity.
Qed.

Lemma byte_scalar b : 0 <= b < 256 -> is_scalar b = true.
Proof. intros H. apply is_scalar_spec. lia. Qed.

Lemma cp1252_all_scalar e raw :
  Forall (fun b => 0 <= b < 256) raw -> all_scalar (Codec.cp1252 e raw).
Proof.
  induction 1 as [|b r Hb Hr IH]; [constructor|].
  cbn [Codec.cp1252].
  destruct ((0x80 <=? b) && (b <=? 0x9F)).
  - destruct (Codec.table_get Codec.cp1252_high b) as [c|] eqn:E.
    + apply all_scalar_cons; [exact (cp1252_high_scalar b c E) | exact IH].
    + now apply all_scalar_undecodable.
  - apply all_scalar_cons; [now apply byte_scalar | exact IH].
Qed.

Lemma raw_bytes data : Forall (fun b => 0 <= b < 256) (map ord_byte data).
Proof.
  apply Forall_forall. intros b Hb. apply in_map_iff in Hb as (x & <- & _).
  pose proof (ord_byte_range x). lia.
Qed.

Lemma In_skipn {A : Type} (n : nat) (l : list A) x :
  In x (skipn n l) -> In x l.
Proof.
  intros H. rewrite <- (firstn_skipn n l). apply in_or_app. now right.
Qed.

Lemma utf_8_sig_all_scalar e data :
  all_scalar (Codec.utf_8_sig e (map ord_byte data)).
Proof.
  pose proof (raw_bytes data) as Hraw. rewrite Forall_forall in Hraw.
  rewrite utf_8_sig_eq.
  destruct (Py.startswith (map ord_byte data) [0xEF; 0xBB; 0xBF]);
    eapply utf_8_all_scalar; try reflexivity.
  - intros b Hb. apply In_skipn in Hb. apply Hraw in Hb. lia.
  - intros b Hb. apply Hraw in Hb. lia.
Qed.

Lemma try_decode_returns_scalar data t enc :
  try_decode data = Returned (t, enc) ->
  Forall (fun c => is_scalar c = true) t.
Proof.
  intros H.
  destruct (try_decode_cases data)
    as [(t' & Ht & E)|[(_ & t' & Ht & E)|(_ & _ & E)]];
    rewrite E in H; injection H as <- <-.
  - pose proof (utf_8_sig_all_scalar strict data) as H. now rewrite Ht in H.
  - pose proof (cp1252_all_scalar strict _ (raw_bytes data)) as H.
    now rewrite Ht in H.
  - eapply Forall_impl; [|apply raw_bytes]. intros b. apply byte_scalar.
Qed.

(** X13.  Whatever the bytes, the decoded text holds Unicode scalar values
    only: no surrogate and nothing outside 0..0x10FFFF. *)
Theorem try_decode_scalar_values (data : bytes) :
  exists t enc,
    try_decode data = Returned (t, enc)
    /\ Forall (fun c => is_scalar c = true) t.
Proof.
  destruct (try_decode_cases data)
    as [(t & Ht & ->)|[(_ & t & Ht & ->)|(_ & _ & ->)]].
  - exists t, "utf-8-sig"%string. split; [reflexivity|].
    pose proof (utf_8_sig_all_scalar strict data) as H. now rewrite Ht in H.
  - exists t, "cp1252"%string. split; [reflexivity|].
    pose proof (cp1252_all_scalar strict _ (raw_bytes data)) as H.
    now rewrite Ht in H.
  - exists (map ord_byte data), "latin-1"%string. split; [reflexivity|].
    eapply Forall_impl; [|apply raw_bytes]. intros b. apply byte_scalar.
Qed.

(** ** From bytes to bytes *)

Lemma sanitize_scalar t :
  Forall (fun c => is_scalar c = true) t ->
  Forall (fun c => is_scalar c = true) (fst (sanitize t)).
Proof.
  rewrite !Forall_forall. intros H c Hc. rewrite sanitize_fst in Hc.
  apply normalize_lines_In in Hc as [->|Hc]; [reflexivity|].
  apply repaired_text_In in Hc as [[Hp|[->|Hc]] _]; auto.
  apply is_scalar_spec. unfold punctuation in Hp. lia.
Qed.

Lemma sanitize_no_signature t :
  Py.startswith (fst (sanitize t)) [0xFEFF] = false.
Proof.
  destruct (fst (sanitize t)) as [|c r] eqn:E; [reflexivity|].
  cbn [Py.startswith]. rewrite andb_true_r.
  destruct (Z.eqb_spec c 0xFEFF) as [->|]; [|reflexivity].
  assert (Hin : In 0xFEFF (fst (sanitize t))) by (rewrite E; now left).
  apply sanitize_chars in Hin as [_ Hin]. discriminate.
Qed.

(** X14.  From bytes to bytes: whatever the data and whichever of the two
    output codecs, the cleaned text of the data can be encoded, and
    [try_decode] reads the encoded bytes back as that cleaned text. *)
Theorem cleaned_text_round_trip (data : bytes) (bom : bool) :
  exists t enc out,
    try_decode data = Returned (t, enc)
    /\ encode (fst (sanitize t)) (if bom then "utf-8-sig" else "utf-8")
       = Ok out
    /\ try_decode out = Returned (fst (sanitize t), "utf-8-sig"%string).
Proof.
  destruct (try_decode_cases data)
    as [(t & _ & Ht)|[(_ & t & _ & Ht)|(_ & _ & Ht)]];
    pose proof (try_decode_returns_scalar _ _ _ Ht) as Hs;
    destruct (encode_scalar _ bom (sanitize_scalar _ Hs)) as [out Hout];
    do 3 eexists; (split; [exact Ht|]); (split; [exact Hout|]);
    rewrite (encode_read_back _ _ _ Hout), sanitize_no_signature;
    now rewrite andb_false_r.
Qed.

(** ** When nothing changes *)

Lemma startswith_length t w :
  Py.startswith t w = true -> (length w <= length t)%nat.
Proof.
  intros H. apply startswith_iff in H as (s & ->). rewrite length_app. lia.
Qed.

(** Every match of a scan takes [length old] characters and gives
    [length new]. *)
Lemma scan_length old ahead new :
  old <> [] ->
  forall t k,
    Z.of_nat (length (fst (Py.scan old ahead new k t)))
    + snd (Py.scan old ahead new k t)
      * (Z.of_nat (length old) - Z.of_nat (length new))
    + Z.min (Z.of_nat k) (Z.of_nat (length t))
    = Z.of_nat (length t).
Proof.
  intros Hold. induction t as [|c r IH]; intros k.
  - cbn [Py.scan fst snd length]. lia.
  - cbn [Py.scan]. destruct k as [|k].
    + destruct (Py.startswith (c :: r) old) eqn:Hs; cbn [andb].
      * apply startswith_length in Hs. cbn [length] in Hs.
        assert (Hlen : (0 < length old)%nat)
          by (destruct old; [contradiction | simpl; lia]).
        destruct (ahead (skipn (length old) (c :: r))).
        -- specialize (IH (length old - 1)%nat).
           destruct (Py.scan old ahead new (length old - 1) r) as [o n].
           cbn [fst snd] in *. rewrite length_app. cbn [length]. lia.
        -- specialize (IH 0%nat).
           destruct (Py.scan old ahead new 0 r) as [o n].
           cbn [fst snd length] in *. lia.
      * specialize (IH 0%nat).
        destruct (Py.scan old ahead new 0 r) as [o n].
        cbn [fst snd length] in *. lia.
    + specialize (IH k). cbn [length]. lia.
Qed.

Lemma subn_truncated_length t :
  Z.of_nat (length (fst (subn_truncated t))) + snd (subn_truncated t)
  = Z.of_nat (length t).
Proof.
  pose proof (scan_length [a_circ; euro] ahead_closing [dquote]
                ltac:(discriminate) t 0%nat) as H.
  unfold subn_truncated. cbn [length] in H. lia.
Qed.

Lemma sub_stray_length t :
  Z.of_nat (length (sub_stray t))
  + snd (Py.scan [A_circ] ahead_space [] 0 t)
  = Z.of_nat (length t).
Proof.
  pose proof (scan_length [A_circ] ahead_space []
                ltac:(discriminate) t 0%nat) as H.
  unfold sub_stray. cbn [length] in H. lia.
Qed.

Lemma rstrip_length l : (length (Py.rstrip l) <= length l)%nat.
Proof.
  destruct (rstrip_split l) as (ws & H & _).
  rewrite H at 2. rewrite length_app. lia.
Qed.

Lemma rstrip_cons_length c l :
  (length (Py.rstrip (c :: l)) <= S (length (Py.rstrip l)))%nat.
Proof.
  rewrite rstrip_cons. destruct (Py.rstrip l); [|simpl; lia].
  destruct (Py.isspace c); simpl; lia.
Qed.

Lemma join_length sep l ls :
  length (Py.join sep (l :: ls))
  = (length l
     + match ls with
       | [] => 0
       | _ :: _ => length sep + length (Py.join sep ls)
       end)%nat.
Proof.
  destruct ls as [|l' ls]; [simpl; lia|].
  rewrite join_cons, !length_app. reflexivity.
Qed.

Lemma endswith_any_cons c r cs :
  r <> [] -> Py.endswith_any (c :: r) cs = Py.endswith_any r cs.
Proof.
  destruct r as [|c' z]; [contradiction|]. intros _.
  exact (endswith_any_app [c] c' z cs).
Qed.

(** The last stage never makes the text longer. *)
Lemma normalize_lines_length t :
  (length (normalize_lines t) <= length t)%nat.
Proof.
  unfold normalize_lines. rewrite length_app.
  induction t as [|a|a b l IHl IHbl] using list_ind2.
  - simpl. lia.
  - destruct (Py.islinebreak a) eqn:Ha.
    + assert (E : Py.splitlines [a] = [[]]).
      { cbn [Py.splitlines]. destruct (a =? 0x0D); [reflexivity|].
        now rewrite Ha. }
      rewrite E. cbn [map Py.rstrip Py.join length].
      destruct (Py.endswith_any [a] [LF; CR]); simpl; lia.
    + rewrite splitlines_char by assumption.
      cbn [Py.splitlines Py.cons_line map Py.join].
      pose proof (rstrip_length [a]) as Hr.
      assert (E : Py.endswith_any [a] [LF; CR] = false).
      { unfold Py.endswith_any. cbn [rev app existsb].
        destruct (Z.eqb_spec a LF) as [->|]; [discriminate Ha|].
        destruct (Z.eqb_spec a CR) as [->|]; [discriminate Ha|].
        reflexivity. }
      rewrite E. simpl in *. lia.
  - rewrite (endswith_any_cons a (b :: l)) by discriminate.
    destruct (splitlines_cases a (b :: l))
      as [(r' & -> & [= -> <-] & E)|[(_ & E)|(Ha & E)]]; rewrite E.
    + cbn [map]. rewrite join_length. cbn [Py.rstrip length].
      destruct l as [|c r].
      * simpl. lia.
      * rewrite (endswith_any_cons LF (c :: r)) by discriminate.
        destruct (Py.splitlines (c :: r)) as [|l0 ls] eqn:El;
          [now apply splitlines_nonempty in El|].
        cbn [map] in *. cbn [length] in *. lia.
    + cbn [map]. rewrite join_length. cbn [Py.rstrip length].
      destruct (Py.splitlines (b :: l)) as [|l0 ls] eqn:El;
        [now apply splitlines_nonempty in El|].
      cbn [map] in *. cbn [length] in *. lia.
    + destruct (Py.splitlines (b :: l)) as [|l0 ls] eqn:El;
        [now apply splitlines_nonempty in El|].
      cbn [Py.cons_line map] in *. rewrite join_length in *.
      pose proof (rstrip_cons_length a l0). cbn [length] in *. lia.
Qed.

Lemma existsb_eqb_In c cs : In c cs -> existsb (Z.eqb c) cs = true.
Proof.
  intros H. apply existsb_exists. exists c. split; [exact H | apply Z.eqb_refl].
Qed.

Lemma has_mojibake_items t item :
  has_mojibake t = false -> In item MOJIBAKE_REMAP ->
  contains t (fst item) = false.
Proof.
  unfold has_mojibake. intros H Hin.
  destruct (contains t (fst item)) eqn:E; [|reflexivity].
  rewrite <- H. symmetry. apply existsb_exists. exists item.
  split; assumption.
Qed.

(** A cleaned text that equals the input: no stage found anything. *)
Lemma unchanged_clean t : fst (sanitize t) = t -> clean t = true.
Proof.
  intros H.
  assert (Hc : forall c, In c t ->
                 exotic_space c = false /\ invisible c = false).
  { intros c Hin. rewrite <- H in Hin. now apply sanitize_chars in Hin. }
  assert (Hm : has_mojibake t = false).
  { rewrite <- H at 1. apply sanitize_no_mojibake. }
  assert (Hs : forall ch, In ch (map fst SPACE_SUBS) -> ~ In ch t).
  { intros ch Hin Ht. apply Hc in Ht as [Ht _].
    unfold exotic_space in Ht. now rewrite existsb_eqb_In in Ht. }
  assert (Hr : forall ch, In ch REMOVE_CHARS -> ~ In ch t).
  { intros ch Hin Ht. apply Hc in Ht as [_ Ht].
    unfold invisible in Ht. now rewrite existsb_eqb_In in Ht. }
  assert (Hi : forall item, In item MOJIBAKE_REMAP ->
                 contains t (fst item) = false).
  { intros item. now apply has_mojibake_items. }
  assert (Htab : fold_left mojibake_step MOJIBAKE_REMAP
                   (fold_left remove_step REMOVE_CHARS
                      (fold_left space_step SPACE_SUBS (t, [])))
                 = (t, [])).
  { rewrite (fold_left_fixed space_step).
    2:{ intros item Hin. apply space_step_absent, Hs. now apply in_map. }
    rewrite (fold_left_fixed remove_step).
    2:{ intros ch Hin. now apply remove_step_absent, Hr. }
    apply (fold_left_fixed mojibake_step). intros item Hin.
    apply mojibake_step_absent; [now apply mojibake_keys_nonempty | auto]. }
  assert (Hrep : repaired_text t = sub_stray (fst (subn_truncated t))).
  { rewrite <- repaired_fst. unfold repaired. rewrite Htab.
    now rewrite stray_step_text, truncated_step_text. }
  rewrite sanitize_fst, Hrep in H.
  pose proof (normalize_lines_length (sub_stray (fst (subn_truncated t))))
    as L1.
  rewrite H in L1.
  pose proof (sub_stray_length (fst (subn_truncated t))) as L2.
  pose proof (subn_truncated_length t) as L3.
  pose proof (scan_count_nonneg [A_circ] ahead_space [] 0
                (fst (subn_truncated t))) as N2.
  pose proof (scan_count_nonneg [a_circ; euro] ahead_closing [dquote] 0 t)
    as N3.
  fold (subn_truncated t) in N3.
  assert (Z3 : snd (subn_truncated t) = 0) by lia.
  destruct (scan_zero [a_circ; euro] ahead_closing [dquote] t
              ltac:(discriminate) Z3) as [E3 F3].
  fold (subn_truncated t) in E3. rewrite E3 in *.
  assert (Z2 : snd (Py.scan [A_circ] ahead_space [] 0 t) = 0) by lia.
  destruct (scan_zero [A_circ] ahead_space [] t ltac:(discriminate) Z2)
    as [_ F2].
  now apply clean_intro.
Qed.

(** X15.  The cleaned text equals the input exactly when the input holds no
    target of a repair stage and its lines are already in normal form.  So
    a text that [sanitize] returns unchanged comes with an empty change log:
    whenever a rule is logged, the text has changed. *)
Theorem sanitize_unchanged_iff (t : text) :
  (fst (sanitize t) = t <-> clean t = true /\ normalize_lines t = t)
  /\ (fst (sanitize t) = t -> snd (sanitize t) = []).
Proof.
  assert (H : fst (sanitize t) = t -> sanitize t = (t, [])).
  { intros H. pose proof (sanitize_clean t (unchanged_clean t H)) as E.
    rewrite E in H. cbn [fst] in H. now rewrite E, H. }
  split; [split|].
  - intros Hu. split; [now apply unchanged_clean|].
    pose proof (sanitize_clean t (unchanged_clean t Hu)) as E.
    rewrite E in Hu. exact Hu.
  - intros [Hc Hn]. now rewrite (sanitize_clean t Hc).
  - intros Hu. now rewrite (H Hu).
Qed.

(** ** Paths *)

Lemma rfind_spec s c :
  (rfind s c = -1 /\ ~ In c s)
  \/ (0 <= rfind s c
      /\ exists a b, s = a ++ c :: b
                     /\ Z.of_nat (length a) = rfind s c /\ ~ In c b).
Proof.
  induction s as [|x r IH]; [left; split; [reflexivity | intros []]|].
  cbn [rfind]. destruct IH as [[E Hn]|(Hi & a & b & -> & Ha & Hb)].
  - rewrite E. cbn [Z.leb Z.compare].
    destruct (Z.eqb_spec x c) as [->|Hx].
    + right. split; [lia|]. exists [], r. repeat split; assumption.
    + left. split; [reflexivity|]. intros [H|H]; [congruence | contradiction].
  - destruct (Z.leb_spec 0 (rfind (a ++ c :: b) c)); [|lia].
    right. split; [lia|]. exists (x :: a), b.
    repeat split; [|assumption]. cbn [length]. lia.
Qed.

Lemma firstn_length_app {A : Type} (a l : list A) :
  firstn (length a) (a ++ l) = a.
Proof. induction a as [|x a IH]; [reflexivity | simpl; now rewrite IH]. Qed.

(** A suffix is empty, or a dot followed by at least one character other
    than a dot, after a stem that is not empty. *)
Lemma suffix_cases p :
  suffix p = []
  \/ exists stem ext,
       name p = stem ++ 0x2E :: ext /\ suffix p = 0x2E :: ext
       /\ stem <> [] /\ ext <> [] /\ ~ In 0x2E ext.
Proof.
  unfold suffix.
  destruct (rfind_spec (name p) 0x2E) as [[E _]|(Hi & a & b & E & Ha & Hb)].
  - rewrite E. now left.
  - destruct ((0 <? rfind (name p) 0x2E)
              && (rfind (name p) 0x2E <? Z.of_nat (length (name p)) - 1))
      eqn:Ht; [|now left].
    right. exists a, b. rewrite <- Ha in *. rewrite Nat2Z.id.
    rewrite E in *. rewrite skipn_length_app.
    rewrite length_app in Ht. cbn [length] in Ht.
    repeat split; try assumption.
    + intros ->. cbn [length] in Ht. bool_to_Z. lia.
    + intros ->. cbn [length] in Ht. bool_to_Z. lia.
Qed.

Lemma name_with_tail p n' :
  name {| flavour := flavour p; drive := drive p; root := root p;
          tail := removelast (tail p) ++ [n'] |} = n'.
Proof. unfold name. cbn [tail]. apply last_last. Qed.

Lemma Ok_eq {A : Type} (x y : A) : Ok x = Ok y -> x = y.
Proof. congruence. Qed.

Lemma with_suffix_name p new q :
  with_suffix p new = Ok q ->
  name p <> []
  /\ (exists stem, name p = stem ++ suffix p /\ name q = stem ++ new)
  /\ flavour q = flavour p /\ drive q = drive p /\ root q = root p
  /\ removelast (tail q) = removelast (tail p).
Proof.
  unfold with_suffix.
  destruct (_ || _); [discriminate|].
  destruct (_ || _); [discriminate|].
  destruct (name p) as [|c n] eqn:En; [discriminate|].
  rewrite <- En. intros H. apply Ok_eq in H. subst q.
  split; [rewrite En; discriminate|].
  rewrite name_with_tail. cbn [flavour drive root tail].
  rewrite removelast_last. split; [|auto].
  destruct (suffix_cases p) as [E|(stem & ext & Hn & E & _)]; rewrite E.
  - exists (name p). now rewrite app_nil_r.
  - exists stem. rewrite Hn. split; [reflexivity|].
    rewrite length_app, Nat.add_sub. now rewrite firstn_length_app.
Qed.

Lemma name_differs p q : name q <> name p -> q <> p.
Proof. intros H ->. now apply H. Qed.

(** The backup is named by putting [.bak] after the whole name. *)
Lemma with_suffix_bak p q :
  with_suffix p (suffix p ++ str ".bak") = Ok q ->
  name q = name p ++ str ".bak" /\ q <> p.
Proof.
  intros H. apply with_suffix_name in H as (_ & (stem & Hp & Hq) & _).
  assert (E : name q = name p ++ str ".bak").
  { rewrite Hq, Hp at 1. now rewrite app_assoc. }
  split; [exact E|]. apply name_differs. rewrite E. intros H.
  apply (f_equal (@length _)) in H. rewrite length_app in H. simpl in H. lia.
Qed.

(** The default output replaces the suffix; it is never the input path. *)
Lemma with_suffix_clean p q :
  with_suffix p (str ".clean.srt") = Ok q ->
  (exists stem, name p = stem ++ suffix p
                /\ name q = stem ++ str ".clean.srt")
  /\ q <> p.
Proof.
  intros H. apply with_suffix_name in H as (_ & (stem & Hp & Hq) & _).
  split; [now exists stem|]. apply name_differs. rewrite Hq, Hp at 1.
  intros H. apply app_inv_head in H.
  destruct (suffix_cases p) as [E|(s & ext & _ & E & _ & _ & Hdot)];
    rewrite E in H; [discriminate|].
  injection H as <-. apply Hdot. simpl. tauto.
Qed.

(** ** [process_file] *)

Ltac inv H := inversion H; subst; clear H.

Lemma try_decode_returns data :
  exists t enc, try_decode data = Returned (t, enc).
Proof.
  destruct (try_decode_cases data)
    as [(t & _ & ->)|[(_ & t & _ & ->)|(_ & _ & ->)]]; eauto.
Qed.

Ltac step_exec :=
  match goal with
  | H : exec (Return _) _ _ |- _ => inv H
  | H : exec (Raise _) _ _ |- _ => inv H
  | H : exec (read_bytes _ _) _ _ |- _ => inv H
  | H : exec (write_bytes _ _ _) _ _ |- _ => inv H
  | H : exec (print _ _) _ _ |- _ => inv H
  | H : exec _ _ _ |- _ => progress cbn [when bind say write lift negb] in H
  | H : exec (if ?b then _ else _) _ _ |- _ => destruct b eqn:?
  | H : exec (bind (if ?b then _ else _) _) _ _ |- _ => destruct b eqn:?
  | H : exec ?m _ _ |- _ =>
    match m with
    | context [when ?b _] => destruct b eqn:?
    | context [lift ?r] => destruct r eqn:?
    end
  end.

(** Every run of [process_file], taken apart: the read, the decoded text,
    the cleaned text and the comparison, then one case for each way on. *)
Ltac runs H t enc Ht cleaned counts Es Ee :=
  unfold process_file in H; inv H;
  try match goal with
      | H' : exec ?m _ _ |- _ =>
        match m with
        | context [try_decode ?data] =>
          destruct (try_decode_returns data) as (t & enc & Ht);
          rewrite Ht in H'; cbn [lift_outcome bind] in H';
          destruct (sanitize t) as [cleaned counts] eqn:Es;
          destruct (text_eqb cleaned t) eqn:Ee; cbn [negb] in H';
          repeat step_exec
        end
      end.

Lemma Returned_eq {A : Type} (x y : A) : Returned x = Returned y -> x = y.
Proof. congruence. Qed.

Lemma with_suffix_error p new e : with_suffix p new = Err e -> e = ValueError.
Proof.
  unfold with_suffix.
  repeat match goal with
  | |- context [if ?b then _ else _] => destruct b
  | |- context [match name p with _ => _ end] => destruct (name p)
  end; congruence.
Qed.

Lemma sanitize_changed t cleaned counts :
  sanitize t = (cleaned, counts) -> text_eqb cleaned t = false ->
  cleaned = fst (sanitize t) /\ fst (sanitize t) <> t.
Proof.
  intros Es Ee. rewrite Es. cbn [fst]. split; [reflexivity|].
  intros ->. now rewrite text_eqb_refl in Ee.
Qed.

Lemma sanitize_same t cleaned counts :
  sanitize t = (cleaned, counts) -> text_eqb cleaned t = true ->
  sanitize t = (t, []).
Proof.
  intros Es Ee. apply text_eqb_eq in Ee as ->.
  assert (Hu : fst (sanitize t) = t) by now rewrite Es.
  pose proof (sanitize_clean t (unchanged_clean t Hu)) as E.
  rewrite E in Hu. cbn [fst] in Hu. now rewrite E, Hu.
Qed.

(** What [process_file] encodes can be encoded, and reads back. *)
Lemma cleaned_encodes data t enc (bom : bool) :
  try_decode data = Returned (t, enc) ->
  (forall e, encode (fst (sanitize t)) (if bom then "utf-8-sig" else "utf-8")
             <> Err e)
  /\ (forall d, encode (fst (sanitize t))
                  (if bom then "utf-8-sig" else "utf-8") = Ok d ->
        try_decode d = Returned (fst (sanitize t), "utf-8-sig"%string)).
Proof.
  intros Ht. pose proof (try_decode_returns_scalar _ _ _ Ht) as Hs.
  split.
  - intros e He.
    destruct (encode_scalar _ bom (sanitize_scalar _ Hs)) as [out Hout].
    congruence.
  - intros d Hd. rewrite (encode_read_back _ _ _ Hd), sanitize_no_signature.
    now rewrite andb_false_r.
Qed.

(** X16.  Without [--in-place] the input file is left alone: a run calls
    [write_bytes] at most once, for the path whose name has the suffix
    replaced by [.clean.srt], and that path is never the input path. *)
Theorem process_file_keeps_input (path : Path) (backup bom quiet : bool)
    (tr : list event) (r : ending bool) :
  exec (process_file path false backup bom quiet) tr r ->
  writes tr = []
  \/ exists out d stem,
       writes tr = [(out, d)]
       /\ out <> path
       /\ name path = stem ++ suffix path
       /\ name out = stem ++ str ".clean.srt".
Proof.
  intros H. runs H t enc Ht cleaned counts Es Ee; cbn [writes];
    try (left; reflexivity);
    match goal with
    | Hw : with_suffix _ _ = Ok ?out |- _ =>
      apply with_suffix_clean in Hw as [(stem & Hp & Hq) Hne];
      right; exists out; eauto 10
    end.
Qed.

Lemma process_file_keeps_input_witness :
  let path := {| flavour := posixpath; drive := []; root := [];
                 tail := [str "a.srt"] |} in
  let out := {| flavour := posixpath; drive := []; root := [];
                tail := [str "a.clean.srt"] |} in
  let tr := [Read path [x61; x20; x0a]; Wrote out [x61; x0a]] in
  exec (process_file path false false false true) tr (Returns true)
  /\ (writes tr = []
      \/ exists out d stem,
           writes tr = [(out, d)]
           /\ out <> path
           /\ name path = stem ++ suffix path
           /\ name out = stem ++ str ".clean.srt").
Proof.
  intros path out tr.
  assert (H : exec (process_file path false false false true) tr
                (Returns true)).
  { unfold process_file. apply exec_read. vm_compute.
    apply exec_write, exec_Return. }
  split; [exact H|].
  exact (process_file_keeps_input path false false true tr (Returns true) H).
Defined.

(** X17.  With [--in-place --backup] the input file is overwritten only
    after its bytes, as they were read, have been written to the path whose
    name is the input name followed by [.bak]; that path is not the input
    path.  If writing the backup fails, nothing else is written. *)
Theorem process_file_backup_first (path : Path) (bom quiet : bool)
    (tr : list event) (r : ending bool) :
  exec (process_file path true true bom quiet) tr r ->
  writes tr = []
  \/ exists data bak,
       name bak = name path ++ str ".bak" /\ bak <> path
       /\ (tr = [Read path data; Failed_write bak data]
           \/ exists rest,
                tr = Read path data :: Wrote bak data :: rest
                /\ (writes rest = []
                    \/ exists d, writes rest = [(path, d)])).
Proof.
  intros H. runs H t enc Ht cleaned counts Es Ee; cbn [writes];
    try (left; reflexivity);
    match goal with
    | Hw : with_suffix _ _ = Ok ?bak |- _ =>
      apply with_suffix_bak in Hw as [Hn Hne];
      right; exists data, bak; split; [exact Hn|]; split; [exact Hne|];
      first [ left; reflexivity
            | right; eexists; split; [reflexivity|]; cbn [writes]; eauto ]
    end.
Qed.

Lemma process_file_backup_first_witness :
  let path := {| flavour := posixpath; drive := []; root := [];
                 tail := [str "a.srt"] |} in
  let bak := {| flavour := posixpath; drive := []; root := [];
                tail := [str "a.srt.bak"] |} in
  let tr := [Read path [x61; x20; x0a]; Wrote bak [x61; x20; x0a];
             Wrote path [x61; x0a]] in
  exec (process_file path true true false true) tr (Returns true)
  /\ (writes tr = []
      \/ exists data bak,
           name bak = name path ++ str ".bak" /\ bak <> path
           /\ (tr = [Read path data; Failed_write bak data]
               \/ exists rest,
                    tr = Read path data :: Wrote bak data :: rest
                    /\ (writes rest = []
                        \/ exists d, writes rest = [(path, d)]))).
Proof.
  intros path bak tr.
  assert (H : exec (process_file path true true false true) tr
                (Returns true)).
  { unfold process_file. apply exec_read. vm_compute.
    apply exec_write, exec_write, exec_Return. }
  split; [exact H|].
  exact (process_file_backup_first path false true tr (Returns true) H).
Defined.

(** X18.  With [--in-place] and no backup, the input path is the only path
    written: a run calls [write_bytes] at most once, for the input path, with
    bytes that [try_decode] reads back as the cleaned text of what was
    read. *)
Theorem process_file_in_place (path : Path) (bom quiet : bool)
    (tr : list event) (r : ending bool) :
  exec (process_file path true false bom quiet) tr r ->
  writes tr = []
  \/ exists data t enc d,
       hd_error tr = Some (Read path data)
       /\ try_decode data = Returned (t, enc)
       /\ writes tr = [(path, d)]
       /\ try_decode d = Returned (fst (sanitize t), "utf-8-sig"%string).
Proof.
  intros H. runs H t enc Ht cleaned counts Es Ee; cbn [writes hd_error];
    try (left; reflexivity);
    destruct (sanitize_changed _ _ _ Es Ee) as [-> Hne];
    destruct (cleaned_encodes _ _ _ bom Ht) as [_ Hback];
    match goal with
    | He : encode _ _ = Ok ?d |- _ =>
      apply Hback in He; right; exists data, t, enc, d; auto
    end.
Qed.

Lemma process_file_in_place_witness :
  let path := {| flavour := posixpath; drive := []; root := [];
                 tail := [str "a.srt"] |} in
  let tr := [Read path [x61; x20; x0a]; Failed_write path [x61; x0a]] in
  exec (process_file path true false false true) tr Aborted
  /\ (writes tr = []
      \/ exists data t enc d,
           hd_error tr = Some (Read path data)
           /\ try_decode data = Returned (t, enc)
           /\ writes tr = [(path, d)]
           /\ try_decode d
              = Returned (fst (sanitize t), "utf-8-sig"%string)).
Proof.
  intros path tr.
  assert (H : exec (process_file path true false false true) tr Aborted).
  { unfold process_file. apply exec_read. vm_compute.
    apply exec_write_fails. }
  split; [exact H|].
  exact (process_file_in_place path false true tr Aborted H).
Defined.

(** X19.  A run that returns [True] has read the file, found that cleaning
    changes the decoded text, and written last the bytes that [try_decode]
    reads back as the cleaned text: to the input path with [--in-place], to
    the [.clean.srt] path without. *)
Theorem process_file_written (path : Path) (in_place backup bom quiet : bool)
    (tr : list event) :
  exec (process_file path in_place backup bom quiet) tr (Returns true) ->
  exists data t enc out d before,
    hd_error tr = Some (Read path data)
    /\ try_decode data = Returned (t, enc)
    /\ fst (sanitize t) <> t
    /\ writes tr = before ++ [(out, d)]
    /\ (if in_place then out = path
        else with_suffix path (str ".clean.srt") = Ok out)
    /\ try_decode d = Returned (fst (sanitize t), "utf-8-sig"%string).
Proof.
  intros H. runs H t enc Ht cleaned counts Es Ee;
    destruct (sanitize_changed _ _ _ Es Ee) as [-> Hne];
    destruct (cleaned_encodes _ _ _ bom Ht) as [_ Hback];
    match goal with
    | He : encode _ _ = Ok ?d |- _ => apply Hback in He
    end;
    cbn [writes hd_error].
  all: match goal with
       | |- context [[(?b, ?x); (?out, ?d)]] =>
         exists data, t, enc, out, d, [(b, x)]
       | |- context [[(?out, ?d)]] =>
         exists data, t, enc, out, d, []
       end; repeat split; auto.
Qed.

Lemma process_file_written_witness :
  let path := {| flavour := posixpath; drive := []; root := [];
                 tail := [str "a.srt"] |} in
  let tr := [Read path [x61; x20; x0a]; Wrote path [x61; x0a]] in
  exec (process_file path true false false true) tr (Returns true)
  /\ exists data t enc out d before,
       hd_error tr = Some (Read path data)
       /\ try_decode data = Returned (t, enc)
       /\ fst (sanitize t) <> t
       /\ writes tr = before ++ [(out, d)]
       /\ out = path
       /\ try_decode d = Returned (fst (sanitize t), "utf-8-sig"%string).
Proof.
  intros path tr.
  assert (H : exec (process_file path true false false true) tr
                (Returns true)).
  { unfold process_file. apply exec_read. vm_compute.
    apply exec_write, exec_Return. }
  split; [exact H|].
  exact (process_file_written path true false false true tr H).
Defined.

(** X20.  A run that returns [False] has written nothing, and the decoded
    text was a fixed point of [sanitize] with an empty change log: a file is
    reported clean only when no rule applies to it and its line endings are
    in normal form already. *)
Theorem process_file_clean (path : Path) (in_place backup bom quiet : bool)
    (tr : list event) :
  exec (process_file path in_place backup bom quiet) tr (Returns false) ->
  writes tr = []
  /\ exists data t enc,
       hd_error tr = Some (Read path data)
       /\ try_decode data = Returned (t, enc)
       /\ sanitize t = (t, []).
Proof.
  intros H. runs H t enc Ht cleaned counts Es Ee; cbn [writes hd_error];
    (split; [reflexivity|]); exists data, t, enc;
    repeat split; try assumption; exact (sanitize_same _ _ _ Es Ee).
Qed.

Lemma process_file_clean_witness :
  let path := {| flavour := posixpath; drive := []; root := [];
                 tail := [str "a.srt"] |} in
  let tr := [Read path [x61; x0a]] in
  exec (process_file path false false false true) tr (Returns false)
  /\ writes tr = []
  /\ exists data t enc,
       hd_error tr = Some (Read path data)
       /\ try_decode data = Returned (t, enc)
       /\ sanitize t = (t, []).
Proof.
  intros path tr.
  assert (H : exec (process_file path false false false true) tr
                (Returns false)).
  { unfold process_file. apply exec_read. vm_compute. apply exec_Return. }
  split; [exact H|].
  exact (process_file_clean path false false false true tr H).
Defined.

(** X21.  The only exception that [process_file] raises by itself is the
    [ValueError] of [with_suffix], and it is raised before anything is
    written; encoding the cleaned text never fails.  (What remains are the
    exceptions of the operating system in a read, a write or a print.) *)
Theorem process_file_raises (path : Path) (in_place backup bom quiet : bool)
    (tr : list event) (e : error) :
  exec (process_file path in_place backup bom quiet) tr (Raises e) ->
  e = ValueError /\ writes tr = [] /\ (in_place = true -> backup = true).
Proof.
  intros H. runs H t enc Ht cleaned counts Es Ee;
    destruct (sanitize_changed _ _ _ Es Ee) as [-> Hne];
    destruct (cleaned_encodes _ _ _ bom Ht) as [Hok _];
    try match goal with
    | He : encode _ _ = Err _ |- _ => now apply Hok in He
    end;
    match goal with
    | Hw : with_suffix _ _ = Err _ |- _ => apply with_suffix_error in Hw as ->
    end; cbn [writes]; repeat split; auto; discriminate.
Qed.

Lemma process_file_raises_witness :
  let path := {| flavour := posixpath; drive := []; root := [];
                 tail := [] |} in
  let tr := [Read path [x61; x20; x0a]] in
  exec (process_file path false false false true) tr (Raises ValueError)
  /\ ValueError = ValueError /\ writes tr = []
  /\ (false = true -> false = true).
Proof.
  intros path tr.
  assert (H : exec (process_file path false false false true) tr
                (Raises ValueError)).
  { unfold process_file. apply exec_read. vm_compute. apply exec_Raise. }
  split; [exact H|].
  exact (process_file_raises path false false false true tr ValueError H).
Defined.

Lemma sanitize_twice t :
  has_truncated (fst (sanitize t)) = false ->
  has_stray (fst (sanitize t)) = false ->
  sanitize (fst (sanitize t)) = (fst (sanitize t), []).
Proof.
  intros Ht Hs. rewrite sanitize_clean.
  - f_equal. rewrite sanitize_fst. apply normalize_lines_idem.
  - unfold clean.
    now rewrite sanitize_chars_clean, sanitize_no_mojibake, Ht, Hs.
Qed.

(** X22.  Running the program on its own output does nothing: when [out]
    is the encoding of the cleaned text of some data (what a successful run
    writes) and no context pattern matches in that cleaned text, a run that
    reads [out] writes nothing and does not return [True]. *)
Theorem process_file_second_run (path : Path)
    (in_place backup bom quiet bom0 : bool) (data out : bytes) (t : text)
    (enc : string) (tr : list event) (r : ending bool) :
  try_decode data = Returned (t, enc) ->
  encode (fst (sanitize t)) (if bom0 then "utf-8-sig" else "utf-8") = Ok out ->
  has_truncated (fst (sanitize t)) = false ->
  has_stray (fst (sanitize t)) = false ->
  exec (process_file path in_place backup bom quiet) (Read path out :: tr) r ->
  writes tr = [] /\ (r = Returns false \/ r = Aborted).
Proof.
  intros Hdata Hout Htr Hst H.
  destruct (cleaned_encodes _ _ _ bom0 Hdata) as [_ Hback].
  apply Hback in Hout. pose proof (sanitize_twice t Htr Hst) as Hfix.
  clear Hback Htr Hst Hdata.
  remember (fst (sanitize t)) as c eqn:Hc. clear Hc t.
  runs H t2 enc2 Ht2 cleaned2 counts2 Es2 Ee2;
    rewrite Hout in Ht2; apply Returned_eq in Ht2;
    injection Ht2 as <- <-; rewrite Hfix in Es2;
    injection Es2 as <- <-;
    try (rewrite text_eqb_refl in Ee2; discriminate);
    cbn [writes]; auto.
Qed.

Lemma process_file_second_run_witness :
  let path := {| flavour := posixpath; drive := []; root := [];
                 tail := [str "a.srt"] |} in
  try_decode [x61; x20; x0a] = Returned (str "a " ++ [LF], "utf-8-sig"%string)
  /\ encode (fst (sanitize (str "a " ++ [LF]))) "utf-8" = Ok [x61; x0a]
  /\ has_truncated (fst (sanitize (str "a " ++ [LF]))) = false
  /\ has_stray (fst (sanitize (str "a " ++ [LF]))) = false
  /\ exec (process_file path true false false true)
       [Read path [x61; x0a]] (Returns false)
  /\ writes [] = []
  /\ (Returns false = Returns false \/ Returns false = @Aborted bool).
Proof.
  intros path.
  assert (H : exec (process_file path true false false true)
                [Read path [x61; x0a]] (Returns false)).
  { unfold process_file. apply exec_read. vm_compute. apply exec_Return. }
  do 4 (split; [reflexivity|]). split; [exact H|].
  exact (process_file_second_run path true false false true false
           [x61; x20; x0a] [x61; x0a] (str "a " ++ [LF]) "utf-8-sig" []
           (Returns false) eq_refl eq_refl eq_refl eq_refl H).
Defined.

(** ** The length of the cleaned text *)

Lemma replace_length t old new :
  old <> [] -> (length new <= length old)%nat ->
  (length (Py.replace t old new) <= length t)%nat.
Proof.
  intros Hold Hlen. unfold Py.replace.
  destruct old as [|o old']; [contradiction|].
  pose proof (scan_length (o :: old') Py.always new Hold t 0%nat) as H.
  pose proof (scan_count_nonneg (o :: old') Py.always new 0 t) as Hn.
  assert (0 <= snd (Py.scan (o :: old') Py.always new 0 t)
               * (Z.of_nat (length (o :: old')) - Z.of_nat (length new)))
    by (apply Z.mul_nonneg_nonneg; lia).
  lia.
Qed.

Lemma fold_replace_length {A : Type} (key new : A -> text) (l : list A) :
  Forall (fun a => key a <> [] /\ (length (new a) <= length (key a))%nat) l ->
  forall t,
    (length (fold_left (fun t a => Py.replace t (key a) (new a)) l t)
     <= length t)%nat.
Proof.
  induction 1 as [|a l [Hk Hn] Hl IH]; intros t; [reflexivity|].
  cbn [fold_left]. etransitivity; [apply IH|]. now apply replace_length.
Qed.

(** X23.  Cleaning never makes a text longer: every replacement is at most
    as long as what it replaces, and the last stage only drops characters. *)
Theorem sanitize_length (t : text) :
  (length (fst (sanitize t)) <= length t)%nat.
Proof.
  rewrite sanitize_fst. etransitivity; [apply normalize_lines_length|].
  unfold repaired_text.
  pose proof (sub_stray_length
                (fst (subn_truncated
                        (mojibake_text (removed_text (spaces_text t))))))
    as H1.
  pose proof (scan_count_nonneg [A_circ] ahead_space [] 0
                (fst (subn_truncated
                        (mojibake_text (removed_text (spaces_text t))))))
    as N1.
  pose proof (subn_truncated_length
                (mojibake_text (removed_text (spaces_text t)))) as H2.
  pose proof (scan_count_nonneg [a_circ; euro] ahead_closing [dquote] 0
                (mojibake_text (removed_text (spaces_text t)))) as N2.
  fold (subn_truncated (mojibake_text (removed_text (spaces_text t)))) in N2.
  assert (H3 : (length (mojibake_text (removed_text (spaces_text t)))
                <= length (removed_text (spaces_text t)))%nat).
  { apply (fold_replace_length fst snd).
    unfold MOJIBAKE_REMAP. repeat constructor; (discriminate || simpl; lia). }
  assert (H4 : (length (removed_text (spaces_text t))
                <= length (spaces_text t))%nat).
  { apply (fold_replace_length (fun ch => [ch]) (fun _ => [])).
    unfold REMOVE_CHARS. repeat constructor; (discriminate || simpl; lia). }
  assert (H5 : (length (spaces_text t) <= length t)%nat).
  { apply (fold_replace_length (fun item => [fst item]) snd).
    unfold SPACE_SUBS. repeat constructor; (discriminate || simpl; lia). }
  lia.
Qed.

(** ** The order of the change log *)

Lemma distinct_NoDup l : distinct l = true -> NoDup l.
Proof.
  induction l as [|x r IH]; [constructor|].
  cbn [distinct]. rewrite andb_true_iff, negb_true_iff. intros [Hx Hr].
  constructor; [|auto]. intros Hin.
  assert (existsb (text_eqb x) r = true); [|congruence].
  apply existsb_exists. exists x. split; [exact Hin | apply text_eqb_refl].
Qed.

Lemma all_labels_NoDup : NoDup all_labels.
Proof. apply distinct_NoDup. vm_compute. reflexivity. Qed.

Lemma subseq_In {A : Type} (a b : list A) x :
  subseq a b -> In x a -> In x b.
Proof.
  induction 1 as [|y a b _ IH|y a b _ IH]; simpl; [tauto | tauto |].
  intros [->|H]; auto.
Qed.

Lemma subseq_refl {A : Type} (a : list A) : subseq a a.
Proof. induction a; constructor; assumption. Qed.

Lemma subseq_nil_l {A : Type} (b : list A) : subseq [] b.
Proof. induction b; constructor; assumption. Qed.

Lemma subseq_app_r {A : Type} (a b c : list A) :
  subseq a b -> subseq a (b ++ c).
Proof.
  induction 1 as [|y a b _ IH|y a b _ IH]; simpl.
  - apply subseq_nil_l.
  - now constructor.
  - now constructor.
Qed.

Lemma subseq_snoc {A : Type} (a b : list A) k :
  subseq a b -> subseq (a ++ [k]) (b ++ [k]).
Proof.
  induction 1 as [|y a b _ IH|y a b _ IH]; simpl.
  - apply subseq_refl.
  - now constructor.
  - now constructor.
Qed.

(** A new key goes to the end of the dictionary. *)
Lemma setitem_fresh d k v :
  ~ In k (map fst d) -> map fst (Py.setitem d k v) = map fst d ++ [k].
Proof.
  induction d as [|[k0 v0] d IH]; simpl; [reflexivity|]. intros H.
  destruct (text_eqb k0 k) eqn:E.
  - apply text_eqb_eq in E. tauto.
  - simpl. rewrite IH by tauto. reflexivity.
Qed.

Lemma setitem_subseq d k v done rest :
  subseq (map fst d) done -> NoDup (done ++ k :: rest) ->
  subseq (map fst (Py.setitem d k v)) (done ++ [k]).
Proof.
  intros Hs Hn. apply NoDup_remove_2 in Hn.
  rewrite setitem_fresh.
  - now apply subseq_snoc.
  - intros Hin. apply Hn, in_or_app. left.
    exact (subseq_In _ _ _ Hs Hin).
Qed.

Lemma fold_subseq {A : Type} (step : state -> A -> state) (lab : A -> text) :
  (forall t c a,
     snd (step (t, c) a) = c
     \/ exists v, snd (step (t, c) a) = Py.setitem c (lab a) v) ->
  forall l st done rest,
    subseq (map fst (snd st)) done ->
    NoDup (done ++ map lab l ++ rest) ->
    subseq (map fst (snd (fold_left step l st))) (done ++ map lab l).
Proof.
  intros Hstep. induction l as [|a l IH]; intros [t c] done rest Hs Hn.
  - cbn [fold_left map]. now rewrite app_nil_r.
  - cbn [fold_left map] in *.
    replace (done ++ lab a :: map lab l)
      with ((done ++ [lab a]) ++ map lab l)
      by now rewrite <- app_assoc.
    apply (IH _ _ rest).
    + destruct (Hstep t c a) as [H|[v H]];
        match type of H with
        | ?lhs = _ =>
          match goal with
          | |- subseq (map fst ?x) _ => change x with lhs; rewrite H
          end
        end.
      * now apply subseq_app_r.
      * now apply (setitem_subseq _ _ _ _ (map lab l ++ rest)).
    + now rewrite <- app_assoc.
Qed.

Lemma space_step_log t c item :
  snd (space_step (t, c) item) = c
  \/ exists v, snd (space_step (t, c) item)
               = Py.setitem c (label_replaced (fst item)) v.
Proof.
  destruct item as [ch rep]. unfold space_step.
  destruct (Py.count t [ch] =? 0); cbn [snd fst]; eauto.
Qed.

Lemma remove_step_log t c ch :
  snd (remove_step (t, c) ch) = c
  \/ exists v, snd (remove_step (t, c) ch) = Py.setitem c (label_removed ch) v.
Proof.
  unfold remove_step. destruct (Py.count t [ch] =? 0); cbn [snd]; eauto.
Qed.

Lemma mojibake_step_log t c item :
  snd (mojibake_step (t, c) item) = c
  \/ exists v, snd (mojibake_step (t, c) item)
               = Py.setitem c (label_mojibake (fst item) (snd item)) v.
Proof.
  destruct item as [bad good]. unfold mojibake_step.
  destruct (Py.count t bad =? 0); cbn [snd fst]; eauto.
Qed.

Lemma truncated_step_log st :
  snd (truncated_step st) = snd st
  \/ exists v, snd (truncated_step st) = Py.setitem (snd st) label_truncated v.
Proof.
  destruct st as [t c]. unfold truncated_step.
  destruct (subn_truncated t) as [new_text nfix].
  destruct (nfix =? 0); cbn [snd]; eauto.
Qed.

Lemma stray_step_log st :
  snd (stray_step st) = snd st
  \/ exists v, snd (stray_step st) = Py.setitem (snd st) label_stray v.
Proof.
  destruct st as [t c]. unfold stray_step.
  destruct (_ =? 0); cbn [snd]; eauto.
Qed.

(** X24.  The change log lists the rules in the order of the stages: its
    labels are a selection, in order, of the nineteen labels that [sanitize]
    can write (six spaces, four invisible characters, seven mojibake
    literals, the truncated quote, the stray marker). *)
Theorem sanitize_log_order (t : text) :
  subseq (map fst (snd (sanitize t))) all_labels.
Proof.
  pose proof all_labels_NoDup as Hn. unfold all_labels in *.
  set (L1 := map (fun item => label_replaced (fst item)) SPACE_SUBS) in *.
  set (L2 := map label_removed REMOVE_CHARS) in *.
  set (L3 := map (fun item => label_mojibake (fst item) (snd item))
               MOJIBAKE_REMAP) in *.
  rewrite sanitize_snd. unfold repaired.
  set (st1 := fold_left space_step SPACE_SUBS (t, [])).
  set (st2 := fold_left remove_step REMOVE_CHARS st1).
  set (st3 := fold_left mojibake_step MOJIBAKE_REMAP st2).
  assert (H1 : subseq (map fst (snd st1)) L1).
  { apply (fold_subseq space_step (fun item => label_replaced (fst item))
             space_step_log SPACE_SUBS (t, []) []
             (L2 ++ L3 ++ [label_truncated; label_stray]));
      [constructor | exact Hn]. }
  assert (H2 : subseq (map fst (snd st2)) (L1 ++ L2)).
  { apply (fold_subseq remove_step label_removed remove_step_log
             REMOVE_CHARS st1 L1 (L3 ++ [label_truncated; label_stray]));
      [exact H1 | exact Hn]. }
  assert (H3 : subseq (map fst (snd st3)) ((L1 ++ L2) ++ L3)).
  { apply (fold_subseq mojibake_step
             (fun item => label_mojibake (fst item) (snd item))
             mojibake_step_log MOJIBAKE_REMAP st2 (L1 ++ L2)
             [label_truncated; label_stray]); [exact H2|].
    now rewrite <- app_assoc. }
  assert (Hn' : NoDup (((L1 ++ L2) ++ L3) ++ [label_truncated; label_stray]))
    by now rewrite <- !app_assoc.
  assert (H4 : subseq (map fst (snd (truncated_step st3)))
                 ((((L1 ++ L2) ++ L3) ++ [label_truncated]))).
  { destruct (truncated_step_log st3) as [E|[v E]]; rewrite E.
    - now apply subseq_app_r.
    - now apply (setitem_subseq _ _ _ _ [label_stray]). }
  replace (L1 ++ L2 ++ L3 ++ [label_truncated; label_stray])
    with (((((L1 ++ L2) ++ L3) ++ [label_truncated])) ++ [label_stray])
    by now rewrite <- !app_assoc.
  destruct (stray_step_log (truncated_step st3)) as [E|[v E]]; rewrite E.
  - now apply subseq_app_r.
  - apply (setitem_subseq _ _ _ _ []); [exact H4|].
    now rewrite <- !app_assoc in *.
Qed.

(** ** Valid UTF-8 *)

Lemma omap_cons_head c o t :
  omap (cons c) o = Returned t -> Py.startswith t [0xFEFF] = true ->
  c = 0xFEFF.
Proof.
  destruct o as [t'|e]; [|discriminate]. cbn [omap].
  intros E. apply Returned_eq in E. subst t. cbn [Py.startswith].
  rewrite andb_true_r. apply Z.eqb_eq.
Qed.

(** Only EF BB BF is decoded to U+FEFF. *)
Lemma utf_8_signature raw t :
  Codec.utf_8 strict raw = Returned t ->
  Py.startswith t [0xFEFF] = true ->
  Py.startswith raw [0xEF; 0xBB; 0xBF] = true.
Proof.
  destruct raw as [|b0 r0]; [intros [= <-]; discriminate|].
  cbn [Codec.utf_8].
  repeat match goal with
  | |- context [if ?c then _ else _] => destruct c eqn:?
  | |- context [match ?r with [] => _ | _ :: _ => _ end] => destruct r
  end; cbn [undecodable]; try discriminate;
  intros E Hs; apply (omap_cons_head _ _ _ E) in Hs; clear E.
  - bool_to_Z. lia.
  - exfalso. unfold Codec.is_cont, Codec.low6 in *. bool_to_Z.
    rewrite land_1F, land_3F, lor_shl6 in Hs by divmod. divmod.
  - unfold Codec.second_of_3, Codec.is_cont, Codec.low6 in *.
    rewrite land_0F, !land_3F in Hs. rewrite lor_shl6 in Hs by divmod.
    rewrite lor_shl12 in Hs by divmod.
    cbn [Py.startswith]. bool_to_Z.
    repeat match goal with
    | H : (if ?c then _ else _) = true |- _ => destruct c eqn:?
    end; bool_to_Z; repeat split; divmod.
  - exfalso. unfold Codec.second_of_4, Codec.is_cont, Codec.low6 in *.
    rewrite land_07, !land_3F in Hs. rewrite lor_shl6 in Hs by divmod.
    rewrite lor_shl12 in Hs by divmod. rewrite lor_shl18 in Hs by divmod.
    repeat match goal with
    | H : (if ?c then _ else _) = true |- _ => destruct c eqn:?
    end; bool_to_Z; divmod.
Qed.

(** X25.  Valid UTF-8 is read as UTF-8: when the data decodes as [utf-8],
    [try_decode] returns that text under the label [utf-8-sig], without its
    first character if that is U+FEFF (the signature). *)
Theorem try_decode_valid_utf_8 (data : bytes) (t : text) :
  decode data "utf-8" strict = Returned t ->
  try_decode data
  = Returned (if Py.startswith t [0xFEFF] then tl t else t,
              "utf-8-sig"%string).
Proof.
  rewrite decode_utf_8. intros H. apply try_decode_utf_8_sig.
  rewrite utf_8_sig_eq.
  destruct (Py.startswith (map ord_byte data) [0xEF; 0xBB; 0xBF]) eqn:Hb.
  - apply startswith_skipn in Hb. cbn [length] in Hb.
    rewrite Hb in H. cbn [app] in H. rewrite utf_8_BOM in H.
    destruct (Codec.utf_8 strict (skipn 3 (map ord_byte data))) as [t'|e];
      [|discriminate].
    cbn [omap] in H. apply Returned_eq in H. subst t. reflexivity.
  - destruct (Py.startswith t [0xFEFF]) eqn:Hs; [|exact H].
    rewrite (utf_8_signature _ _ H Hs) in Hb. discriminate.
Qed.

Lemma try_decode_valid_utf_8_witness :
  decode [xc3; xa9] "utf-8" strict = Returned [0xE9]
  /\ try_decode [xc3; xa9] = Returned ([0xE9], "utf-8-sig"%string).
Proof.
  split; [reflexivity|].
  exact (try_decode_valid_utf_8 [xc3; xa9] [0xE9] eq_refl).
Defined.

(** ** What [process_file] reports *)

Lemma Printed_eq a b : Printed a = Printed b -> a = b.
Proof. congruence. Qed.

(** X26.  The report is truthful.  A line is printed only when [quiet] is
    off, and it is the last thing a run does.  The line that names the
    input path as clean is printed only in a run that wrote nothing; the line
    that names an output path is printed only after the write to that path
    went through, and it lists the change log of the decoded text (or
    [changes made] when the log is empty). *)
Theorem process_file_report (path : Path) (in_place backup bom quiet : bool)
    (tr : list event) (r : ending bool) (line : fstring) :
  exec (process_file path in_place backup bom quiet) tr r ->
  In (Printed line) tr ->
  quiet = false
  /\ exists before, tr = before ++ [Printed line]
     /\ ((r = Returns false /\ writes tr = [] /\ In (Of_path path) line)
         \/ (r = Returns true
             /\ exists data t enc out d earlier,
                  hd_error tr = Some (Read path data)
                  /\ try_decode data = Returned (t, enc)
                  /\ before = earlier ++ [Wrote out d]
                  /\ In (Of_path out) line
                  /\ exists front,
                       line = front ++ stats_of (snd (sanitize t)))).
Proof.
  intros H Hin. runs H t enc Ht cleaned counts Es Ee;
    cbn [In] in Hin;
    repeat match goal with
    | H : _ \/ _ |- _ => destruct H as [H|H]
    | H : False |- _ => contradiction
    | H : _ = Printed _ |- _ => first [discriminate H | apply Printed_eq in H]
    end; subst line;
    match goal with
    | H : negb ?q = true |- _ => apply negb_true_iff in H
    | H : negb ?q = false |- _ => idtac
    end;
    (split; [assumption|]).
  all: match goal with
       | |- exists before, ?a :: ?b :: ?c :: [?p] = _ /\ _ =>
         exists [a; b; c]
       | |- exists before, ?a :: ?b :: [?p] = _ /\ _ => exists [a; b]
       | |- exists before, ?a :: [?p] = _ /\ _ => exists [a]
       end; (split; [reflexivity|]).
  all: first
    [ solve [left; repeat split; cbn [In]; auto 10]
    | right; split; [reflexivity|] ].
  all: match goal with
       | |- context [[?a; ?b; Wrote ?out ?d]] =>
         exists data, t, enc, out, d, [a; b]
       | |- context [[?a; Wrote ?out ?d]] =>
         exists data, t, enc, out, d, [a]
       end;
       cbn [hd_error]; repeat split; try assumption;
       [ cbn [In app]; auto 10
       | rewrite Es; cbn [snd app];
         match goal with
         | |- exists front,
                ?x1 :: ?x2 :: ?x3 :: ?x4 :: ?x5 :: ?x6 :: ?x7 :: _ = _ =>
           exists [x1; x2; x3; x4; x5; x6; x7]; reflexivity
         end ].
Qed.

Lemma process_file_report_witness :
  let path := {| flavour := posixpath; drive := []; root := [];
                 tail := [str "a.srt"] |} in
  let line := [Lit ([bullet] ++ str " "); Lit (str "overwrote");
               Lit (str " "); Of_path path; Lit (str " [");
               Lit (str "utf-8"); Lit (str "] " ++ [em_dash] ++ str " ");
               Lit (str "changes made")] in
  let tr := [Read path [x61; x20; x0a]; Wrote path [x61; x0a];
             Printed line] in
  let r := Returns true in
  exec (process_file path true false false false) tr r
  /\ In (Printed line) tr
  /\ false = false
  /\ exists before, tr = before ++ [Printed line]
     /\ ((r = Returns false /\ writes tr = [] /\ In (Of_path path) line)
         \/ (r = Returns true
             /\ exists data t enc out d earlier,
                  hd_error tr = Some (Read path data)
                  /\ try_decode data = Returned (t, enc)
                  /\ before = earlier ++ [Wrote out d]
                  /\ In (Of_path out) line
                  /\ exists front,
                       line = front ++ stats_of (snd (sanitize t)))).
Proof.
  intros path line tr r.
  assert (H : exec (process_file path true false false false) tr r).
  { unfold process_file. apply exec_read. vm_compute.
    apply exec_write, exec_print, exec_Return. }
  assert (Hin : In (Printed line) tr) by (simpl; tauto).
  split; [exact H|]. split; [exact Hin|].
  exact (process_file_report path true false false false tr r line H Hin).
Defined.

(** ** A scan across a separator *)

Section ScanSep.

Variables (old : text) (ahead : text -> bool) (new : text) (sp : char).
Hypothesis old_nonempty : old <> [].
Hypothesis sp_free : ~ In sp old.
Hypothesis ahead_sp : forall r b, ahead (r ++ sp :: b) = ahead r.

Lemma startswith_sep (w : text) :
  ~ In sp w ->
  forall u b, Py.startswith (u ++ sp :: b) w = Py.startswith u w.
Proof.
  induction w as [|p w IH]; intros Hw u b; [reflexivity|].
  destruct u as [|c u]; cbn [app Py.startswith].
  - destruct (Z.eqb_spec sp p) as [->|]; [|reflexivity].
    exfalso. apply Hw. now left.
  - rewrite IH by (intros H; apply Hw; now right). reflexivity.
Qed.

Lemma hit_sep u b :
  Py.startswith (u ++ sp :: b) old
  && ahead (skipn (length old) (u ++ sp :: b))
  = Py.startswith u old && ahead (skipn (length old) u).
Proof.
  rewrite startswith_sep by assumption.
  destruct (Py.startswith u old) eqn:Hs; [|reflexivity]. cbn [andb].
  apply startswith_iff in Hs as (r & ->).
  rewrite <- app_assoc, !skipn_length_app. apply ahead_sp.
Qed.

Lemma scan_sep b :
  forall a k, (k <= length a)%nat ->
    Py.scan old ahead new k (a ++ sp :: b)
    = (fst (Py.scan old ahead new k a) ++ sp :: fst (Py.scan old ahead new 0 b),
       snd (Py.scan old ahead new k a) + snd (Py.scan old ahead new 0 b)).
Proof.
  induction a as [|c a IH]; intros k Hk.
  - cbn [length] in Hk. assert (k = 0%nat) by lia. subst k.
    cbn [app Py.scan fst snd].
    pose proof (hit_sep [] b) as Hh. cbn [app] in Hh. rewrite Hh.
    destruct old as [|o old']; [contradiction|]. cbn [Py.startswith andb].
    destruct (Py.scan (o :: old') ahead new 0 b) as [o' n'].
    reflexivity.
  - destruct k as [|k].
    + cbn [app Py.scan].
      pose proof (hit_sep (c :: a) b) as Hh. cbn [app] in Hh. rewrite Hh.
      destruct (Py.startswith (c :: a) old) eqn:Hs; cbn [andb].
      * apply startswith_length in Hs. cbn [length] in Hs.
        destruct (ahead (skipn (length old) (c :: a))).
        -- rewrite IH by lia.
           destruct (Py.scan old ahead new (length old - 1) a) as [o n].
           destruct (Py.scan old ahead new 0 b) as [o' n'].
           cbn [fst snd]. f_equal; [now rewrite app_assoc | lia].
        -- rewrite IH by lia.
           destruct (Py.scan old ahead new 0 a) as [o n].
           destruct (Py.scan old ahead new 0 b) as [o' n'].
           reflexivity.
      * rewrite IH by lia.
        destruct (Py.scan old ahead new 0 a) as [o n].
        destruct (Py.scan old ahead new 0 b) as [o' n'].
        reflexivity.
    + cbn [app Py.scan]. cbn [length] in Hk. apply IH. lia.
Qed.

End ScanSep.

(** ** The ends of a scanned text *)

Section ScanEdge.

Variables (old : text) (ahead : text -> bool) (new : text).
Variable P : char -> Prop.
Hypothesis new_nonempty : new <> [].
Hypothesis new_P : Forall P new.

Lemma scan_skip_all t :
  forall k, (length t <= k)%nat -> Py.scan old ahead new k t = ([], 0).
Proof.
  induction t as [|c r IH]; intros k Hk; [reflexivity|].
  cbn [length] in Hk. destruct k as [|k]; [lia|].
  cbn [Py.scan]. apply IH. lia.
Qed.

Lemma new_last : exists q d, new = q ++ [d] /\ P d.
Proof.
  destruct (exists_last new_nonempty) as (q & d & E).
  exists q, d. split; [exact E|].
  rewrite E in new_P. apply Forall_app in new_P as [_ H].
  now inversion H.
Qed.

Lemma new_first : exists d r, new = d :: r /\ P d.
Proof.
  destruct new as [|d r]; [contradiction|].
  exists d, r. split; [reflexivity | now inversion new_P].
Qed.

(** The scan of a text that ends in a [P] character ends in one. *)
Lemma scan_last c :
  P c ->
  forall x k, (k <= length x)%nat ->
    exists q d, fst (Py.scan old ahead new k (x ++ [c])) = q ++ [d] /\ P d.
Proof.
  intros Hc. destruct new_last as (nq & nd & En & Hnd).
  assert (Hhit : forall t,
            (forall k, (k <= length t)%nat ->
               exists q d, fst (Py.scan old ahead new k (t ++ [c]))
                           = q ++ [d] /\ P d) ->
            exists q d,
              new ++ fst (Py.scan old ahead new (length old - 1) (t ++ [c]))
              = q ++ [d] /\ P d).
  { intros t IH.
    destruct (Nat.le_gt_cases (length old - 1) (length t)) as [Hle|Hgt].
    - destruct (IH _ Hle) as (q & d & E & Hd). rewrite E.
      exists (new ++ q), d. split; [now rewrite app_assoc | exact Hd].
    - rewrite scan_skip_all by (rewrite length_app; simpl; lia).
      cbn [fst]. rewrite app_nil_r. now exists nq, nd. }
  induction x as [|y x IH]; intros k Hk.
  - cbn [length] in Hk. assert (k = 0%nat) by lia. subst k.
    cbn [app Py.scan].
    destruct (Py.startswith [c] old && ahead (skipn (length old) [c])).
    + cbn [fst]. rewrite app_nil_r. now exists nq, nd.
    + cbn [fst]. now exists [], c.
  - destruct k as [|k].
    + cbn [app Py.scan].
      destruct (Py.startswith (y :: x ++ [c]) old
                && ahead (skipn (length old) (y :: x ++ [c]))).
      * destruct (Hhit x IH) as (q & d & E & Hd).
        destruct (Py.scan old ahead new (length old - 1) (x ++ [c]))
          as [o n].
        cbn [fst] in *. now exists q, d.
      * destruct (IH 0%nat ltac:(lia)) as (q & d & E & Hd).
        destruct (Py.scan old ahead new 0 (x ++ [c])) as [o n].
        cbn [fst] in *. rewrite E. now exists (y :: q), d.
    + cbn [app Py.scan]. cbn [length] in Hk. apply IH. lia.
Qed.

(** The scan of a text that begins with a [P] character begins with one. *)
Lemma scan_first c r :
  P c -> exists d r', fst (Py.scan old ahead new 0 (c :: r)) = d :: r' /\ P d.
Proof.
  intros Hc. destruct new_first as (nd & nr & En & Hnd).
  cbn [Py.scan].
  destruct (Py.startswith (c :: r) old
            && ahead (skipn (length old) (c :: r))).
  - destruct (Py.scan old ahead new (length old - 1) r) as [o n].
    cbn [fst]. rewrite En. now exists nd, (nr ++ o).
  - destruct (Py.scan old ahead new 0 r) as [o n].
    cbn [fst]. now exists c, o.
Qed.

End ScanEdge.

(** ** The stages across a space *)

Lemma solid_firm c : solid c = true -> firm c.
Proof.
  unfold solid, firm. rewrite !andb_true_iff, !negb_true_iff, Z.eqb_neq.
  tauto.
Qed.

Lemma solid_tables c :
  solid c = true -> exotic_space c = false /\ invisible c = false.
Proof.
  unfold solid. rewrite !andb_true_iff, !negb_true_iff.
  intros [[Hs Hi] _]. split; [|exact Hi].
  destruct (exotic_space c) eqn:E; [|reflexivity].
  apply exotic_space_isspace in E. congruence.
Qed.

Lemma tables_char c :
  exotic_space c = false -> invisible c = false ->
  removed_text (spaces_text [c]) = [c].
Proof.
  intros He Hi. now rewrite spaces_text_char, He, removed_text_char, Hi.
Qed.

Lemma always_sp (sp : char) r b : Py.always (r ++ sp :: b) = Py.always r.
Proof. reflexivity. Qed.

Lemma replace_sep t1 t2 old new :
  old <> [] -> ~ In 0x20 old ->
  Py.replace (t1 ++ 0x20 :: t2) old new
  = Py.replace t1 old new ++ 0x20 :: Py.replace t2 old new.
Proof.
  intros Ho Hs. rewrite !replace_scan by assumption.
  rewrite (scan_sep old Py.always new 0x20 Ho Hs (always_sp 0x20) t2 t1 0)
    by lia.
  reflexivity.
Qed.

Lemma replace_last x c old new :
  old <> [] -> new <> [] -> Forall firm new -> firm c ->
  exists q d, Py.replace (x ++ [c]) old new = q ++ [d] /\ firm d.
Proof.
  intros Ho Hn Hf Hc. rewrite replace_scan by assumption.
  apply (scan_last old Py.always new firm Hn Hf c Hc x 0). lia.
Qed.

Lemma replace_first c r old new :
  old <> [] -> new <> [] -> Forall firm new -> firm c ->
  exists d r', Py.replace (c :: r) old new = d :: r' /\ firm d.
Proof.
  intros Ho Hn Hf Hc. rewrite replace_scan by assumption.
  now apply (scan_first old Py.always new firm Hn Hf c r).
Qed.

(** The mojibake table: keys without a space, replacements made of firm
    characters. *)
Lemma mojibake_table_firm :
  Forall (fun item => fst item <> [] /\ ~ In 0x20 (fst item)
                      /\ snd item <> [] /\ Forall firm (snd item))
    MOJIBAKE_REMAP.
Proof.
  unfold MOJIBAKE_REMAP.
  repeat constructor; cbn [fst snd]; try discriminate;
    try (intros H; simpl in H; repeat destruct H as [H|H];
         try discriminate; exact H).
Qed.

Lemma fold_replace_sep (l : list (text * text)) :
  Forall (fun item => fst item <> [] /\ ~ In 0x20 (fst item)
                      /\ snd item <> [] /\ Forall firm (snd item)) l ->
  forall t1 t2,
    fold_left (fun t item => Py.replace t (fst item) (snd item)) l
      (t1 ++ 0x20 :: t2)
    = fold_left (fun t item => Py.replace t (fst item) (snd item)) l t1
      ++ 0x20
         :: fold_left (fun t item => Py.replace t (fst item) (snd item)) l t2.
Proof.
  induction 1 as [|item l (Ho & Hs & _) Hl IH]; intros t1 t2; [reflexivity|].
  cbn [fold_left]. rewrite replace_sep by assumption. apply IH.
Qed.

Lemma fold_replace_last (l : list (text * text)) :
  Forall (fun item => fst item <> [] /\ ~ In 0x20 (fst item)
                      /\ snd item <> [] /\ Forall firm (snd item)) l ->
  forall x c, firm c ->
    exists q d,
      fold_left (fun t item => Py.replace t (fst item) (snd item)) l
        (x ++ [c]) = q ++ [d] /\ firm d.
Proof.
  induction 1 as [|item l (Ho & _ & Hn & Hf) Hl IH]; intros x c Hc.
  - now exists x, c.
  - cbn [fold_left].
    destruct (replace_last x c _ _ Ho Hn Hf Hc) as (q & d & -> & Hd).
    now apply IH.
Qed.

Lemma fold_replace_first (l : list (text * text)) :
  Forall (fun item => fst item <> [] /\ ~ In 0x20 (fst item)
                      /\ snd item <> [] /\ Forall firm (snd item)) l ->
  forall c r, firm c ->
    exists d r',
      fold_left (fun t item => Py.replace t (fst item) (snd item)) l
        (c :: r) = d :: r' /\ firm d.
Proof.
  induction 1 as [|item l (Ho & _ & Hn & Hf) Hl IH]; intros c r Hc.
  - now exists c, r.
  - cbn [fold_left].
    destruct (replace_first c r _ _ Ho Hn Hf Hc) as (d & r' & -> & Hd).
    now apply IH.
Qed.

Lemma ahead_closing_sp r b :
  ahead_closing (r ++ 0x20 :: b) = ahead_closing r.
Proof.
  destruct r as [|c r]; [reflexivity|]. cbn [app ahead_closing].
  destruct (Z.eqb_spec c LF) as [->|]; [now destruct r|]. cbn [andb orb].
  reflexivity.
Qed.

Lemma subn_truncated_sep t1 t2 :
  fst (subn_truncated (t1 ++ 0x20 :: t2))
  = fst (subn_truncated t1) ++ 0x20 :: fst (subn_truncated t2).
Proof.
  unfold subn_truncated.
  rewrite (scan_sep [a_circ; euro] ahead_closing [dquote] 0x20
             ltac:(discriminate)
             ltac:(intros H; simpl in H; repeat destruct H as [H|H];
                   try discriminate; exact H)
             ahead_closing_sp t2 t1 0) by lia.
  reflexivity.
Qed.

Lemma dquote_firm : Forall firm [dquote].
Proof. repeat constructor. discriminate. Qed.

Lemma subn_truncated_last x c :
  firm c -> exists q d, fst (subn_truncated (x ++ [c])) = q ++ [d] /\ firm d.
Proof.
  intros Hc.
  apply (scan_last [a_circ; euro] ahead_closing [dquote] firm
           ltac:(discriminate) dquote_firm c Hc x 0). lia.
Qed.

Lemma subn_truncated_first c r :
  firm c -> exists d r', fst (subn_truncated (c :: r)) = d :: r' /\ firm d.
Proof.
  intros Hc.
  now apply (scan_first [a_circ; euro] ahead_closing [dquote] firm
               ltac:(discriminate) dquote_firm c r).
Qed.

Lemma normalize_lines_three d1 d2 :
  Py.isspace d1 = false -> Py.isspace d2 = false ->
  normalize_lines [d1; 0x20; d2] = [d1; 0x20; d2].
Proof.
  intros S1 S2. unfold normalize_lines.
  rewrite (splitlines_char d1) by now apply isspace_nobreak.
  rewrite (splitlines_char 0x20) by reflexivity.
  rewrite (splitlines_char d2) by now apply isspace_nobreak.
  cbn [Py.splitlines Py.cons_line map Py.join].
  rewrite !rstrip_cons. cbn [Py.rstrip]. rewrite S2.
  assert (E : Py.endswith_any [d1; 0x20; d2] [LF; CR] = false).
  { change [d1; 0x20; d2] with ([d1; 0x20] ++ [d2]).
    rewrite endswith_any_snoc. cbn [existsb].
    destruct (Z.eqb_spec d2 LF) as [->|]; [discriminate S2|].
    destruct (Z.eqb_spec d2 CR) as [->|]; [discriminate S2|].
    reflexivity. }
  rewrite E. reflexivity.
Qed.

(** The last stage around a space between two characters that are no
    whitespace. *)
Lemma normalize_lines_sep y d1 d2 z :
  Py.isspace d1 = false -> Py.isspace d2 = false ->
  (exists y', normalize_lines (y ++ [d1]) = y' ++ [d1])
  /\ (exists z', normalize_lines (d2 :: z) = d2 :: z')
  /\ normalize_lines ((y ++ [d1]) ++ 0x20 :: d2 :: z)
     = normalize_lines (y ++ [d1]) ++ 0x20 :: normalize_lines (d2 :: z).
Proof.
  intros S1 S2.
  destruct (normalize_lines_around ((y ++ [d1]) ++ [0x20]) d2 z S2)
    as (y1 & z1 & A1 & A2 & A3).
  destruct (normalize_lines_around y d1 [0x20; d2] S1)
    as (y2 & z2 & B1 & B2 & B3).
  rewrite normalize_lines_three in B2 by assumption.
  injection B2 as <-.
  split; [now exists y2|]. split; [now exists z1|].
  rewrite <- !app_assoc in A1, A3. cbn [app] in A1, A3.
  rewrite B3 in A1.
  assert (E : y1 = y2 ++ [d1; 0x20]).
  { change (y2 ++ [d1; 0x20; d2]) with (y2 ++ [d1; 0x20] ++ [d2]) in A1.
    rewrite app_assoc in A1. now apply app_inj_tail in A1 as [<- _]. }
  rewrite <- !app_assoc. cbn [app]. rewrite A3, A2.
  rewrite B1, E, <- !app_assoc. reflexivity.
Qed.

(** ** A no-break space between two words *)

Lemma tables_sep p s :
  removed_text (spaces_text (p ++ [0xA0] ++ s))
  = removed_text (spaces_text p) ++ 0x20 :: removed_text (spaces_text s).
Proof.
  rewrite !spaces_text_app, !removed_text_app. reflexivity.
Qed.

(** The text that reaches the stray-marker stage, on each side of the
    no-break space. *)
Lemma before_stray_sep p s :
  before_stray (p ++ [0xA0] ++ s)
  = before_stray p ++ 0x20 :: before_stray s.
Proof.
  unfold before_stray, before_truncated. rewrite tables_sep.
  unfold mojibake_text. rewrite (fold_replace_sep _ mojibake_table_firm).
  apply subn_truncated_sep.
Qed.

Lemma before_stray_last p c :
  solid c = true ->
  exists q d, before_stray (p ++ [c]) = q ++ [d] /\ firm d.
Proof.
  intros H. destruct (solid_tables _ H) as [E I].
  unfold before_stray, before_truncated.
  rewrite spaces_text_app, removed_text_app, tables_char by assumption.
  unfold mojibake_text.
  destruct (fold_replace_last _ mojibake_table_firm
              (removed_text (spaces_text p)) c (solid_firm _ H))
    as (q3 & e & -> & F).
  now apply subn_truncated_last.
Qed.

Lemma before_stray_first c s :
  solid c = true ->
  exists d r, before_stray (c :: s) = d :: r /\ firm d.
Proof.
  intros H. destruct (solid_tables _ H) as [E I].
  unfold before_stray, before_truncated.
  change (c :: s) with ([c] ++ s).
  rewrite spaces_text_app, removed_text_app, tables_char by assumption.
  unfold mojibake_text. cbn [app].
  destruct (fold_replace_first _ mojibake_table_firm
              c (removed_text (spaces_text s)) (solid_firm _ H))
    as (e & r3 & -> & F).
  now apply subn_truncated_first.
Qed.

Lemma invisible_plain c : invisible c = true -> exotic_space c = false.
Proof.
  unfold invisible. cbn [existsb REMOVE_CHARS]. rewrite !orb_true_iff.
  intros [H|[H|[H|[H|H]]]]; try discriminate;
    apply Z.eqb_eq in H; subst; reflexivity.
Qed.

(** An invisible character is gone before the stray-marker stage. *)
Lemma before_stray_invisible c r :
  invisible c = true -> before_stray (c :: r) = before_stray r.
Proof.
  intros H. unfold before_stray, before_truncated.
  change (c :: r) with ([c] ++ r).
  rewrite spaces_text_app, removed_text_app, spaces_text_char.
  rewrite (invisible_plain c H), removed_text_char, H. reflexivity.
Qed.

Lemma fold_replace_A_circ (l : list (text * text)) :
  (forall item, In item l -> In item MOJIBAKE_REMAP) ->
  forall t,
    fold_left (fun t item => Py.replace t (fst item) (snd item)) l
      (A_circ :: t)
    = A_circ
      :: fold_left (fun t item => Py.replace t (fst item) (snd item)) l t.
Proof.
  induction l as [|item l IH]; intros Hl t; [reflexivity|].
  cbn [fold_left].
  destruct (mojibake_items_shape item (Hl item (or_introl eq_refl)))
    as (x & E & _).
  rewrite E, replace_head by discriminate.
  apply IH. intros i Hi. apply Hl. now right.
Qed.

(** The stray marker itself reaches the stray-marker stage as it is. *)
Lemma before_stray_A_circ r :
  before_stray (A_circ :: r) = A_circ :: before_stray r.
Proof.
  unfold before_stray, before_truncated.
  change (A_circ :: r) with ([A_circ] ++ r).
  rewrite spaces_text_app, removed_text_app, tables_char by reflexivity.
  unfold mojibake_text. cbn [app].
  rewrite fold_replace_A_circ by auto.
  unfold subn_truncated. cbn [Py.scan Py.startswith Z.eqb andb].
  change (A_circ =? a_circ) with false. cbn [andb].
  now destruct (Py.scan [a_circ; euro] ahead_closing [dquote] 0 _).
Qed.

(** A text that begins with a word keeps a first character that is no
    whitespace, before and after the stray-marker stage. *)
Lemma word_start_kept s :
  word_start s = true ->
  exists h S0 S1,
    before_stray s = h :: S0
    /\ sub_stray (before_stray s) = h :: S1
    /\ Py.isspace h = false.
Proof.
  induction s as [|c r IH]; [discriminate|]. cbn [word_start].
  destruct (invisible c) eqn:Hi; cbn [orb].
  { intros H. rewrite before_stray_invisible by assumption. auto. }
  destruct (Z.eqb_spec c A_circ) as [->|Hc].
  { intros H. destruct (IH H) as (h & S0 & S1 & E0 & E1 & Hh).
    rewrite before_stray_A_circ, sub_stray_spec. rewrite sub_stray_spec in E1.
    exists A_circ, (before_stray r), (h :: S1).
    split; [reflexivity|]. split; [|reflexivity].
    cbn [spec_drop_stray]. rewrite E0. cbn [ahead_space]. rewrite Hh.
    rewrite andb_false_r. rewrite <- E0, E1. reflexivity. }
  intros Hs. apply negb_true_iff in Hs.
  assert (Hsolid : solid c = true).
  { unfold solid. rewrite Hs, Hi. cbn [negb andb].
    now apply negb_true_iff, Z.eqb_neq. }
  destruct (before_stray_first c r Hsolid) as (d & r' & E & [Hd Nd]).
  rewrite E, sub_stray_spec. exists d, r', (spec_drop_stray r').
  split; [reflexivity|]. split; [|exact Hd].
  cbn [spec_drop_stray].
  destruct (Z.eqb_spec d A_circ); [contradiction | reflexivity].
Qed.

Lemma spec_drop_stray_snoc x c :
  c <> A_circ -> exists q, spec_drop_stray (x ++ [c]) = q ++ [c].
Proof.
  intros Hc. induction x as [|a x (q & IH)]; cbn [app spec_drop_stray].
  - destruct (Z.eqb_spec c A_circ); [contradiction|]. now exists [].
  - rewrite IH. destruct ((a =? A_circ) && ahead_space (x ++ [c]));
      [now exists q | now exists (a :: q)].
Qed.

(** The stray-marker stage on each side of a space that a character other
    than whitespace follows. *)
Lemma sub_stray_sep x h z :
  Py.isspace h = false ->
  exists q,
    sub_stray (x ++ [0x20]) = q ++ [0x20]
    /\ sub_stray (x ++ 0x20 :: h :: z) = q ++ 0x20 :: sub_stray (h :: z).
Proof.
  intros Hh. rewrite !sub_stray_spec.
  destruct (spec_drop_stray_snoc x 0x20 ltac:(discriminate)) as (q & E).
  exists q. split; [exact E|].
  change (x ++ 0x20 :: h :: z) with (x ++ [0x20] ++ h :: z).
  rewrite app_assoc, spec_drop_stray_app by assumption.
  rewrite E, <- app_assoc. reflexivity.
Qed.

Lemma sub_stray_last q d :
  firm d ->
  sub_stray (q ++ [d]) = sub_stray q ++ [d]
  /\ sub_stray ((q ++ [d]) ++ [0x20]) = sub_stray (q ++ [d]) ++ [0x20].
Proof.
  intros [Sd Nd]. rewrite !sub_stray_spec.
  assert (E : forall b, (d =? A_circ) && b = false)
    by (intros b; destruct (Z.eqb_spec d A_circ); [contradiction|reflexivity]).
  assert (A : spec_drop_stray (q ++ [d]) = spec_drop_stray q ++ [d]).
  { rewrite (spec_drop_stray_app q d []) by assumption.
    cbn [spec_drop_stray]. now rewrite E. }
  split; [exact A|].
  rewrite <- app_assoc. cbn [app].
  rewrite (spec_drop_stray_app q d [0x20]) by assumption.
  cbn [spec_drop_stray ahead_space]. rewrite E, A.
  change (if (0x20 =? A_circ) && false then [] else [0x20]) with [0x20].
  now rewrite <- app_assoc.
Qed.

Lemma normalize_lines_snoc2 x h :
  Py.isspace h = false ->
  exists y, normalize_lines (x ++ [0x20; h]) = y ++ [0x20; h].
Proof.
  intros Hh.
  destruct (splitlines_around x 0x20 [h] eq_refl)
    as (ls1 & l1 & l2 & ls2 & H1 & H2 & H3).
  rewrite (splitlines_char 0x20) in H2 by reflexivity.
  rewrite (splitlines_char h) in H2 by now apply isspace_nobreak.
  cbn [Py.splitlines Py.cons_line] in H2. injection H2 as <- <-.
  assert (Hr : Py.rstrip [0x20; h] = [0x20; h]).
  { rewrite !rstrip_cons. cbn [Py.rstrip]. now rewrite Hh. }
  unfold normalize_lines. rewrite H3, map_app. cbn [map].
  rewrite (rstrip_app_kept l1 [0x20; h] 0x20 [h] Hr).
  rewrite (join_split [LF] (map Py.rstrip ls1) (l1 ++ [0x20; h]) []).
  replace (x ++ [0x20; h]) with ((x ++ [0x20]) ++ [h])
    by now rewrite <- app_assoc.
  rewrite endswith_any_snoc, space_not_LF_CR by assumption.
  cbn [flat_map]. rewrite !app_nil_r.
  exists (flat_map (fun l => l ++ [LF]) (map Py.rstrip ls1) ++ l1).
  now rewrite <- !app_assoc.
Qed.

(** The line stage keeps a space that a character other than whitespace
    follows, and works on what follows by itself. *)
Lemma normalize_lines_space x h z :
  Py.isspace h = false ->
  exists y z',
    normalize_lines (h :: z) = h :: z'
    /\ normalize_lines (x ++ 0x20 :: h :: z)
       = y ++ 0x20 :: normalize_lines (h :: z).
Proof.
  intros Hh.
  destruct (normalize_lines_around (x ++ [0x20]) h z Hh)
    as (y1 & z1 & A1 & A2 & A3).
  destruct (normalize_lines_snoc2 x h Hh) as (y & B).
  rewrite <- app_assoc in A1, A3. cbn [app] in A1, A3.
  rewrite B in A1.
  assert (E : y1 = y ++ [0x20]).
  { change (y ++ [0x20; h]) with (y ++ [0x20] ++ [h]) in A1.
    rewrite app_assoc in A1. now apply app_inj_tail in A1 as [<- _]. }
  exists y, z1. split; [exact A2|].
  rewrite A3, A2, E, <- app_assoc. reflexivity.
Qed.

Lemma sanitize_stages t :
  fst (sanitize t) = normalize_lines (sub_stray (before_stray t)).
Proof. apply sanitize_fst. Qed.

(** The cleaned text around the no-break space. *)
Lemma sanitize_text_around p s :
  word_start s = true ->
  (exists y d z,
     fst (sanitize (p ++ [0xA0] ++ s)) = y ++ [0x20] ++ fst (sanitize s)
     /\ fst (sanitize s) = d :: z /\ Py.isspace d = false)
  /\ (forall p' c, p = p' ++ [c] -> solid c = true ->
        fst (sanitize (p ++ [0xA0] ++ s))
        = fst (sanitize p) ++ [0x20] ++ fst (sanitize s)
        /\ exists y d, fst (sanitize p) = y ++ [d] /\ Py.isspace d = false).
Proof.
  intros Hs.
  destruct (word_start_kept s Hs) as (h & S0 & S1 & E0 & E1 & Hh).
  rewrite E0 in E1.
  assert (Ht : forall q,
            sub_stray (before_stray p ++ 0x20 :: h :: S0)
            = q ++ 0x20 :: sub_stray (h :: S0) ->
            fst (sanitize (p ++ [0xA0] ++ s))
            = normalize_lines (q ++ 0x20 :: h :: S1)).
  { intros q Q. now rewrite sanitize_stages, before_stray_sep, E0, Q, E1. }
  assert (Hz : fst (sanitize s) = normalize_lines (h :: S1))
    by now rewrite sanitize_stages, E0, E1.
  split.
  - destruct (sub_stray_sep (before_stray p) h S0 Hh) as (q & _ & Q).
    destruct (normalize_lines_space q h S1 Hh) as (y & z' & N1 & N2).
    exists y, h, z'. rewrite (Ht q Q), Hz, N2.
    repeat split; assumption.
  - intros p' c Hp Hc. subst p.
    destruct (before_stray_last p' c Hc) as (q & d & B & F).
    destruct (sub_stray_last q d F) as (L1 & L2).
    rewrite B in Ht.
    destruct (sub_stray_sep (q ++ [d]) h S0 Hh) as (q' & Q1 & Q2).
    rewrite L2 in Q1. apply app_inj_tail in Q1 as [<- _].
    rewrite (Ht _ Q2), Hz, (sanitize_stages (p' ++ [c])), B, L1.
    destruct F as [Sd _].
    destruct (normalize_lines_sep (sub_stray q) d h S1 Sd Hh)
      as ((y' & N1) & _ & N3).
    rewrite N3. split; [reflexivity|]. now exists y', d.
Qed.

(** The log entry of the no-break space: the number of its occurrences. *)
Lemma sanitize_log_nbsp t :
  Py.getitem (snd (sanitize t)) (label_replaced 0xA0)
  = if Py.count t [0xA0] =? 0 then None else Some (Py.count t [0xA0]).
Proof.
  assert (Hch : In 0xA0 (map fst SPACE_SUBS)) by (simpl; tauto).
  destruct tables_nodup as [Nd1 _].
  destruct (labels_after_replaced 0xA0 Hch) as (L1 & L2 & L3 & L4).
  rewrite sanitize_snd. unfold repaired.
  rewrite stray_step_getitem, truncated_step_getitem by assumption.
  rewrite (fold_left_getitem mojibake_step)
    by (intros; now apply mojibake_step_getitem, L2).
  rewrite (fold_left_getitem remove_step)
    by (intros; now apply remove_step_getitem, L1).
  rewrite fold_space_getitem;
    [| apply incl_refl | assumption | assumption | reflexivity].
  reflexivity.
Qed.

(** C7, as amended.  A no-break space in front of a word, in any text
    whatsoever: what follows it begins, after any invisible characters and
    stray markers, with a character that is no whitespace.  The cleaned text
    then has an ordinary space in that position, directly in front of the
    cleaned text of what follows, which begins with a character that is no
    whitespace.  When the character in front of the no-break space is solid
    (no whitespace, none of the invisible characters, not the stray marker),
    the cleaned text is the cleaned text of what precedes, the space, and the
    cleaned text of what follows.  The change log holds, under the label
    [replaced 0xa0] built from the code point, the number of no-break spaces
    of the input: exactly 1 when this is the only one. *)
Theorem sanitize_nbsp_between_words (p s : text) :
  word_start s = true ->
  let t := p ++ [0xA0] ++ s in
  (exists y d z,
     fst (sanitize t) = y ++ [0x20] ++ fst (sanitize s)
     /\ fst (sanitize s) = d :: z /\ Py.isspace d = false)
  /\ (forall p' c, p = p' ++ [c] -> solid c = true ->
        fst (sanitize t) = fst (sanitize p) ++ [0x20] ++ fst (sanitize s)
        /\ exists y d, fst (sanitize p) = y ++ [d] /\ Py.isspace d = false)
  /\ label_replaced 0xA0 = str "replaced 0xa0"
  /\ Py.getitem (snd (sanitize t)) (label_replaced 0xA0)
     = Some (Z.of_nat (count_occ Z.eq_dec t 0xA0))
  /\ (~ In 0xA0 p -> ~ In 0xA0 s ->
      Py.getitem (snd (sanitize t)) (label_replaced 0xA0) = Some 1).
Proof.
  intros Hs t.
  destruct (sanitize_text_around p s Hs) as (Hy & Hp).
  assert (Hn : count_occ Z.eq_dec t 0xA0
               = S (count_occ Z.eq_dec p 0xA0 + count_occ Z.eq_dec s 0xA0)).
  { unfold t. rewrite !count_occ_app. cbn [count_occ].
    destruct (Z.eq_dec 0xA0 0xA0) as [_|N]; [lia | contradiction]. }
  assert (Hg : Py.getitem (snd (sanitize t)) (label_replaced 0xA0)
               = Some (Z.of_nat (count_occ Z.eq_dec t 0xA0))).
  { rewrite sanitize_log_nbsp, count_char_occ, Hn.
    destruct (Z.eqb_spec (Z.of_nat (S (count_occ Z.eq_dec p 0xA0
                                       + count_occ Z.eq_dec s 0xA0))) 0);
      [lia | reflexivity]. }
  split; [exact Hy|]. split; [exact Hp|].
  split; [reflexivity|]. split; [exact Hg|].
  intros Np Ns. rewrite Hg, Hn.
  apply (count_occ_not_In Z.eq_dec) in Np, Ns. now rewrite Np, Ns.
Qed.

(** The claim C7 as it is stated fails when the word after the no-break space
    is the stray marker at the end of a line: the marker is removed, and the
    space, now at the end of the line, is stripped with it.  And the count
    is the number of no-break spaces, not 1, when there are several. *)
Lemma sanitize_nbsp_lost :
  sanitize [0x61; 0xA0; A_circ; LF]
  = ([0x61; LF], [(str "replaced 0xa0", 1); (label_stray, 1)])
  /\ sanitize [0x61; 0xA0; 0x62; 0xA0; 0x63]
     = ([0x61; 0x20; 0x62; 0x20; 0x63], [(str "replaced 0xa0", 2)]).
Proof. split; vm_compute; reflexivity. Qed.

Lemma sanitize_nbsp_between_words_witness :
  let p := str "a b" ++ [LF] ++ str "Price" in
  let s := euro :: str "5 " ++ [LF] in
  let t := p ++ [0xA0] ++ s in
  word_start s = true
  /\ (exists y d z,
        fst (sanitize t) = y ++ [0x20] ++ fst (sanitize s)
        /\ fst (sanitize s) = d :: z /\ Py.isspace d = false)
  /\ (forall p' c, p = p' ++ [c] -> solid c = true ->
        fst (sanitize t) = fst (sanitize p) ++ [0x20] ++ fst (sanitize s)
        /\ exists y d, fst (sanitize p) = y ++ [d] /\ Py.isspace d = false)
  /\ label_replaced 0xA0 = str "replaced 0xa0"
  /\ Py.getitem (snd (sanitize t)) (label_replaced 0xA0)
     = Some (Z.of_nat (count_occ Z.eq_dec t 0xA0))
  /\ (~ In 0xA0 p -> ~ In 0xA0 s ->
      Py.getitem (snd (sanitize t)) (label_replaced 0xA0) = Some 1).
Proof.
  intros p s t. split; [reflexivity|].
  exact (sanitize_nbsp_between_words p s eq_refl).
Defined.
